(** * dungeonpy: the map module ([map.py]) in Rocq

    A shallow embedding of the tile catalogue, rooms, floor grids (generation
    and spatial queries), the dungeon floor counter, the agent occupancy index
    and the text renderer, followed by the properties proved about them.

    Conventions of the embedding:
    - Python [int] is [Z]; [//] is [Z.div] (both round towards minus infinity).
    - A Python list is a [list]; indexing follows Python (negative indices count
      from the end, anything else out of range raises [IndexError]).
    - A call either returns a value or raises; the only loop that is not a
      [for] over a pre-computed range (the line-of-sight walk) takes fuel.
    - [random] is a stream of integer draws, consumed left to right; every
      value the library call could return is reached by some draw. *)

From stdpp Require Import base option list gmap strings.
From Stdlib Require Import ZArith Lia.

Local Open Scope Z_scope.

(** ** Outcomes of a call *)

Inductive exception : Type := IndexError | ValueError.

Inductive outcome (A : Type) : Type :=
| Returns (a : A)
| Raises (e : exception)
| OutOfFuel.
Arguments Returns {A} a.
Arguments Raises {A} e.
Arguments OutOfFuel {A}.

#[global] Instance outcome_ret : MRet outcome := λ A a, Returns a.
#[global] Instance outcome_bind : MBind outcome := λ A B f m,
  match m with
  | Returns a => f a
  | Raises e => Raises e
  | OutOfFuel => OutOfFuel
  end.

(** ** Python sequences *)

(** Normalisation of a subscript against a length: [l[i]] for [-len <= i < len]. *)
Definition py_index (len : nat) (i : Z) : option nat :=
  if (0 <=? i) && (i <? Z.of_nat len) then Some (Z.to_nat i)
  else if (- Z.of_nat len <=? i) && (i <? 0) then Some (Z.to_nat (i + Z.of_nat len))
  else None.

(** [l[i]] *)
Definition getitem {A} (l : list A) (i : Z) : outcome A :=
  match py_index (length l) i with
  | Some n => match l !! n with Some a => Returns a | None => Raises IndexError end
  | None => Raises IndexError
  end.

(** [l[i] = v] *)
Definition setitem {A} (l : list A) (i : Z) (v : A) : outcome (list A) :=
  match py_index (length l) i with
  | Some n => Returns (<[n := v]> l)
  | None => Raises IndexError
  end.

(** [range(a, b)] *)
Definition range (a b : Z) : list Z :=
  (λ k : nat, a + Z.of_nat k) <$> seq 0 (Z.to_nat (b - a)).

(** ** The random source *)

Definition RNG : Type := nat → Z.

Definition Rand (A : Type) : Type := RNG → outcome (A * RNG).

#[global] Instance rand_ret : MRet Rand := λ A a g, Returns (a, g).
#[global] Instance rand_bind : MBind Rand := λ A B f m g,
  match m g with
  | Returns (a, g') => f a g'
  | Raises e => Raises e
  | OutOfFuel => OutOfFuel
  end.

Definition lift {A} (o : outcome A) : Rand A := λ g,
  match o with
  | Returns a => Returns (a, g)
  | Raises e => Raises e
  | OutOfFuel => OutOfFuel
  end.

Definition draw : Rand Z := λ g, Returns (g 0%nat, λ n, g (S n)).

(** [random.randint(a, b)]: an integer of [a..b], [ValueError] on an empty range. *)
Definition randint (a b : Z) : Rand Z :=
  if b <? a then λ _, Raises ValueError
  else d ← draw; mret (a + d mod (b - a + 1)).

(** [random.choice(seq)]: an element of [seq], [IndexError] when it is empty. *)
Definition choice {A} (l : list A) : Rand A :=
  match l with
  | [] => λ _, Raises IndexError
  | _ => d ← draw; lift (getitem l (d mod Z.of_nat (length l)))
  end.

(** [random.random() < 0.5] *)
Definition coin : Rand bool := d ← draw; mret (Z.even d).

(** ** Tile catalogue *)

Inductive TileType : Type := WALL | FLOOR | STAIRS_DOWN | STAIRS_UP.

#[global] Instance TileType_eq_dec : EqDecision TileType.
Proof. solve_decision. Defined.

Module TileProperties.

Definition is_walkable (t : TileType) : bool :=
  match t with WALL => false | _ => true end.

Definition is_transparent (t : TileType) : bool :=
  match t with WALL => false | _ => true end.

Definition get_symbol (t : TileType) : string :=
  match t with
  | WALL => "#"
  | FLOOR => "."
  | STAIRS_DOWN => ">"
  | STAIRS_UP => "<"
  end.

End TileProperties.

(** ** Rooms *)

Module Room.

Record t : Type := Build { x : Z; y : Z; width : Z; height : Z }.

Definition center (r : t) : Z * Z :=
  (x r + width r / 2, y r + height r / 2).

Definition intersects (self other : t) : bool :=
  (x self <? x other + width other) &&
  (x other <? x self + width self) &&
  (y self <? y other + height other) &&
  (y other <? y self + height self).

Definition contains_point (r : t) (px py : Z) : bool :=
  (x r <=? px) && (px <? x r + width r) &&
  (y r <=? py) && (py <? y r + height r).

Definition get_inner_area (r : t) : list (Z * Z) :=
  py ← range (y r + 1) (y r + height r - 1);
  px ← range (x r + 1) (x r + width r - 1);
  [(px, py)].

End Room.

#[global] Instance Room_eq_dec : EqDecision Room.t.
Proof. solve_decision. Defined.

(** A [for] loop in any of the two monads: the body updates the loop state. *)
Fixpoint for_in {M : Type → Type} `{!MBind M, !MRet M} {S X}
    (xs : list X) (body : S → X → M S) (s : S) : M S :=
  match xs with
  | [] => mret s
  | x :: xs' => s' ← body s x; for_in xs' body s'
  end.

(** ** Floor grids *)

Module GameMap.

Record t : Type := Build {
  width : Z;
  height : Z;
  floor_number : Z;
  tiles : list (list TileType);
  rooms : list Room.t;
  stairs_position : option (Z * Z);
  spawn_point : option (Z * Z)
}.

Definition with_tiles (m : t) (ts : list (list TileType)) : t :=
  Build (width m) (height m) (floor_number m) ts (rooms m)
        (stairs_position m) (spawn_point m).

Definition with_rooms (m : t) (rs : list Room.t) : t :=
  Build (width m) (height m) (floor_number m) (tiles m) rs
        (stairs_position m) (spawn_point m).

Definition with_stairs_position (m : t) (p : option (Z * Z)) : t :=
  Build (width m) (height m) (floor_number m) (tiles m) (rooms m)
        p (spawn_point m).

Definition with_spawn_point (m : t) (p : option (Z * Z)) : t :=
  Build (width m) (height m) (floor_number m) (tiles m) (rooms m)
        (stairs_position m) p.

(** [GameMap(width, height, floor_number)]: all walls, no rooms. *)
Definition init (w h fn : Z) : t :=
  Build w h fn (replicate (Z.to_nat h) (replicate (Z.to_nat w) WALL)) [] None None.

(** [tiles[y][x]] *)
Definition tile_at (ts : list (list TileType)) (x y : Z) : outcome TileType :=
  row ← getitem ts y; getitem row x.

(** [tiles[y][x] = v]: the row object is updated in place. *)
Definition tile_assign (ts : list (list TileType)) (x y : Z) (v : TileType)
    : outcome (list (list TileType)) :=
  row ← getitem ts y; row' ← setitem row x v; setitem ts y row'.

Definition _carve_room (m : t) (room : Room.t) : outcome t :=
  ts ← for_in (range (Room.y room + 1) (Room.y room + Room.height room - 1))
        (λ ts y,
           for_in (range (Room.x room + 1) (Room.x room + Room.width room - 1))
             (λ ts x, tile_assign ts x y FLOOR) ts)
        (tiles m);
  mret (with_tiles m ts).

Definition min_rooms : Z := 6.
Definition max_rooms : Z := 12.
Definition min_room_size : Z := 5.
Definition max_room_size : Z := 15.

(** One turn of the loop of [_generate_rooms]. *)
Definition room_attempt (m : t) : Rand t :=
  room_width ← randint min_room_size max_room_size;
  room_height ← randint min_room_size max_room_size;
  let max_x := width m - room_width - 1 in
  let max_y := height m - room_height - 1 in
  if (max_x <=? 1) || (max_y <=? 1) then mret m
  else
    room_x ← randint 1 max_x;
    room_y ← randint 1 max_y;
    let new_room := Room.Build room_x room_y room_width room_height in
    if existsb (Room.intersects new_room) (rooms m) then mret m
    else
      m' ← lift (_carve_room m new_room);
      mret (with_rooms m' (rooms m' ++ [new_room])).

Definition _generate_rooms (m : t) : Rand t :=
  num_rooms ← randint min_rooms max_rooms;
  for_in (range 0 num_rooms) (λ m _, room_attempt m) m.

Definition tunnel_cell (m : t) (ts : list (list TileType)) (x y : Z)
    : outcome (list (list TileType)) :=
  if (0 <? x) && (x <? width m - 1) && (0 <? y) && (y <? height m - 1)
  then tile_assign ts x y FLOOR
  else mret ts.

Definition _create_horizontal_tunnel (m : t) (x_start x_end y : Z) : outcome t :=
  ts ← for_in (range (Z.min x_start x_end) (Z.max x_start x_end + 1))
        (λ ts x, tunnel_cell m ts x y) (tiles m);
  mret (with_tiles m ts).

Definition _create_vertical_tunnel (m : t) (y_start y_end x : Z) : outcome t :=
  ts ← for_in (range (Z.min y_start y_end) (Z.max y_start y_end + 1))
        (λ ts y, tunnel_cell m ts x y) (tiles m);
  mret (with_tiles m ts).

Definition _create_corridor (m : t) (start end_ : Z * Z) : Rand t :=
  let start_x := start.1 in let start_y := start.2 in
  let end_x := end_.1 in let end_y := end_.2 in
  horizontal_first ← coin;
  if horizontal_first : bool then
    (m1 ← lift (_create_horizontal_tunnel m start_x end_x start_y);
     lift (_create_vertical_tunnel m1 start_y end_y end_x)) : Rand t
  else
    (m1 ← lift (_create_vertical_tunnel m start_y end_y start_x);
     lift (_create_horizontal_tunnel m1 start_x end_x end_y)) : Rand t.

(** One turn of the loop of [_connect_rooms]. *)
Definition connect_pair (m : t) (i : Z) : Rand t :=
  room1 ← lift (getitem (rooms m) i);
  room2 ← lift (getitem (rooms m) (i + 1));
  _create_corridor m (Room.center room1) (Room.center room2).

Definition _connect_rooms (m : t) : Rand t :=
  if Z.of_nat (length (rooms m)) <? 2 then mret m
  else for_in (range 0 (Z.of_nat (length (rooms m)) - 1)) connect_pair m.

Definition _place_stairs (m : t) : Rand t :=
  if Z.of_nat (length (rooms m)) <? 2 then mret m
  else
    stair_room ← choice (drop 1 (rooms m));
    let floor_tiles := Room.get_inner_area stair_room in
    match floor_tiles with
    | [] => mret m
    | _ =>
        stairs_pos ← choice floor_tiles;
        let m1 := with_stairs_position m (Some stairs_pos) in
        ts ← lift (tile_assign (tiles m1) stairs_pos.1 stairs_pos.2 STAIRS_DOWN);
        mret (with_tiles m1 ts)
    end.

Definition _set_spawn_point (m : t) : Rand t :=
  match rooms m with
  | [] => mret m
  | spawn_room :: _ =>
      let floor_tiles := Room.get_inner_area spawn_room in
      match floor_tiles with
      | [] => mret m
      | _ => p ← choice floor_tiles; mret (with_spawn_point m (Some p))
      end
  end.

Definition generate_map (m : t) : Rand t :=
  m1 ← _generate_rooms m;
  m2 ← _connect_rooms m1;
  m3 ← _place_stairs m2;
  _set_spawn_point m3.

Definition is_valid_position (m : t) (x y : Z) : bool :=
  (0 <=? x) && (x <? width m) && (0 <=? y) && (y <? height m).

Definition is_walkable (m : t) (x y : Z) : outcome bool :=
  if negb (is_valid_position m x y) then mret false
  else tile ← tile_at (tiles m) x y; mret (TileProperties.is_walkable tile).

Definition get_tile (m : t) (x y : Z) : outcome (option TileType) :=
  if negb (is_valid_position m x y) then mret None
  else tile ← tile_at (tiles m) x y; mret (Some tile).

Definition set_tile (m : t) (x y : Z) (tile_type : TileType) : outcome (bool * t) :=
  if negb (is_valid_position m x y) then mret (false, m)
  else ts ← tile_assign (tiles m) x y tile_type; mret (true, with_tiles m ts).

Definition default_max_range : Z := 8.

(** The tail of the loop body of [has_line_of_sight]: the new values of
    [(x, y, err)]. *)
Definition los_advance (dx dy sx sy : Z) (v : Z * Z * Z) : Z * Z * Z :=
  let '(x, y, err) := v in
  let e2 := 2 * err in
  let '(err, x) := if e2 >? - dy then (err - dy, x + sx) else (err, x) in
  let '(err, y) := if e2 <? dx then (err + dx, y + sy) else (err, y) in
  (x, y, err).

(** The [while] loop of [has_line_of_sight]; [x2 y2 dx dy sx sy] are the
    loop's constants, [v = (x, y, err)] its variables. *)
Fixpoint los_loop (fuel : nat) (m : t) (x2 y2 dx dy sx sy : Z) (v : Z * Z * Z)
    : outcome bool :=
  let '(x, y, _) := v in
  if negb (x =? x2) || negb (y =? y2) then
    match fuel with
    | O => OutOfFuel
    | S fuel' =>
        if negb (is_valid_position m x y) then Returns false
        else
          tile ← tile_at (tiles m) x y;
          if negb (TileProperties.is_transparent tile) then Returns false
          else los_loop fuel' m x2 y2 dx dy sx sy (los_advance dx dy sx sy v)
    end
  else Returns true.

(** A grid of [height] rows of [width] tiles each. *)
Definition wf (m : t) : Prop :=
  length (tiles m) = Z.to_nat (height m) ∧
  Forall (λ row, length row = Z.to_nat (width m)) (tiles m).

Definition has_line_of_sight (fuel : nat) (m : t) (x1 y1 x2 y2 : Z) (max_range : Z)
    : outcome bool :=
  let distance := Z.abs (x1 - x2) + Z.abs (y1 - y2) in
  if distance >? max_range then Returns false
  else
    let dx := Z.abs (x2 - x1) in
    let dy := Z.abs (y2 - y1) in
    let sx := if x1 <? x2 then 1 else -1 in
    let sy := if y1 <? y2 then 1 else -1 in
    let err := dx - dy in
    los_loop fuel m x2 y2 dx dy sx sy (x1, y1, err).

End GameMap.

(** ** The rasterised line, as the specification words it

    Standard Bresenham with [dx = |x2 - x1|], [dy = |y2 - y1|], step signs
    [sx], [sy] from comparing start and end, [err = dx - dy]; the walk goes
    on while the current point is not the endpoint and advances by the
    error-accumulator rule.  This definition knows nothing of a map. *)

Module Bresenham.

Record cursor : Type := Cursor { cx : Z; cy : Z; cerr : Z }.

Record line : Type := Line { x1 : Z; y1 : Z; x2 : Z; y2 : Z }.

Definition dx (l : line) : Z := Z.abs (x2 l - x1 l).
Definition dy (l : line) : Z := Z.abs (y2 l - y1 l).
Definition sx (l : line) : Z := if x1 l <? x2 l then 1 else -1.
Definition sy (l : line) : Z := if y1 l <? y2 l then 1 else -1.

Definition start (l : line) : cursor := Cursor (x1 l) (y1 l) (dx l - dy l).

Definition at_end (l : line) (c : cursor) : bool :=
  (cx c =? x2 l) && (cy c =? y2 l).

(** The two branches of the error-accumulator rule. *)
Definition steps_x (l : line) (c : cursor) : bool := 2 * cerr c >? - dy l.
Definition steps_y (l : line) (c : cursor) : bool := 2 * cerr c <? dx l.

Definition advance (l : line) (c : cursor) : cursor :=
  let c1 := if steps_x l c then Cursor (cx c + sx l) (cy c) (cerr c - dy l) else c in
  if steps_y l c then Cursor (cx c1) (cy c1 + sy l) (cerr c1 + dx l) else c1.


(** Points visited before the endpoint, at most [n] of them. *)
Fixpoint walk_from (n : nat) (l : line) (c : cursor) : list (Z * Z) :=
  if at_end l c then []
  else match n with
       | O => []
       | S n' => (cx c, cy c) :: walk_from n' l (advance l c)
       end.

(** Remaining Chebyshev distance to the endpoint. *)
Definition chebyshev (l : line) (c : cursor) : Z :=
  Z.max (Z.abs (x2 l - cx c)) (Z.abs (y2 l - cy c)).

(** Number of iterations of the walk. *)
Definition span (l : line) : nat := Z.to_nat (Z.max (dx l) (dy l)).

(** The points visited strictly before the endpoint, start included. *)
Definition visited (l : line) : list (Z * Z) := walk_from (span l) l (start l).

End Bresenham.

(** ** The dungeon: a bounded floor counter over cached floors *)

Module Dungeon.

Record t : Type := Build {
  map_width : Z;
  map_height : Z;
  floors : gmap Z GameMap.t;
  current_floor : Z;
  max_floors : Z
}.

Definition with_current_floor (d : t) (n : Z) : t :=
  Build (map_width d) (map_height d) (floors d) n (max_floors d).

Definition with_floors (d : t) (fs : gmap Z GameMap.t) : t :=
  Build (map_width d) (map_height d) fs (current_floor d) (max_floors d).

Definition init (map_width map_height : Z) : t :=
  Build map_width map_height ∅ 1 2.

Definition _generate_floor (d : t) (floor_number : Z) : Rand (GameMap.t * t) :=
  game_map ← GameMap.generate_map
               (GameMap.init (map_width d) (map_height d) floor_number);
  mret (game_map, with_floors d (<[floor_number := game_map]> (floors d))).

Definition get_current_floor (d : t) : Rand (GameMap.t * t) :=
  match floors d !! current_floor d with
  | Some game_map => mret (game_map, d)
  | None => _generate_floor d (current_floor d)
  end.

Definition go_down_stairs (d : t) : bool * t :=
  if current_floor d >=? max_floors d then (false, d)
  else (true, with_current_floor d (current_floor d + 1)).

Definition go_up_stairs (d : t) : bool * t :=
  if current_floor d <=? 1 then (false, d)
  else (true, with_current_floor d (current_floor d - 1)).

Definition reset_dungeon (d : t) : t :=
  with_current_floor (with_floors d ∅) 1.

End Dungeon.

(** ** Agents and the occupancy index *)

(** An agent is an opaque object, known by its identity.  What the map module
    reads and writes of it are two optional attributes, kept in a store. *)
Definition Agent : Type := nat.

Record AgentAttrs : Type := Attrs {
  (** [None]: no attribute [position]; [Some None]: the attribute holds
      [None]; [Some (Some p)]: it holds the pair [p]. *)
  position : option (option (Z * Z));
  (** [None]: no attribute [symbol]. *)
  symbol : option string
}.

Definition Store : Type := Agent → AgentAttrs.

(** [agent.position = p] *)
Definition set_position (h : Store) (a : Agent) (p : Z * Z) : Store :=
  λ b, if decide (b = a) then Attrs (Some (Some p)) (symbol (h a)) else h b.

(** A [dict], in insertion order, with keys [K]. *)
Module Dict.
Section dict.
Context {K V : Type} `{!EqDecision K}.

Definition t : Type := list (K * V).

Fixpoint get (d : t) (k : K) : option V :=
  match d with
  | [] => None
  | (k', v) :: d' => if decide (k' = k) then Some v else get d' k
  end.

(** [d[k] = v]: in place when [k] is a key, a new last entry otherwise. *)
Fixpoint set (d : t) (k : K) (v : V) : t :=
  match d with
  | [] => [(k, v)]
  | (k', v') :: d' =>
      if decide (k' = k) then (k, v) :: d' else (k', v') :: set d' k v
  end.

(** [del d[k]] for a key [k] of [d]. *)
Fixpoint del (d : t) (k : K) : t :=
  match d with
  | [] => []
  | (k', v') :: d' => if decide (k' = k) then d' else (k', v') :: del d' k
  end.

Definition keys (d : t) : list K := d.*1.
Definition values (d : t) : list V := d.*2.

End dict.
Arguments t : clear implicits.
End Dict.

(** [l.remove(a)] for an [a] that occurs in [l]: the first occurrence goes. *)
Fixpoint list_remove_first (a : Agent) (l : list Agent) : list Agent :=
  match l with
  | [] => []
  | b :: l' => if decide (b = a) then l' else b :: list_remove_first a l'
  end.

Module AgentManager.

Record t : Type := Build {
  game_map : GameMap.t;
  agents : Dict.t (Z * Z) (list Agent)
}.

Definition init (game_map : GameMap.t) : t := Build game_map [].

Definition with_agents (am : t) (d : Dict.t (Z * Z) (list Agent)) : t :=
  Build (game_map am) d.

(** [self.agents[pos].append(agent)], after creating the list when absent. *)
Definition append_at (d : Dict.t (Z * Z) (list Agent)) (pos : Z * Z) (agent : Agent)
    : Dict.t (Z * Z) (list Agent) :=
  let d1 := match Dict.get d pos with None => Dict.set d pos [] | Some _ => d end in
  match Dict.get d1 pos with
  | Some l => Dict.set d1 pos (l ++ [agent])
  | None => d1
  end.

(** [agent_list.remove(agent)] on the list stored at [pos], and the entry
    deleted when the list is left empty. *)
Definition detach_at (d : Dict.t (Z * Z) (list Agent)) (pos : Z * Z)
    (agent_list : list Agent) (agent : Agent) : Dict.t (Z * Z) (list Agent) :=
  let l' := list_remove_first agent agent_list in
  match l' with
  | [] => Dict.del d pos
  | _ => Dict.set d pos l'
  end.

Definition place_agent (am : t) (h : Store) (agent : Agent) (x y : Z)
    : outcome (bool * t * Store) :=
  walkable ← GameMap.is_walkable (game_map am) x y;
  if negb walkable then mret (false, am, h)
  else
    let pos := (x, y) in
    let am' := with_agents am (append_at (agents am) pos agent) in
    let h' := match position (h agent) with
              | Some _ => set_position h agent pos
              | None => h
              end in
    mret (true, am', h').

(** The scan of [remove_agent] over [self.agents.items()]. *)
Fixpoint find_agent (items : list ((Z * Z) * list Agent)) (agent : Agent)
    : option ((Z * Z) * list Agent) :=
  match items with
  | [] => None
  | (pos, agent_list) :: items' =>
      if decide (agent ∈ agent_list) then Some (pos, agent_list)
      else find_agent items' agent
  end.

Definition remove_agent (am : t) (agent : Agent) : bool * t :=
  match find_agent (agents am) agent with
  | Some (pos, agent_list) =>
      (true, with_agents am (detach_at (agents am) pos agent_list agent))
  | None => (false, am)
  end.

Definition move_agent (am : t) (h : Store) (agent : Agent) (new_x new_y : Z)
    : outcome (bool * t * Store) :=
  walkable ← GameMap.is_walkable (game_map am) new_x new_y;
  if negb walkable then mret (false, am, h)
  else
    (* getattr(agent, 'position', None) *)
    let old_pos := match position (h agent) with Some p => p | None => None end in
    let d1 :=
      match old_pos with
      | Some old =>
          match Dict.get (agents am) old with
          | Some agent_list =>
              if decide (agent ∈ agent_list)
              then detach_at (agents am) old agent_list agent
              else agents am
          | None => agents am
          end
      | None => agents am
      end in
    let new_pos := (new_x, new_y) in
    let am' := with_agents am (append_at d1 new_pos agent) in
    let h' := match position (h agent) with
              | Some _ => set_position h agent new_pos
              | None => h
              end in
    mret (true, am', h').

Definition get_agents_at (am : t) (x y : Z) : list Agent :=
  default [] (Dict.get (agents am) (x, y)).

Definition is_position_occupied (am : t) (x y : Z) : bool :=
  bool_decide (0 < length (get_agents_at am x y))%nat.

Definition get_all_agents (am : t) : list Agent :=
  concat (Dict.values (agents am)).

Definition clear_all_agents (am : t) : t := with_agents am [].

(** [can_move_to(x, y, exclude_agent)].  [exclude_agent] is [None] by
    default; [truthy] tells which agents Python takes for true in
    [if exclude_agent:]. *)
Definition can_move_to (am : t) (truthy : Agent → bool) (x y : Z)
    (exclude_agent : option Agent) : outcome bool :=
  walkable ← GameMap.is_walkable (game_map am) x y;
  if negb walkable then mret false
  else
    let agents_at_pos := get_agents_at am x y in
    let agents_at_pos :=
      match exclude_agent with
      | Some e => if truthy e then filter (λ a, a ≠ e) agents_at_pos else agents_at_pos
      | None => agents_at_pos
      end in
    mret (bool_decide (length agents_at_pos = 0%nat)).

(** A caller's sequence of mutating calls; the results are dropped, an
    exception ends the sequence. *)
Inductive call : Type :=
| Place (agent : Agent) (x y : Z)
| Remove (agent : Agent)
| Move (agent : Agent) (x y : Z).

Definition run_call (st : t * Store) (c : call) : outcome (t * Store) :=
  match c with
  | Place agent x y =>
      r ← place_agent st.1 st.2 agent x y; mret (r.1.2, r.2)
  | Remove agent => mret ((remove_agent st.1 agent).2, st.2)
  | Move agent x y =>
      r ← move_agent st.1 st.2 agent x y; mret (r.1.2, r.2)
  end.

Definition run_calls (cs : list call) (st : t * Store) : outcome (t * Store) :=
  for_in cs run_call st.

End AgentManager.

(** ** Rendering *)

Module MapRenderer.

Record t : Type := Build {
  game_map : GameMap.t;
  agent_manager : AgentManager.t
}.

(** [(start_x, start_y, end_x, end_y)] of [render_map]. *)
Definition viewport_bounds (r : t)
    (viewport_width viewport_height center_x center_y : option Z)
    : Z * Z * Z * Z :=
  let viewport_width := default (GameMap.width (game_map r)) viewport_width in
  let viewport_height := default (GameMap.height (game_map r)) viewport_height in
  match center_x, center_y with
  | Some center_x, Some center_y =>
      let start_x := Z.max 0 (center_x - viewport_width / 2) in
      let start_y := Z.max 0 (center_y - viewport_height / 2) in
      let end_x := Z.min (GameMap.width (game_map r)) (start_x + viewport_width) in
      let end_y := Z.min (GameMap.height (game_map r)) (start_y + viewport_height) in
      (start_x, start_y, end_x, end_y)
  | _, _ =>
      (0, 0, Z.min (GameMap.width (game_map r)) viewport_width,
             Z.min (GameMap.height (game_map r)) viewport_height)
  end.

(** The text one cell adds to its line. *)
Definition render_cell (r : t) (h : Store) (x y : Z) : outcome string :=
  let tile_symbol : outcome string :=
    tile ← GameMap.get_tile (game_map r) x y;
    mret (match tile with
          | Some tile => TileProperties.get_symbol tile
          | None => " "
          end) in
  match AgentManager.get_agents_at (agent_manager r) x y with
  | agent :: _ =>
      match symbol (h agent) with
      | Some s => mret s
      | None => tile_symbol
      end
  | [] => tile_symbol
  end.

Definition render_line (r : t) (h : Store) (start_x end_x y : Z) : outcome string :=
  for_in (range start_x end_x)
    (λ line x, s ← render_cell r h x y; mret (line +:+ s)) "".

Definition render_map (r : t) (h : Store)
    (viewport_width viewport_height center_x center_y : option Z)
    : outcome (list string) :=
  let '(start_x, start_y, end_x, end_y) :=
    viewport_bounds r viewport_width viewport_height center_x center_y in
  for_in (range start_y end_y)
    (λ rendered_lines y,
       line ← render_line r h start_x end_x y;
       mret (rendered_lines ++ [line])) [].

End MapRenderer.

(** * Vocabulary of the properties *)

(** ** Calls that return *)

(** [o] returns, and what it returns satisfies [Q]. *)
Definition returns {A} (o : outcome A) (Q : A → Prop) : Prop :=
  ∃ a, o = Returns a ∧ Q a.

(** The same for calls that draw random numbers: whatever the draws are. *)
Definition rreturns {A} (c : Rand A) (Q : A → Prop) : Prop :=
  ∀ g, ∃ a g', c g = Returns (a, g') ∧ Q a.

(** ** Grids *)

(** [ts] has [h] rows of [w] tiles. *)
Definition grid (w h : Z) (ts : list (list TileType)) : Prop :=
  length ts = Z.to_nat h ∧ Forall (λ row, length row = Z.to_nat w) ts.

(** Number of tiles of kind [t]. *)
Definition count_tiles (t : TileType) (ts : list (list TileType)) : nat :=
  length (filter (λ t', t' = t) (concat ts)).

(** The tile at [p] can be seen through: [p] is on the grid and its tile is
    transparent. *)
Definition sees_through (m : GameMap.t) (p : Z * Z) : Prop :=
  GameMap.is_valid_position m p.1 p.2 = true ∧
  ∃ t, GameMap.get_tile m p.1 p.2 = Returns (Some t) ∧
       TileProperties.is_transparent t = true.

Definition sees_throughb (m : GameMap.t) (p : Z * Z) : bool :=
  GameMap.is_valid_position m p.1 p.2 &&
  match GameMap.tile_at (GameMap.tiles m) p.1 p.2 with
  | Returns t => TileProperties.is_transparent t
  | _ => false
  end.

(** ** The loop of [has_line_of_sight] along a line *)

(** The loop variables [(x, y, err)] of [has_line_of_sight] after [k] turns
    of the loop (when no turn returned early). *)
Definition los_vars (l : Bresenham.line) (k : nat) : Z * Z * Z :=
  Nat.iter k
    (GameMap.los_advance (Bresenham.dx l) (Bresenham.dy l) (Bresenham.sx l) (Bresenham.sy l))
    (Bresenham.x1 l, Bresenham.y1 l, Bresenham.dx l - Bresenham.dy l).

(** [k] turns into the walk: [rx] and [ry] steps are left on each axis, the
    error term is the one of the ideal line, and the major axis has moved
    at every turn. *)
Definition on_line (l : Bresenham.line) (k : nat) (v : Z * Z * Z) : Prop :=
  ∃ rx ry : Z,
    Bresenham.x2 l - v.1.1 = Bresenham.sx l * rx ∧
    Bresenham.y2 l - v.1.2 = Bresenham.sy l * ry ∧
    0 ≤ rx ≤ Bresenham.dx l ∧ 0 ≤ ry ≤ Bresenham.dy l ∧
    v.2 = Bresenham.dx l - Bresenham.dy l + rx * Bresenham.dy l - ry * Bresenham.dx l ∧
    (Bresenham.dy l ≤ Bresenham.dx l →
       rx = Bresenham.dx l - Z.of_nat k ∧
       (0 < Bresenham.dx l →
          - Bresenham.dy l < 2 * v.2 < 3 * Bresenham.dx l - 2 * Bresenham.dy l)) ∧
    (Bresenham.dx l < Bresenham.dy l →
       ry = Bresenham.dy l - Z.of_nat k ∧
       2 * Bresenham.dx l - 3 * Bresenham.dy l < 2 * v.2 < Bresenham.dx l).

Definition to_cursor (v : Z * Z * Z) : Bresenham.cursor :=
  Bresenham.Cursor v.1.1 v.1.2 v.2.

(** ** The occupancy index and the renderer *)

(** The index is a dictionary (no key twice) whose lists are not empty. *)
Definition index_ok (d : Dict.t (Z * Z) (list Agent)) : Prop :=
  NoDup (Dict.keys d) ∧ Forall (λ e, e.2 ≠ []) d.

(** The index after the detaching half of [move_agent]. *)
Definition departed (d : Dict.t (Z * Z) (list Agent)) (h : Store) (agent : Agent)
    : Dict.t (Z * Z) (list Agent) :=
  match (match position (h agent) with Some p => p | None => None end) with
  | Some old =>
      match Dict.get d old with
      | Some agent_list =>
          if decide (agent ∈ agent_list)
          then AgentManager.detach_at d old agent_list agent
          else d
      | None => d
      end
  | None => d
  end.

(** Every agent in the index that has a symbol has a one-character one. *)
Definition single_char_symbols (am : AgentManager.t) (h : Store) : Prop :=
  ∀ pos agent_list agent s,
    Dict.get (AgentManager.agents am) pos = Some agent_list →
    agent ∈ agent_list → symbol (h agent) = Some s → String.length s = 1%nat.

(** ** Generated floors *)

(** A room as [_generate_rooms] makes them: at least five tiles each way and
    a tile away from the border of a [w] by [h] grid. *)
Definition room_fits (w h : Z) (r : Room.t) : Prop :=
  5 ≤ Room.width r ∧ 5 ≤ Room.height r ∧
  1 ≤ Room.x r ∧ Room.x r + Room.width r ≤ w - 1 ∧
  1 ≤ Room.y r ∧ Room.y r + Room.height r ≤ h - 1.

(** No two rooms at different places of the list intersect. *)
Definition disjoint_rooms (rs : list Room.t) : Prop :=
  ∀ (i j : nat) (ri rj : Room.t),
    i ≠ j → rs !! i = Some ri → rs !! j = Some rj → Room.intersects ri rj = false.

Definition no_stairs (ts : list (list TileType)) : Prop :=
  Forall (Forall (λ t, t ≠ STAIRS_DOWN)) ts.

Definition tiles_ok (w h : Z) (ts : list (list TileType)) : Prop :=
  grid w h ts ∧ no_stairs ts.

(** The floor while rooms and corridors are carved. *)
Record carved (w h : Z) (m : GameMap.t) : Prop := Carved {
  carved_width : GameMap.width m = w;
  carved_height : GameMap.height m = h;
  carved_tiles : tiles_ok w h (GameMap.tiles m);
  carved_rooms : Forall (room_fits w h) (GameMap.rooms m);
  carved_disjoint : disjoint_rooms (GameMap.rooms m);
  carved_stairs_position : GameMap.stairs_position m = None
}.

(** The stairs of a floor: recorded at [(sx, sy)], an interior tile of a room
    that is not the first of the list, the only tile of kind [STAIRS_DOWN]. *)
Definition stairs_placed (m : GameMap.t) (sx sy : Z) : Prop :=
  GameMap.stairs_position m = Some (sx, sy) ∧
  GameMap.tile_at (GameMap.tiles m) sx sy = Returns STAIRS_DOWN ∧
  count_tiles STAIRS_DOWN (GameMap.tiles m) = 1%nat ∧
  (∀ x y, 0 ≤ x < GameMap.width m → 0 ≤ y < GameMap.height m →
     GameMap.tile_at (GameMap.tiles m) x y = Returns STAIRS_DOWN → (x, y) = (sx, sy)) ∧
  ∃ (i : nat) (r : Room.t),
    (1 ≤ i)%nat ∧ GameMap.rooms m !! i = Some r ∧ (sx, sy) ∈ Room.get_inner_area r.

(** The floor once generated. *)
Record generated (w h : Z) (m : GameMap.t) : Prop := Generated {
  generated_width : GameMap.width m = w;
  generated_height : GameMap.height m = h;
  generated_grid : grid w h (GameMap.tiles m);
  generated_rooms : Forall (room_fits w h) (GameMap.rooms m);
  generated_disjoint : disjoint_rooms (GameMap.rooms m);
  generated_stairs :
    (2 ≤ length (GameMap.rooms m))%nat → ∃ sx sy, stairs_placed m sx sy
}.

(** ** Sample data *)

(** A three by five grid with a corridor of three floor tiles. *)
Definition corridor_map : GameMap.t :=
  GameMap.Build 5 3 1
    [ [WALL; WALL; WALL; WALL; WALL];
      [WALL; FLOOR; FLOOR; FLOOR; WALL];
      [WALL; WALL; WALL; WALL; WALL] ]
    [] None None.

(** The corridor grid with one agent, drawn as [@], on its first floor tile. *)
Definition corridor_view : MapRenderer.t :=
  MapRenderer.Build corridor_map (AgentManager.Build corridor_map [((1, 1), [7%nat])]).

Definition at_sign : Store := λ _, Attrs (Some None) (Some "@").

(** Draws that make two rooms on a 40 by 20 grid: six attempts, the first at
    (1, 1) of size 5 by 5, the second at (21, 2) of size 8 by 7, the other
    four on top of the first. *)
Definition two_room_draws : RNG :=
  λ n, nth n [0; 0; 0; 0; 0; 3; 2; 20; 1; 5; 5; 1; 1] 0.

(** ** Carving a floor *)

Definition wall_or_floor (t : TileType) : Prop := t = WALL ∨ t = FLOOR.

(** [(x, y)] is on the outer border of a [w] by [h] grid. *)
Definition on_border (w h x y : Z) : Prop :=
  x = 0 ∨ x = w - 1 ∨ y = 0 ∨ y = h - 1.

(** [ts'] is [ts] with some tiles strictly inside the border turned to floor. *)
Definition carves (w h : Z) (ts ts' : list (list TileType)) : Prop :=
  ∀ x y, 0 ≤ x < w → 0 ≤ y < h →
    GameMap.tile_at ts' x y = GameMap.tile_at ts x y ∨
    (GameMap.tile_at ts' x y = Returns FLOOR ∧ 0 < x < w - 1 ∧ 0 < y < h - 1).

(** The tiles while rooms and corridors are carved out of [ts0]. *)
Definition carving (w h : Z) (ts0 ts : list (list TileType)) : Prop :=
  grid w h ts ∧ Forall (Forall wall_or_floor) ts ∧ carves w h ts0 ts.

(** The floor between two carving steps: rooms of 5 to 15 tiles each way
    with floor inside, walls all around the grid, nothing placed yet. *)
Record furnished (w h fn : Z) (m : GameMap.t) : Prop := Furnished {
  furnished_width : GameMap.width m = w;
  furnished_height : GameMap.height m = h;
  furnished_floor_number : GameMap.floor_number m = fn;
  furnished_grid : grid w h (GameMap.tiles m);
  furnished_kinds : Forall (Forall wall_or_floor) (GameMap.tiles m);
  furnished_rooms :
    Forall (λ r, room_fits w h r ∧ Room.width r ≤ 15 ∧ Room.height r ≤ 15) (GameMap.rooms m);
  furnished_disjoint : disjoint_rooms (GameMap.rooms m);
  furnished_stairs_position : GameMap.stairs_position m = None;
  furnished_spawn_point : GameMap.spawn_point m = None;
  furnished_border :
    ∀ x y, 0 ≤ x < w → 0 ≤ y < h → on_border w h x y →
           GameMap.tile_at (GameMap.tiles m) x y = Returns WALL;
  furnished_interiors :
    ∀ r px py, r ∈ GameMap.rooms m → (px, py) ∈ Room.get_inner_area r →
               GameMap.tile_at (GameMap.tiles m) px py = Returns FLOOR
}.

(** The floor once the stairs are placed (or left out, for want of a second
    room). *)
Record stocked (w h fn : Z) (m : GameMap.t) : Prop := Stocked {
  stocked_width : GameMap.width m = w;
  stocked_height : GameMap.height m = h;
  stocked_floor_number : GameMap.floor_number m = fn;
  stocked_grid : grid w h (GameMap.tiles m);
  stocked_rooms :
    Forall (λ r, room_fits w h r ∧ Room.width r ≤ 15 ∧ Room.height r ≤ 15) (GameMap.rooms m);
  stocked_count : (length (GameMap.rooms m) ≤ 12)%nat;
  stocked_disjoint : disjoint_rooms (GameMap.rooms m);
  stocked_kinds : Forall (Forall (λ t, t ≠ STAIRS_UP)) (GameMap.tiles m);
  stocked_border :
    ∀ x y, 0 ≤ x < w → 0 ≤ y < h → on_border w h x y →
           GameMap.tile_at (GameMap.tiles m) x y = Returns WALL;
  stocked_interiors :
    ∀ r px py, r ∈ GameMap.rooms m → (px, py) ∈ Room.get_inner_area r →
      GameMap.tile_at (GameMap.tiles m) px py = Returns FLOOR ∨
      (GameMap.tile_at (GameMap.tiles m) px py = Returns STAIRS_DOWN ∧
       GameMap.stairs_position m = Some (px, py));
  stocked_first_room :
    ∀ r0 px py, GameMap.rooms m !! 0%nat = Some r0 → (px, py) ∈ Room.get_inner_area r0 →
      GameMap.tile_at (GameMap.tiles m) px py = Returns FLOOR ∧
      GameMap.stairs_position m ≠ Some (px, py);
  stocked_no_stairs :
    (length (GameMap.rooms m) < 2)%nat →
    GameMap.stairs_position m = None ∧ Forall (Forall wall_or_floor) (GameMap.tiles m)
}.

(** The spawn point is set exactly when there is a room, inside the first. *)
Definition spawned (m : GameMap.t) : Prop :=
  match GameMap.rooms m with
  | [] => GameMap.spawn_point m = None
  | r0 :: _ =>
      ∃ px py, GameMap.spawn_point m = Some (px, py) ∧ (px, py) ∈ Room.get_inner_area r0
  end.

(** Draws that make a single room: every attempt is the same 5 by 5 room. *)
Definition one_room_draws : RNG := λ _, 0.

(** The text of a row of tiles. *)
Definition row_text (row : list TileType) : string :=
  foldr (λ t s, TileProperties.get_symbol t +:+ s) "" row.

(** ** Corridors *)

(** [P] holds along the row [y] between the columns [xa] and [xb]. *)
Definition along_row (P : Z → Z → Prop) (xa xb y : Z) : Prop :=
  ∀ x, Z.min xa xb ≤ x ≤ Z.max xa xb → P x y.

(** [P] holds along the column [x] between the rows [ya] and [yb]. *)
Definition along_column (P : Z → Z → Prop) (ya yb x : Z) : Prop :=
  ∀ y, Z.min ya yb ≤ y ≤ Z.max ya yb → P x y.

(** [P] holds along one of the two L-shaped lines from [c1] to [c2]: the row
    of [c1] then the column of [c2], or the column of [c1] then the row of
    [c2]. *)
Definition joined (P : Z → Z → Prop) (c1 c2 : Z * Z) : Prop :=
  (along_row P c1.1 c2.1 c1.2 ∧ along_column P c1.2 c2.2 c2.1) ∨
  (along_column P c1.2 c2.2 c1.1 ∧ along_row P c1.1 c2.1 c2.2).

Definition floor_at (ts : list (list TileType)) (x y : Z) : Prop :=
  GameMap.tile_at ts x y = Returns FLOOR.

(** * Properties *)

(** ** Reasoning about calls that may raise *)

Lemma outcome_bind_Returns {A B} (o : outcome A) (f : A → outcome B) (b : B) :
  o ≫= f = Returns b ↔ ∃ a, o = Returns a ∧ f a = Returns b.
Proof.
  destruct o as [a| |]; simpl; split; try (intros [? [? ?]]); try discriminate; eauto.
  intros. simplify_eq. done.
Qed.

Lemma returns_ret {A} (a : A) (Q : A → Prop) : Q a → returns (mret a) Q.
Proof. intros; exists a; done. Qed.

Lemma returns_bind {A B} (o : outcome A) (f : A → outcome B) (P : A → Prop) (Q : B → Prop) :
  returns o P → (∀ a, P a → returns (f a) Q) → returns (o ≫= f) Q.
Proof. intros (a & -> & Ha) Hf. exact (Hf a Ha). Qed.

Lemma returns_mono {A} (o : outcome A) (P Q : A → Prop) :
  returns o P → (∀ a, P a → Q a) → returns o Q.
Proof. intros (a & -> & Ha) HPQ. exists a; eauto. Qed.

Lemma returns_for_in {S X} (xs : list X) (body : S → X → outcome S) (I : S → Prop) (s : S) :
  (∀ s x, x ∈ xs → I s → returns (body s x) I) →
  I s → returns (for_in xs body s) I.
Proof.
  revert s. induction xs as [|x xs IH]; intros s Hbody Hs; simpl.
  - by apply returns_ret.
  - eapply returns_bind.
    + apply Hbody; [left | done].
    + intros s' Hs'. apply IH; [|done].
      intros s0 x0 Hx0. apply Hbody. by right.
Qed.

Lemma rreturns_ret {A} (a : A) (Q : A → Prop) : Q a → rreturns (mret a) Q.
Proof. intros Ha g. exists a, g. done. Qed.

Lemma rreturns_bind {A B} (c : Rand A) (f : A → Rand B) (P : A → Prop) (Q : B → Prop) :
  rreturns c P → (∀ a, P a → rreturns (f a) Q) → rreturns (c ≫= f) Q.
Proof.
  intros Hc Hf g. destruct (Hc g) as (a & g1 & Hg & Ha).
  destruct (Hf a Ha g1) as (b & g2 & Hg2 & Hb).
  exists b, g2. split; [|done].
  unfold mbind, rand_bind. by rewrite Hg.
Qed.

Lemma rreturns_mono {A} (c : Rand A) (P Q : A → Prop) :
  rreturns c P → (∀ a, P a → Q a) → rreturns c Q.
Proof.
  intros Hc HPQ g. destruct (Hc g) as (a & g' & ? & ?). exists a, g'. eauto.
Qed.

Lemma rreturns_lift {A} (o : outcome A) (Q : A → Prop) :
  returns o Q → rreturns (lift o) Q.
Proof. intros (a & -> & Ha) g. exists a, g. done. Qed.

Lemma rreturns_for_in {S X} (xs : list X) (body : S → X → Rand S) (I : S → Prop) (s : S) :
  (∀ s x, x ∈ xs → I s → rreturns (body s x) I) →
  I s → rreturns (for_in xs body s) I.
Proof.
  revert s. induction xs as [|x xs IH]; intros s Hbody Hs; simpl.
  - by apply rreturns_ret.
  - eapply rreturns_bind.
    + apply Hbody; [left | done].
    + intros s' Hs'. apply IH; [|done].
      intros s0 x0 Hx0. apply Hbody. by right.
Qed.

Lemma rreturns_draw : rreturns draw (λ _, True).
Proof. intros g. eexists _, _. done. Qed.

Lemma rreturns_randint (a b : Z) :
  a ≤ b → rreturns (randint a b) (λ v, a ≤ v ≤ b).
Proof.
  intros Hab. unfold randint.
  destruct (Z.ltb_spec b a) as [?|_]; [lia|].
  eapply rreturns_bind; [apply rreturns_draw|].
  intros d _. apply rreturns_ret.
  pose proof (Z.mod_pos_bound d (b - a + 1)). lia.
Qed.

Lemma rreturns_coin : rreturns coin (λ _, True).
Proof.
  unfold coin. eapply rreturns_bind; [apply rreturns_draw|].
  intros d _. by apply rreturns_ret.
Qed.

(** What a call returned is what its specification promised. *)
Lemma rreturns_elim {A} (c : Rand A) (Q : A → Prop) g a g' :
  rreturns c Q → c g = Returns (a, g') → Q a.
Proof. intros Hc Hg. destruct (Hc g) as (a' & g1 & Hg1 & Ha'). congruence. Qed.

Lemma returns_elim {A} (o : outcome A) (Q : A → Prop) a :
  returns o Q → o = Returns a → Q a.
Proof. intros (a' & -> & Ha') ?. congruence. Qed.

(** ** Python subscripts *)

Lemma py_index_nonneg (len : nat) (i : Z) :
  0 ≤ i < Z.of_nat len → py_index len i = Some (Z.to_nat i).
Proof.
  intros. unfold py_index.
  destruct (Z.leb_spec 0 i); [|lia].
  destruct (Z.ltb_spec i (Z.of_nat len)); [|lia]. done.
Qed.

Lemma getitem_nonneg {A} (l : list A) (i : Z) :
  0 ≤ i < Z.of_nat (length l) →
  ∃ a, l !! Z.to_nat i = Some a ∧ getitem l i = Returns a.
Proof.
  intros Hi. unfold getitem. rewrite py_index_nonneg by done.
  destruct (lookup_lt_is_Some_2 l (Z.to_nat i)) as [a Ha]; [lia|].
  exists a. by rewrite Ha.
Qed.

Lemma setitem_nonneg {A} (l : list A) (i : Z) (v : A) :
  0 ≤ i < Z.of_nat (length l) → setitem l i v = Returns (<[Z.to_nat i := v]> l).
Proof. intros Hi. unfold setitem. by rewrite py_index_nonneg. Qed.

Lemma elem_of_range (a b i : Z) : i ∈ range a b ↔ a ≤ i < b.
Proof.
  unfold range. rewrite list_elem_of_fmap. split.
  - intros (k & -> & Hk). apply elem_of_seq in Hk. lia.
  - intros Hi. exists (Z.to_nat (i - a)). split; [lia|].
    apply elem_of_seq. lia.
Qed.

Lemma length_range (a b : Z) : length (range a b) = Z.to_nat (b - a).
Proof. unfold range. by rewrite length_fmap, length_seq. Qed.
(** ** Reading tiles of a well-formed grid *)

Lemma tile_at_valid (m : GameMap.t) (x y : Z) :
  GameMap.wf m → GameMap.is_valid_position m x y = true →
  ∃ row t, GameMap.tiles m !! Z.to_nat y = Some row ∧ row !! Z.to_nat x = Some t ∧
           GameMap.tile_at (GameMap.tiles m) x y = Returns t.
Proof.
  intros [Hh Hw] Hv. unfold GameMap.is_valid_position in Hv.
  rewrite !andb_true_iff, !Z.leb_le, !Z.ltb_lt in Hv.
  destruct (getitem_nonneg (GameMap.tiles m) y) as (row & Hrow & Hgy); [lia|].
  assert (length row = Z.to_nat (GameMap.width m)) as Hlen.
  { rewrite Forall_lookup in Hw. by apply (Hw _ _ Hrow). }
  destruct (getitem_nonneg row x) as (t & Ht & Hgx); [lia|].
  exists row, t. unfold GameMap.tile_at. rewrite Hgy. simpl. done.
Qed.

Lemma sees_throughb_spec (m : GameMap.t) (p : Z * Z) :
  sees_throughb m p = true ↔ sees_through m p.
Proof.
  unfold sees_throughb, sees_through, GameMap.get_tile.
  destruct (GameMap.is_valid_position m p.1 p.2); simpl.
  - destruct (GameMap.tile_at _ _ _) as [t| |]; simpl; split;
      try (intros [_ (t' & [=] & ?)]); try discriminate; subst; eauto.
  - split; [discriminate | intros [[=] _]].
Qed.

(** ** The line-of-sight walk *)

Section line_of_sight.

Variable l : Bresenham.line.

Local Abbreviation DX := (Bresenham.dx l).
Local Abbreviation DY := (Bresenham.dy l).
Local Abbreviation SX := (Bresenham.sx l).
Local Abbreviation SY := (Bresenham.sy l).
Local Abbreviation X2 := (Bresenham.x2 l).
Local Abbreviation Y2 := (Bresenham.y2 l).
Local Abbreviation on_line := (on_line l).
Local Abbreviation los_vars := (los_vars l).

(** Case analysis on a step sign, put in place of the sign everywhere. *)
Local Ltac sign_case H := destruct H as [H|H]; rewrite ?H in *.
Local Ltac sign_cases H1 H2 := sign_case H1; sign_case H2.

Lemma los_signs :
  0 ≤ DX ∧ 0 ≤ DY ∧ (SX = 1 ∨ SX = -1) ∧ (SY = 1 ∨ SY = -1) ∧
  X2 - Bresenham.x1 l = SX * DX ∧ Y2 - Bresenham.y1 l = SY * DY.
Proof.
  unfold Bresenham.dx, Bresenham.dy, Bresenham.sx, Bresenham.sy.
  destruct (Z.ltb_spec (Bresenham.x1 l) (Bresenham.x2 l));
    destruct (Z.ltb_spec (Bresenham.y1 l) (Bresenham.y2 l)); lia.
Qed.

Lemma on_line_start : on_line 0 (los_vars 0).
Proof.
  destruct los_signs as (? & ? & ? & ? & ? & ?).
  exists DX, DY. simpl. repeat split; try lia.
Qed.

Lemma on_line_advance (k : nat) (v : Z * Z * Z) :
  on_line k v → (k < Bresenham.span l)%nat →
  (v.1.1 ≠ X2 ∨ v.1.2 ≠ Y2) ∧
  (2 * v.2 > - DY ∨ 2 * v.2 < DX) ∧
  on_line (S k) (GameMap.los_advance DX DY SX SY v).
Proof.
  destruct los_signs as (Hdx & Hdy & Hsx & Hsy & _ & _).
  destruct v as [[x y] err].
  intros (rx & ry & Hx & Hy & Hrx & Hry & Herr & Hxm & Hym) Hk.
  unfold Bresenham.span in Hk. fold DX DY in Hk. simpl in *.
  destruct (Z.le_gt_cases DY DX) as [Hmaj|Hmaj].
  - (* the x axis is the major one *)
    destruct Hxm as [Hrxk Hb]; [done|]. clear Hym.
    assert (1 ≤ rx) by lia. assert (0 < DX) by lia.
    specialize (Hb ltac:(done)).
    assert (Hx0 : x ≠ X2) by (sign_case Hsx; lia).
    split; [by left|]. split; [lia|].
    unfold GameMap.los_advance.
    rewrite Z.gtb_ltb.
    destruct (Z.ltb_spec (- DY) (2 * err)) as [_|?]; [|lia].
    destruct (Z.ltb_spec (2 * err) DX) as [Hys|Hys].
    + assert (1 ≤ ry) by nia.
      exists (rx - 1), (ry - 1). simpl.
      repeat split; try (sign_cases Hsx Hsy; lia); try lia.
    + assert (DY < DX) by nia.
      exists (rx - 1), ry. simpl.
      repeat split; try (sign_cases Hsx Hsy; lia); try lia.
  - destruct Hym as [Hryk Hb]; [done|]. clear Hxm.
    assert (1 ≤ ry) by lia.
    assert (Hy0 : y ≠ Y2) by (sign_case Hsy; lia).
    split; [by right|]. split; [lia|].
    unfold GameMap.los_advance.
    rewrite Z.gtb_ltb.
    destruct (Z.ltb_spec (2 * err) DX) as [_|?]; [|lia].
    destruct (Z.ltb_spec (- DY) (2 * err)) as [Hxs|Hxs].
    + assert (1 ≤ rx) by nia.
      exists (rx - 1), (ry - 1). simpl.
      repeat split; try (sign_cases Hsx Hsy; lia); try lia.
    + exists rx, (ry - 1). simpl.
      repeat split; try (sign_cases Hsx Hsy; lia); try lia.
Qed.

Lemma on_line_end (v : Z * Z * Z) :
  on_line (Bresenham.span l) v → v.1.1 = X2 ∧ v.1.2 = Y2.
Proof.
  destruct los_signs as (Hdx & Hdy & Hsx & Hsy & _ & _).
  destruct v as [[x y] err].
  intros (rx & ry & Hx & Hy & Hrx & Hry & Herr & Hxm & Hym).
  unfold Bresenham.span in *. fold DX DY in Hxm, Hym. simpl in *.
  destruct (Z.le_gt_cases DY DX) as [Hmaj|Hmaj].
  - destruct Hxm as [Hrxk Hb]; [done|].
    assert (rx = 0) by lia. subst rx.
    assert (ry = 0) by (destruct (Z.eq_dec DX 0); [lia | nia]).
    subst ry. lia.
  - destruct Hym as [Hryk Hb]; [done|].
    assert (ry = 0) by lia. subst ry.
    assert (rx = 0) by nia.
    subst rx. lia.
Qed.

Lemma on_line_chebyshev (k : nat) (v : Z * Z * Z) :
  on_line k v → (k ≤ Bresenham.span l)%nat →
  Z.max (Z.abs (X2 - v.1.1)) (Z.abs (Y2 - v.1.2)) = Z.of_nat (Bresenham.span l - k).
Proof.
  destruct los_signs as (Hdx & Hdy & Hsx & Hsy & _ & _).
  destruct v as [[x y] err].
  intros (rx & ry & Hx & Hy & Hrx & Hry & Herr & Hxm & Hym) Hk.
  unfold Bresenham.span in *. fold DX DY in Hk |- *. simpl in *.
  assert (Z.abs (X2 - x) = rx) as -> by (sign_case Hsx; lia).
  assert (Z.abs (Y2 - y) = ry) as -> by (sign_case Hsy; lia).
  destruct (Z.le_gt_cases DY DX) as [Hmaj|Hmaj].
  - destruct Hxm as [Hrxk Hb]; [done|].
    assert (ry ≤ rx) by (destruct (Z.eq_dec DX 0); [lia | nia]).
    lia.
  - destruct Hym as [Hryk Hb]; [done|].
    assert (rx ≤ ry) by nia.
    lia.
Qed.

Lemma on_line_vars (k : nat) : (k ≤ Bresenham.span l)%nat → on_line k (los_vars k).
Proof.
  induction k as [|k IH]; intros Hk.
  - apply on_line_start.
  - unfold los_vars. rewrite Nat.iter_succ. fold (los_vars k).
    apply on_line_advance; [apply IH|]; lia.
Qed.

(** The loop body of the code and the rule of the specification agree. *)
Lemma advance_agrees (v : Z * Z * Z) :
  to_cursor (GameMap.los_advance DX DY SX SY v) = Bresenham.advance l (to_cursor v).
Proof.
  destruct v as [[x y] err].
  unfold GameMap.los_advance, Bresenham.advance, Bresenham.steps_x, Bresenham.steps_y, to_cursor.
  simpl. fold DX DY SX SY.
  destruct (2 * err >? - DY), (2 * err <? DX); done.
Qed.


Lemma on_line_le (k : nat) (v : Z * Z * Z) : on_line k v → (k ≤ Bresenham.span l)%nat.
Proof.
  intros (rx & ry & _ & _ & Hrx & Hry & _ & Hxm & Hym).
  unfold Bresenham.span. fold DX DY. lia.
Qed.

Lemma walk_from_end (n : nat) (c : Bresenham.cursor) :
  Bresenham.at_end l c = true → Bresenham.walk_from n l c = [].
Proof. intros H. destruct n; simpl; by rewrite H. Qed.

Lemma walk_from_step (n : nat) (c : Bresenham.cursor) :
  Bresenham.at_end l c = false →
  Bresenham.walk_from (S n) l c =
    (Bresenham.cx c, Bresenham.cy c) :: Bresenham.walk_from n l (Bresenham.advance l c).
Proof. intros H. simpl. by rewrite H. Qed.

Lemma los_loop_end (m : GameMap.t) (fuel : nat) (err : Z) :
  GameMap.los_loop fuel m X2 Y2 DX DY SX SY (X2, Y2, err) = Returns true.
Proof. destruct fuel; simpl; by rewrite !Z.eqb_refl. Qed.

Lemma los_loop_walk (m : GameMap.t) (fuel k : nat) (v : Z * Z * Z) :
  GameMap.wf m → on_line k v → (Bresenham.span l - k ≤ fuel)%nat →
  GameMap.los_loop fuel m X2 Y2 DX DY SX SY v =
    Returns (forallb (sees_throughb m)
               (Bresenham.walk_from (Bresenham.span l - k) l (to_cursor v))).
Proof.
  intros Hwf. revert k v.
  induction fuel as [|fuel IH]; intros k v Hv Hfuel;
    pose proof (on_line_le k v Hv) as Hle;
    destruct (decide (k < Bresenham.span l)%nat) as [Hk|Hk]; try lia.
  - assert (k = Bresenham.span l) as -> by lia.
    destruct (on_line_end v Hv) as [Hx Hy].
    destruct v as [[x y] err]. simpl in Hx, Hy. subst x y.
    rewrite los_loop_end, walk_from_end; [done|].
    unfold Bresenham.at_end. simpl. fold X2 Y2. by rewrite !Z.eqb_refl.
  - destruct (on_line_advance k _ Hv Hk) as (Hne & _ & Hnext).
    destruct v as [[x y] err]. simpl in Hne.
    assert ((x =? X2) && (y =? Y2) = false) as Hend.
    { apply andb_false_iff. destruct Hne; [left|right]; lia. }
    replace (Bresenham.span l - k)%nat with (S (Bresenham.span l - S k)) by lia.
    rewrite walk_from_step by done.
    cbn [GameMap.los_loop].
    assert (negb (x =? X2) || negb (y =? Y2) = true) as ->.
    { rewrite <- negb_andb, Hend. done. }
    cbn [forallb to_cursor Bresenham.cx Bresenham.cy fst snd].
    unfold sees_throughb at 1. cbn [fst snd].
    destruct (GameMap.is_valid_position m x y) eqn:Hvalid; cbn [negb andb]; [|done].
    destruct (tile_at_valid m x y Hwf Hvalid) as (row & t & _ & _ & ->).
    cbn [mbind outcome_bind].
    destruct (TileProperties.is_transparent t); cbn [negb]; [|done].
    rewrite (IH (S k)); [|done|lia].
    by rewrite advance_agrees.
  - assert (k = Bresenham.span l) as -> by lia.
    destruct (on_line_end v Hv) as [Hx Hy].
    destruct v as [[x y] err]. simpl in Hx, Hy. subst x y.
    rewrite los_loop_end, walk_from_end; [done|].
    unfold Bresenham.at_end. simpl. fold X2 Y2. by rewrite !Z.eqb_refl.
Qed.

End line_of_sight.

(** A subscript never loops. *)
Lemma getitem_fuel {A} (l : list A) (i : Z) : getitem l i ≠ OutOfFuel.
Proof. unfold getitem. repeat case_match; done. Qed.

Lemma tile_at_fuel (ts : list (list TileType)) (x y : Z) :
  GameMap.tile_at ts x y ≠ OutOfFuel.
Proof.
  unfold GameMap.tile_at.
  destruct (getitem ts y) as [row| |] eqn:Hrow; simpl; [|done|].
  - apply getitem_fuel.
  - by apply getitem_fuel in Hrow.
Qed.

(** The loop cannot run out of fuel once it has as much as the line is long,
    whatever the grid holds. *)
Lemma los_loop_fuel (l : Bresenham.line) (m : GameMap.t) (fuel k : nat) (v : Z * Z * Z) :
  on_line l k v → (Bresenham.span l - k ≤ fuel)%nat →
  GameMap.los_loop fuel m (Bresenham.x2 l) (Bresenham.y2 l)
    (Bresenham.dx l) (Bresenham.dy l) (Bresenham.sx l) (Bresenham.sy l) v ≠ OutOfFuel.
Proof.
  revert k v.
  induction fuel as [|fuel IH]; intros k v Hv Hfuel;
    pose proof (on_line_le l k v Hv) as Hle;
    destruct (decide (k < Bresenham.span l)%nat) as [Hk|Hk]; try lia.
  - assert (k = Bresenham.span l) as -> by lia.
    destruct (on_line_end l v Hv) as [Hx Hy].
    destruct v as [[x y] err]. simpl in Hx, Hy. subst x y.
    by rewrite los_loop_end.
  - destruct (on_line_advance l k _ Hv Hk) as (_ & _ & Hnext).
    destruct v as [[x y] err].
    cbn [GameMap.los_loop].
    destruct (negb _ || negb _); [|done].
    destruct (negb (GameMap.is_valid_position m x y)); [done|].
    destruct (GameMap.tile_at _ _ _) as [t| |] eqn:Ht; cbn [mbind outcome_bind]; [|done|].
    + destruct (negb (TileProperties.is_transparent t)); [done|].
      apply (IH (S k)); [done|lia].
    + by apply tile_at_fuel in Ht.
  - assert (k = Bresenham.span l) as -> by lia.
    destruct (on_line_end l v Hv) as [Hx Hy].
    destruct v as [[x y] err]. simpl in Hx, Hy. subst x y.
    by rewrite los_loop_end.
Qed.

(** C5. [has_line_of_sight] terminates for all integer inputs and every
    [max_range]: during the first [max(dx, dy)] turns of the loop the walk is
    not at the endpoint, at least one of the two error-accumulator branches
    fires, and the remaining Chebyshev distance to [(x2, y2)] strictly
    decreases; after [max(dx, dy)] turns the walk is at the endpoint, so that
    much fuel is enough on every grid. *)
Theorem has_line_of_sight_terminates (x1 y1 x2 y2 : Z) :
  let l := Bresenham.Line x1 y1 x2 y2 in
  let n := Bresenham.span l in
  (∀ k : nat, (k < n)%nat →
     let v := los_vars l k in
     let v' := los_vars l (S k) in
     (v.1.1 ≠ x2 ∨ v.1.2 ≠ y2) ∧
     (2 * v.2 > - Z.abs (y2 - y1) ∨ 2 * v.2 < Z.abs (x2 - x1)) ∧
     Z.max (Z.abs (x2 - v'.1.1)) (Z.abs (y2 - v'.1.2)) <
       Z.max (Z.abs (x2 - v.1.1)) (Z.abs (y2 - v.1.2))) ∧
  (los_vars l n).1 = (x2, y2) ∧
  (∀ (m : GameMap.t) (max_range : Z) (fuel : nat),
     (n ≤ fuel)%nat →
     GameMap.has_line_of_sight fuel m x1 y1 x2 y2 max_range ≠ OutOfFuel).
Proof.
  intros l n. subst n. split; [|split].
  - intros k Hk v v'.
    assert (on_line l k v) as Hv by (apply on_line_vars; lia).
    assert (on_line l (S k) v') as Hv' by (apply on_line_vars; lia).
    destruct (on_line_advance l k _ Hv Hk) as (Hne & Hfire & _).
    split; [exact Hne|]. split; [exact Hfire|].
    pose proof (on_line_chebyshev l k _ Hv) as Hc.
    pose proof (on_line_chebyshev l (S k) _ Hv') as Hc'.
    simpl in Hc, Hc'. rewrite Hc, Hc' by lia. lia.
  - destruct (on_line_end l _ (on_line_vars l _ (Nat.le_refl _))) as [Hx Hy].
    destruct (los_vars l _) as [[x y] err]. simpl in *. congruence.
  - intros m max_range fuel Hfuel. unfold GameMap.has_line_of_sight.
    destruct (_ >? max_range); [done|].
    apply (los_loop_fuel l m fuel 0 (los_vars l 0)); [apply on_line_start|lia].
Qed.

Lemma has_line_of_sight_terminates_witness :
  (0 < Bresenham.span (Bresenham.Line 0 0 3 1))%nat ∧
  let v := los_vars (Bresenham.Line 0 0 3 1) 0 in
  let v' := los_vars (Bresenham.Line 0 0 3 1) 1 in
  (v.1.1 ≠ 3 ∨ v.1.2 ≠ 1) ∧
  (2 * v.2 > - Z.abs (1 - 0) ∨ 2 * v.2 < Z.abs (3 - 0)) ∧
  Z.max (Z.abs (3 - v'.1.1)) (Z.abs (1 - v'.1.2)) <
    Z.max (Z.abs (3 - v.1.1)) (Z.abs (1 - v.1.2)).
Proof.
  assert (0 < Bresenham.span (Bresenham.Line 0 0 3 1))%nat as H by (vm_compute; lia).
  split; [exact H|].
  exact (proj1 (has_line_of_sight_terminates 0 0 3 1) 0%nat H).
Defined.


(** C2. On a well-formed grid and with fuel for the length of the line,
    [has_line_of_sight] returns; it returns false whenever the Manhattan
    distance exceeds [max_range]; otherwise it returns true if and only if
    every point the Bresenham walk of the specification visits before the
    endpoint (the start included, the endpoint excluded) is within bounds and
    has a transparent tile. *)
Theorem has_line_of_sight_walk (m : GameMap.t) (x1 y1 x2 y2 max_range : Z) (fuel : nat) :
  GameMap.wf m →
  (Bresenham.span (Bresenham.Line x1 y1 x2 y2) ≤ fuel)%nat →
  ∃ b : bool,
    GameMap.has_line_of_sight fuel m x1 y1 x2 y2 max_range = Returns b ∧
    (Z.abs (x1 - x2) + Z.abs (y1 - y2) > max_range → b = false) ∧
    (Z.abs (x1 - x2) + Z.abs (y1 - y2) ≤ max_range →
       (b = true ↔
        ∀ p, p ∈ Bresenham.visited (Bresenham.Line x1 y1 x2 y2) → sees_through m p)).
Proof.
  intros Hwf Hfuel. set (l := Bresenham.Line x1 y1 x2 y2) in *.
  unfold GameMap.has_line_of_sight.
  rewrite Z.gtb_ltb.
  destruct (Z.ltb_spec max_range (Z.abs (x1 - x2) + Z.abs (y1 - y2))) as [Hfar|Hnear].
  - exists false. split; [done|]. split; [done|lia].
  - pose proof (los_loop_walk l m fuel 0 (los_vars l 0) Hwf (on_line_start l)
                  ltac:(lia)) as Hloop.
    rewrite Nat.sub_0_r in Hloop.
    eexists. split; [exact Hloop|]. split; [lia|]. intros _.
    change (Bresenham.walk_from _ _ _) with (Bresenham.visited l).
    rewrite forallb_forall. split.
    + intros H p Hp. apply sees_throughb_spec, H. by apply list_elem_of_In.
    + intros H p Hp. apply sees_throughb_spec, H. by apply list_elem_of_In.
Qed.

Lemma corridor_map_wf : GameMap.wf corridor_map.
Proof. split; [reflexivity | repeat constructor]. Qed.

Lemma has_line_of_sight_walk_witness :
  GameMap.wf corridor_map ∧
  (Bresenham.span (Bresenham.Line 1 1 3 1) ≤ 2)%nat ∧
  ∃ b : bool,
    GameMap.has_line_of_sight 2 corridor_map 1 1 3 1 8 = Returns b ∧
    (Z.abs (1 - 3) + Z.abs (1 - 1) > 8 → b = false) ∧
    (Z.abs (1 - 3) + Z.abs (1 - 1) ≤ 8 →
       (b = true ↔
        ∀ p, p ∈ Bresenham.visited (Bresenham.Line 1 1 3 1) → sees_through corridor_map p)).
Proof.
  assert (Bresenham.span (Bresenham.Line 1 1 3 1) ≤ 2)%nat as Hspan by (vm_compute; lia).
  split; [exact corridor_map_wf|]. split; [exact Hspan|].
  exact (has_line_of_sight_walk corridor_map 1 1 3 1 8 2 corridor_map_wf Hspan).
Defined.

(** C6, as the code has it.  A tile has line of sight to itself (for every
    [max_range >= 0], the default 8 included), and to an immediately adjacent
    tile, orthogonal or diagonal, within [max_range] exactly when the tile it
    starts from is within bounds and transparent: the loop tests the start
    tile and never the adjacent one. *)
Theorem line_of_sight_self_adjacent (m : GameMap.t) (x y : Z) :
  (∀ (fuel : nat) (max_range : Z),
     0 ≤ max_range →
     GameMap.has_line_of_sight fuel m x y x y max_range = Returns true) ∧
  (∀ (fuel : nat) (x' y' max_range : Z),
     GameMap.wf m → (1 ≤ fuel)%nat →
     Z.max (Z.abs (x' - x)) (Z.abs (y' - y)) = 1 →
     Z.abs (x - x') + Z.abs (y - y') ≤ max_range →
     ∃ b : bool,
       GameMap.has_line_of_sight fuel m x y x' y' max_range = Returns b ∧
       (b = true ↔ sees_through m (x, y))).
Proof.
  split.
  - intros fuel max_range Hr. unfold GameMap.has_line_of_sight.
    rewrite Z.gtb_ltb.
    destruct (Z.ltb_spec max_range (Z.abs (x - x) + Z.abs (y - y))) as [?|_]; [lia|].
    apply (los_loop_end (Bresenham.Line x y x y)).
  - intros fuel x' y' max_range Hwf Hfuel Hadj Hr.
    set (l := Bresenham.Line x y x' y').
    assert (Bresenham.span l = 1%nat) as Hspan.
    { unfold Bresenham.span, Bresenham.dx, Bresenham.dy. simpl. lia. }
    unfold GameMap.has_line_of_sight. rewrite Z.gtb_ltb.
    destruct (Z.ltb_spec max_range (Z.abs (x - x') + Z.abs (y - y'))) as [?|_]; [lia|].
    pose proof (los_loop_walk l m fuel 0 (los_vars l 0) Hwf (on_line_start l)
                  ltac:(lia)) as Hloop.
    rewrite Hspan in Hloop.
    eexists. split; [exact Hloop|].
    assert (Bresenham.at_end l (to_cursor (los_vars l 0)) = false) as Hne.
    { unfold Bresenham.at_end. simpl. apply andb_false_iff. lia. }
    change (1 - 0)%nat with 1%nat. rewrite walk_from_step by done.
    assert (Bresenham.walk_from 0 l (Bresenham.advance l (to_cursor (los_vars l 0))) = [])
      as -> by (unfold Bresenham.walk_from; by destruct (Bresenham.at_end l (Bresenham.advance _ _))).
    cbn [forallb]. rewrite andb_true_r. apply sees_throughb_spec.
Qed.

Lemma line_of_sight_self_adjacent_witness :
  GameMap.wf corridor_map ∧ (1 ≤ 1)%nat ∧
  Z.max (Z.abs (2 - 1)) (Z.abs (1 - 1)) = 1 ∧
  Z.abs (1 - 2) + Z.abs (1 - 1) ≤ 8 ∧
  ∃ b : bool,
    GameMap.has_line_of_sight 1 corridor_map 1 1 2 1 8 = Returns b ∧
    (b = true ↔ sees_through corridor_map (1, 1)).
Proof.
  assert (1 ≤ 1)%nat as H1 by lia.
  assert (Z.max (Z.abs (2 - 1)) (Z.abs (1 - 1)) = 1) as H2 by reflexivity.
  assert (Z.abs (1 - 2) + Z.abs (1 - 1) ≤ 8) as H3 by (vm_compute; discriminate).
  split; [exact corridor_map_wf|]. split; [exact H1|]. split; [exact H2|].
  split; [exact H3|].
  exact (proj2 (line_of_sight_self_adjacent corridor_map 1 1) 1%nat 2 1 8
           corridor_map_wf H1 H2 H3).
Defined.

(** C6 as stated fails: from the wall tile (0, 1) of the corridor grid, the
    adjacent tile (1, 1) is floor, hence transparent, and within range, but
    there is no line of sight, since the wall tile itself is tested. *)
Lemma line_of_sight_from_wall_counterexample :
  GameMap.wf corridor_map ∧
  GameMap.get_tile corridor_map 1 1 = Returns (Some FLOOR) ∧
  TileProperties.is_transparent FLOOR = true ∧
  Z.abs (0 - 1) + Z.abs (1 - 1) = 1 ∧
  1 ≤ GameMap.default_max_range ∧
  GameMap.has_line_of_sight 1 corridor_map 0 1 1 1 GameMap.default_max_range
    = Returns false ∧
  (∀ fuel : nat,
     GameMap.has_line_of_sight fuel corridor_map 0 1 1 1 GameMap.default_max_range
       ≠ Returns true).
Proof.
  split; [exact corridor_map_wf|].
  repeat split; try reflexivity; try (vm_compute; discriminate).
  intros [|fuel]; vm_compute; discriminate.
Qed.

(** ** The dungeon's floor counter *)

(** C8. [go_down_stairs] returns true exactly when [current_floor < max_floors]
    and then adds one to [current_floor]; [go_up_stairs] returns true exactly
    when [current_floor > 1] and then subtracts one; neither touches the
    cached floors (nor any other field), and a call that returns false
    leaves the dungeon as it was. *)
Theorem stairs_bounded (d : Dungeon.t) :
  let down := Dungeon.go_down_stairs d in
  let up := Dungeon.go_up_stairs d in
  (down.1 = true ↔ Dungeon.current_floor d < Dungeon.max_floors d) ∧
  (down.1 = true →
     Dungeon.current_floor down.2 = Dungeon.current_floor d + 1 ∧
     Dungeon.floors down.2 = Dungeon.floors d ∧
     Dungeon.max_floors down.2 = Dungeon.max_floors d ∧
     Dungeon.map_width down.2 = Dungeon.map_width d ∧
     Dungeon.map_height down.2 = Dungeon.map_height d) ∧
  (down.1 = false → down.2 = d) ∧
  (up.1 = true ↔ Dungeon.current_floor d > 1) ∧
  (up.1 = true →
     Dungeon.current_floor up.2 = Dungeon.current_floor d - 1 ∧
     Dungeon.floors up.2 = Dungeon.floors d ∧
     Dungeon.max_floors up.2 = Dungeon.max_floors d ∧
     Dungeon.map_width up.2 = Dungeon.map_width d ∧
     Dungeon.map_height up.2 = Dungeon.map_height d) ∧
  (up.1 = false → up.2 = d).
Proof.
  unfold Dungeon.go_down_stairs, Dungeon.go_up_stairs. cbv zeta.
  rewrite Z.geb_leb.
  destruct (Z.leb_spec (Dungeon.max_floors d) (Dungeon.current_floor d));
    destruct (Z.leb_spec (Dungeon.current_floor d) 1); simpl;
    repeat split; intros; try done; try lia.
Qed.

Lemma stairs_bounded_witness :
  let d := Dungeon.init 80 24 in
  (Dungeon.go_down_stairs d).1 = true ∧
  Dungeon.current_floor (Dungeon.go_down_stairs d).2 = 2 ∧
  (Dungeon.go_up_stairs d).1 = false ∧
  (Dungeon.go_up_stairs d).2 = d.
Proof.
  intros d.
  pose proof (stairs_bounded d) as (Hd & Hd1 & _ & _ & _ & Hu0).
  assert ((Dungeon.go_down_stairs d).1 = true) as H1 by reflexivity.
  assert ((Dungeon.go_up_stairs d).1 = false) as H2 by reflexivity.
  split; [exact H1|]. split; [exact (proj1 (Hd1 H1))|].
  split; [exact H2|]. exact (Hu0 H2).
Defined.

(** ** Dictionaries in insertion order *)

Section dict_facts.
Context {K V : Type} `{!EqDecision K}.
Implicit Types (d : Dict.t K V) (k : K) (v : V).

Lemma get_set_eq d k v : Dict.get (Dict.set d k v) k = Some v.
Proof.
  induction d as [|[k' v'] d IH]; simpl.
  - by rewrite decide_True.
  - destruct (decide (k' = k)) as [->|Hne]; simpl.
    + by rewrite decide_True.
    + by rewrite decide_False.
Qed.

Lemma get_set_ne d k k' v : k ≠ k' → Dict.get (Dict.set d k v) k' = Dict.get d k'.
Proof.
  intros Hne. induction d as [|[k0 v0] d IH]; simpl.
  - by rewrite decide_False.
  - destruct (decide (k0 = k)) as [->|Hne0]; simpl.
    + by rewrite !decide_False.
    + destruct (decide (k0 = k')); done.
Qed.

Lemma set_set d k v v' : Dict.set (Dict.set d k v) k v' = Dict.set d k v'.
Proof.
  induction d as [|[k0 v0] d IH]; simpl.
  - by rewrite decide_True.
  - destruct (decide (k0 = k)) as [->|Hne0]; simpl.
    + by rewrite decide_True.
    + rewrite decide_False by done. by rewrite IH.
Qed.

Lemma get_del_ne d k k' : k ≠ k' → Dict.get (Dict.del d k) k' = Dict.get d k'.
Proof.
  intros Hne. induction d as [|[k0 v0] d IH]; simpl; [done|].
  destruct (decide (k0 = k)) as [->|Hne0]; simpl.
  - by rewrite decide_False.
  - destruct (decide (k0 = k')); done.
Qed.

Lemma get_None d k : Dict.get d k = None ↔ k ∉ Dict.keys d.
Proof.
  unfold Dict.keys. induction d as [|[k0 v0] d IH]; simpl.
  - split; [intros _; apply not_elem_of_nil | done].
  - rewrite not_elem_of_cons. destruct (decide (k0 = k)) as [->|Hne0].
    + split; [done | intros [? _]; done].
    + rewrite IH. split; [intros ?; split; [by intros -> | done] | intros [_ ?]; done].
Qed.

Lemma get_Some_elem d k v : Dict.get d k = Some v → (k, v) ∈ d.
Proof.
  induction d as [|[k0 v0] d IH]; simpl; [done|].
  destruct (decide (k0 = k)) as [->|Hne0].
  - intros [= ->]. left.
  - intros H. right. by apply IH.
Qed.

Lemma keys_del_subseteq d k : Dict.keys (Dict.del d k) ⊆ Dict.keys d.
Proof.
  unfold Dict.keys. induction d as [|[k0 v0] d IH]; simpl; [done|].
  destruct (decide (k0 = k)); simpl.
  - intros x Hx. by right.
  - intros x Hx. apply elem_of_cons in Hx as [->|Hx]; [left | right; by apply IH].
Qed.

Lemma get_del_eq d k : NoDup (Dict.keys d) → Dict.get (Dict.del d k) k = None.
Proof.
  unfold Dict.keys. induction d as [|[k0 v0] d IH]; simpl; [done|].
  intros Hnd. apply NoDup_cons in Hnd as [Hk0 Hnd].
  destruct (decide (k0 = k)) as [->|Hne0]; simpl.
  - by apply get_None.
  - rewrite decide_False by done. by apply IH.
Qed.

Lemma NoDup_keys_del d k : NoDup (Dict.keys d) → NoDup (Dict.keys (Dict.del d k)).
Proof.
  unfold Dict.keys. induction d as [|[k0 v0] d IH]; simpl; [done|].
  intros Hnd. apply NoDup_cons in Hnd as [Hk0 Hnd].
  destruct (decide (k0 = k)) as [->|Hne0]; simpl; [done|].
  apply NoDup_cons. split; [|by apply IH].
  intros Hin. apply Hk0. by apply (keys_del_subseteq d k).
Qed.

Lemma keys_set_elem d k v k' :
  k' ∈ Dict.keys (Dict.set d k v) → k' = k ∨ k' ∈ Dict.keys d.
Proof.
  unfold Dict.keys. induction d as [|[k0 v0] d IH]; simpl.
  - intros ->%list_elem_of_singleton. by left.
  - destruct (decide (k0 = k)) as [->|Hne0]; simpl.
    + intros H. by right.
    + intros [->|H]%elem_of_cons; [right; left|].
      destruct (IH H) as [->|?]; [by left | right; by right].
Qed.

Lemma NoDup_keys_set d k v : NoDup (Dict.keys d) → NoDup (Dict.keys (Dict.set d k v)).
Proof.
  unfold Dict.keys. induction d as [|[k0 v0] d IH]; simpl.
  - intros _. apply NoDup_singleton.
  - intros Hnd. apply NoDup_cons in Hnd as [Hk0 Hnd].
    destruct (decide (k0 = k)) as [->|Hne0]; simpl.
    + by apply NoDup_cons.
    + apply NoDup_cons. split; [|by apply IH].
      intros Hin. destruct (keys_set_elem d k v k0 Hin) as [?|?]; done.
Qed.

Lemma Forall_set (P : K * V → Prop) d k v :
  Forall P d → P (k, v) → Forall P (Dict.set d k v).
Proof.
  intros Hd Hkv. induction d as [|[k0 v0] d IH]; simpl.
  - by constructor.
  - apply Forall_cons in Hd as [H0 Hd].
    destruct (decide (k0 = k)); constructor; auto.
Qed.

Lemma Forall_del (P : K * V → Prop) d k : Forall P d → Forall P (Dict.del d k).
Proof.
  intros Hd. induction d as [|[k0 v0] d IH]; simpl; [done|].
  apply Forall_cons in Hd as [H0 Hd].
  destruct (decide (k0 = k)); [done|]. constructor; auto.
Qed.

End dict_facts.

(** ** The occupancy index *)

Lemma append_at_set d pos agent :
  AgentManager.append_at d pos agent =
    Dict.set d pos (default [] (Dict.get d pos) ++ [agent]).
Proof.
  unfold AgentManager.append_at.
  destruct (Dict.get d pos) as [l|] eqn:Hget.
  - by rewrite Hget.
  - by rewrite get_set_eq, set_set.
Qed.

Lemma append_at_ok d pos agent : index_ok d → index_ok (AgentManager.append_at d pos agent).
Proof.
  intros [Hnd Hne]. rewrite append_at_set. split.
  - by apply NoDup_keys_set.
  - apply Forall_set; [done|]. simpl. by destruct (default [] (Dict.get d pos)).
Qed.

Lemma detach_at_ok d pos agent_list agent :
  index_ok d → index_ok (AgentManager.detach_at d pos agent_list agent).
Proof.
  intros [Hnd Hne]. unfold AgentManager.detach_at.
  destruct (list_remove_first agent agent_list) as [|b l'] eqn:Hrm.
  - split; [by apply NoDup_keys_del | by apply Forall_del].
  - split; [by apply NoDup_keys_set | by apply Forall_set].
Qed.

(** What a successful [place_agent] did. *)
Lemma place_agent_true am h agent x y am' h' :
  AgentManager.place_agent am h agent x y = Returns (true, am', h') →
  GameMap.is_walkable (AgentManager.game_map am) x y = Returns true ∧
  am' = AgentManager.with_agents am
          (AgentManager.append_at (AgentManager.agents am) (x, y) agent) ∧
  h' = match position (h agent) with
       | Some _ => set_position h agent (x, y)
       | None => h
       end.
Proof.
  unfold AgentManager.place_agent.
  destruct (GameMap.is_walkable _ x y) as [[|]| |]; simpl; intros [=]; subst; done.
Qed.

Lemma place_agent_false am h agent x y am' h' :
  AgentManager.place_agent am h agent x y = Returns (false, am', h') →
  am' = am ∧ h' = h.
Proof.
  unfold AgentManager.place_agent.
  destruct (GameMap.is_walkable _ x y) as [[|]| |]; simpl; intros [=]; subst; done.
Qed.

Lemma move_agent_true am h agent x y am' h' :
  AgentManager.move_agent am h agent x y = Returns (true, am', h') →
  GameMap.is_walkable (AgentManager.game_map am) x y = Returns true ∧
  am' = AgentManager.with_agents am
          (AgentManager.append_at (departed (AgentManager.agents am) h agent) (x, y) agent) ∧
  h' = match position (h agent) with
       | Some _ => set_position h agent (x, y)
       | None => h
       end.
Proof.
  unfold AgentManager.move_agent.
  destruct (GameMap.is_walkable _ x y) as [[|]| |]; simpl; intros [=]; subst; done.
Qed.

Lemma move_agent_false am h agent x y am' h' :
  AgentManager.move_agent am h agent x y = Returns (false, am', h') →
  am' = am ∧ h' = h.
Proof.
  unfold AgentManager.move_agent.
  destruct (GameMap.is_walkable _ x y) as [[|]| |]; simpl; intros [=]; subst; done.
Qed.

Lemma departed_ok d h agent : index_ok d → index_ok (departed d h agent).
Proof.
  intros Hd. unfold departed.
  repeat case_match; try done. by apply detach_at_ok.
Qed.

Lemma run_call_ok st c st' :
  index_ok (AgentManager.agents st.1) →
  AgentManager.run_call st c = Returns st' →
  index_ok (AgentManager.agents st'.1).
Proof.
  destruct st as [am h]. intros Hok. destruct c as [agent x y|agent|agent x y]; simpl.
  - intros ([[b am1] h1] & Hp & [= <-])%outcome_bind_Returns. simpl.
    destruct b.
    + apply place_agent_true in Hp as (_ & -> & _). by apply append_at_ok.
    + by apply place_agent_false in Hp as [-> _].
  - intros [= <-]. simpl. unfold AgentManager.remove_agent.
    destruct (AgentManager.find_agent _ _) as [[pos agent_list]|]; simpl; [|done].
    by apply detach_at_ok.
  - intros ([[b am1] h1] & Hp & [= <-])%outcome_bind_Returns. simpl.
    destruct b.
    + apply move_agent_true in Hp as (_ & -> & _).
      by apply append_at_ok, departed_ok.
    + by apply move_agent_false in Hp as [-> _].
Qed.

(** C4. After any finite sequence of [place_agent], [remove_agent] and
    [move_agent] calls from the empty index, no coordinate key of the index
    maps to an empty list: every entry holds a non-empty list, and what is
    looked up under a present key is a non-empty list (keys are not
    repeated). *)
Theorem occupancy_no_empty_list (game_map : GameMap.t) (h : Store)
    (calls : list AgentManager.call) (am' : AgentManager.t) (h' : Store) :
  AgentManager.run_calls calls (AgentManager.init game_map, h) = Returns (am', h') →
  Forall (λ e, e.2 ≠ []) (AgentManager.agents am') ∧
  NoDup (Dict.keys (AgentManager.agents am')) ∧
  (∀ pos, pos ∈ Dict.keys (AgentManager.agents am') →
     ∃ agent_list, Dict.get (AgentManager.agents am') pos = Some agent_list ∧
                   agent_list ≠ []).
Proof.
  intros Hrun.
  assert (index_ok (AgentManager.agents am')) as [Hnd Hne].
  { unfold AgentManager.run_calls in Hrun.
    assert (index_ok (AgentManager.agents (AgentManager.init game_map, h).1)) as Hinit.
    { split; [apply NoDup_nil_2 | constructor]. }
    revert Hrun Hinit. generalize (AgentManager.init game_map, h).
    induction calls as [|c calls IH]; intros st; simpl.
    - intros [= ->]. done.
    - intros (st1 & Hc & Hrest)%outcome_bind_Returns Hst.
      apply (IH st1 Hrest). by eapply run_call_ok. }
  split; [done|]. split; [done|].
  intros pos Hpos.
  destruct (Dict.get (AgentManager.agents am') pos) as [l|] eqn:Hget.
  - exists l. split; [done|].
    apply get_Some_elem in Hget.
    rewrite Forall_forall in Hne. apply (Hne _ Hget).
  - by apply get_None in Hget.
Qed.

Lemma occupancy_no_empty_list_witness :
  let h : Store := λ _, Attrs (Some None) (Some "@") in
  let calls := [AgentManager.Place 0%nat 1 1; AgentManager.Place 1%nat 1 1;
                AgentManager.Move 0%nat 2 1; AgentManager.Remove 1%nat;
                AgentManager.Move 0%nat 0 0] in
  ∃ am' h',
    AgentManager.run_calls calls (AgentManager.init corridor_map, h) = Returns (am', h') ∧
    AgentManager.agents am' = [((2, 1), [0%nat])] ∧
    Forall (λ e, e.2 ≠ []) (AgentManager.agents am') ∧
    NoDup (Dict.keys (AgentManager.agents am')) ∧
    (∀ pos, pos ∈ Dict.keys (AgentManager.agents am') →
       ∃ agent_list, Dict.get (AgentManager.agents am') pos = Some agent_list ∧
                     agent_list ≠ []).
Proof.
  intros h calls.
  destruct (AgentManager.run_calls calls (AgentManager.init corridor_map, h))
    as [[am' h']| |] eqn:E; [|vm_compute in E; discriminate..].
  exists am', h'. split; [reflexivity|].
  split; [vm_compute in E; by injection E as <- _|].
  exact (occupancy_no_empty_list corridor_map h calls am' h' E).
Defined.

Lemma get_agents_at_append am pos agent x y :
  AgentManager.get_agents_at
    (AgentManager.with_agents am (AgentManager.append_at (AgentManager.agents am) pos agent))
    x y
  = if decide (pos = (x, y)) then AgentManager.get_agents_at am x y ++ [agent]
    else AgentManager.get_agents_at am x y.
Proof.
  unfold AgentManager.get_agents_at. simpl. rewrite append_at_set.
  destruct (decide (pos = (x, y))) as [->|Hne].
  - by rewrite get_set_eq.
  - by rewrite get_set_ne.
Qed.

(** C10. Moving an agent that has no recorded position (no attribute
    [position], or the attribute holds [None]) to a walkable coordinate
    returns true and appends the agent to that coordinate's list, leaving
    every other coordinate as it was: it behaves like a placement.  (That the
    agent was never placed is not needed.) *)
Theorem move_unplaced_agent (am : AgentManager.t) (h : Store) (agent : Agent) (x y : Z) :
  position (h agent) = None ∨ position (h agent) = Some None →
  GameMap.is_walkable (AgentManager.game_map am) x y = Returns true →
  ∃ am' h',
    AgentManager.move_agent am h agent x y = Returns (true, am', h') ∧
    AgentManager.get_agents_at am' x y = AgentManager.get_agents_at am x y ++ [agent] ∧
    (∀ x' y', (x', y') ≠ (x, y) →
       AgentManager.get_agents_at am' x' y' = AgentManager.get_agents_at am x' y').
Proof.
  intros Hpos Hwalk. unfold AgentManager.move_agent. rewrite Hwalk. simpl.
  eexists _, _. split; [reflexivity|].
  assert ((match position (h agent) with Some p => p | None => None end) = None) as ->
    by (destruct Hpos as [-> | ->]; done).
  split.
  - rewrite get_agents_at_append. by rewrite decide_True.
  - intros x' y' Hne. rewrite get_agents_at_append. by rewrite decide_False.
Qed.

Lemma move_unplaced_agent_witness :
  let h : Store := λ _, Attrs (Some None) (Some "@") in
  let am := AgentManager.init corridor_map in
  (position (h 7%nat) = None ∨ position (h 7%nat) = Some None) ∧
  GameMap.is_walkable (AgentManager.game_map am) 2 1 = Returns true ∧
  ∃ am' h',
    AgentManager.move_agent am h 7%nat 2 1 = Returns (true, am', h') ∧
    AgentManager.get_agents_at am' 2 1 = AgentManager.get_agents_at am 2 1 ++ [7%nat] ∧
    (∀ x' y', (x', y') ≠ (2, 1) →
       AgentManager.get_agents_at am' x' y' = AgentManager.get_agents_at am x' y').
Proof.
  intros h am.
  assert (position (h 7%nat) = None ∨ position (h 7%nat) = Some None) as H1
    by (right; reflexivity).
  assert (GameMap.is_walkable (AgentManager.game_map am) 2 1 = Returns true) as H2
    by reflexivity.
  split; [exact H1|]. split; [exact H2|].
  exact (move_unplaced_agent am h 7%nat 2 1 H1 H2).
Defined.

(** C7, as the code has it.  Take an agent that has the attribute [position]
    and an index in which two different coordinates [old] and [new] hold no
    agent (the empty index, for one).  After a successful [place_agent] at
    [old] and a successful [move_agent] to [new], [get_agents_at old] is
    empty and [get_agents_at new] is the list of that agent alone. *)
Theorem place_then_move (am am1 am2 : AgentManager.t) (h h1 h2 : Store)
    (agent : Agent) (old_x old_y new_x new_y : Z) :
  NoDup (Dict.keys (AgentManager.agents am)) →
  is_Some (position (h agent)) →
  AgentManager.get_agents_at am old_x old_y = [] →
  AgentManager.get_agents_at am new_x new_y = [] →
  (old_x, old_y) ≠ (new_x, new_y) →
  AgentManager.place_agent am h agent old_x old_y = Returns (true, am1, h1) →
  AgentManager.move_agent am1 h1 agent new_x new_y = Returns (true, am2, h2) →
  AgentManager.get_agents_at am2 old_x old_y = [] ∧
  AgentManager.get_agents_at am2 new_x new_y = [agent].
Proof.
  intros Hnd [p Hp] Hold Hnew Hne Hplace Hmove.
  apply place_agent_true in Hplace as (_ & -> & ->).
  apply move_agent_true in Hmove as (_ & -> & _).
  rewrite Hp. unfold AgentManager.get_agents_at in *. simpl.
  set (d := AgentManager.agents am) in *.
  assert (AgentManager.append_at d (old_x, old_y) agent
          = Dict.set d (old_x, old_y) [agent]) as Hd1.
  { rewrite append_at_set. by rewrite Hold. }
  rewrite Hd1.
  assert (departed (Dict.set d (old_x, old_y) [agent])
            (set_position h agent (old_x, old_y)) agent
          = Dict.del (Dict.set d (old_x, old_y) [agent]) (old_x, old_y)) as ->.
  { unfold departed, set_position. rewrite decide_True by done. simpl.
    rewrite get_set_eq. rewrite decide_True by (apply list_elem_of_singleton; done).
    unfold AgentManager.detach_at. simpl. by rewrite decide_True. }
  set (d1 := Dict.del (Dict.set d (old_x, old_y) [agent]) (old_x, old_y)).
  assert (Dict.get d1 (new_x, new_y) = Dict.get d (new_x, new_y)) as Hd1new.
  { unfold d1. rewrite get_del_ne by done. by rewrite get_set_ne. }
  assert (Dict.get d1 (old_x, old_y) = None) as Hd1old.
  { unfold d1. apply get_del_eq. by apply NoDup_keys_set. }
  rewrite append_at_set, Hd1new, Hnew. simpl. split.
  - rewrite get_set_ne by done. by rewrite Hd1old.
  - by rewrite get_set_eq.
Qed.

Lemma place_then_move_witness :
  let h : Store := λ _, Attrs (Some None) (Some "@") in
  let am := AgentManager.init corridor_map in
  ∃ am1 h1 am2 h2,
    AgentManager.place_agent am h 7%nat 1 1 = Returns (true, am1, h1) ∧
    AgentManager.move_agent am1 h1 7%nat 2 1 = Returns (true, am2, h2) ∧
    AgentManager.get_agents_at am2 1 1 = [] ∧
    AgentManager.get_agents_at am2 2 1 = [7%nat].
Proof.
  intros h am.
  eexists _, _, _, _.
  assert (NoDup (Dict.keys (AgentManager.agents am))) as H1 by apply NoDup_nil_2.
  assert (is_Some (position (h 7%nat))) as H2 by (eexists; reflexivity).
  assert (AgentManager.get_agents_at am 1 1 = []) as H3 by reflexivity.
  assert (AgentManager.get_agents_at am 2 1 = []) as H4 by reflexivity.
  assert ((1, 1) ≠ (2, 1)) as H5 by discriminate.
  split; [reflexivity|]. split; [reflexivity|].
  exact (place_then_move am _ _ h _ _ 7%nat 1 1 2 1 H1 H2 H3 H4 H5 eq_refl eq_refl).
Defined.

(** C7 as stated fails for an agent without the attribute [position]: placed
    at (1, 1) of the corridor grid and moved to (2, 1), both walkable, on the
    empty index, it is still listed at (1, 1). *)
Lemma move_without_position_counterexample :
  let h : Store := λ _, Attrs None (Some "@") in
  let am := AgentManager.init corridor_map in
  ∃ am1 h1 am2 h2,
    AgentManager.place_agent am h 7%nat 1 1 = Returns (true, am1, h1) ∧
    AgentManager.move_agent am1 h1 7%nat 2 1 = Returns (true, am2, h2) ∧
    AgentManager.get_agents_at am2 1 1 = [7%nat] ∧
    AgentManager.get_agents_at am2 2 1 = [7%nat].
Proof.
  intros h am. eexists _, _, _, _.
  split; [reflexivity|]. split; [reflexivity|]. split; reflexivity.
Qed.

(** ** Rendering *)

Lemma string_length_app (s1 s2 : string) :
  String.length (s1 +:+ s2) = (String.length s1 + String.length s2)%nat.
Proof.
  induction s1 as [|a s1 IH]; [done|].
  change (String a s1 +:+ s2) with (String a (s1 +:+ s2)).
  simpl. by rewrite IH.
Qed.

Lemma get_tile_wf (m : GameMap.t) (x y : Z) :
  GameMap.wf m → ∃ o, GameMap.get_tile m x y = Returns o.
Proof.
  intros Hwf. unfold GameMap.get_tile.
  destruct (GameMap.is_valid_position m x y) eqn:Hv; simpl; [|by eexists].
  destruct (tile_at_valid m x y Hwf Hv) as (row & t & _ & _ & ->). simpl. by eexists.
Qed.

Lemma get_symbol_length (t : TileType) : String.length (TileProperties.get_symbol t) = 1%nat.
Proof. by destruct t. Qed.

Section render.
Variables (r : MapRenderer.t) (h : Store).
Hypothesis Hwf : GameMap.wf (MapRenderer.game_map r).
Hypothesis Hsym : single_char_symbols (MapRenderer.agent_manager r) h.

Lemma render_cell_length (x y : Z) :
  returns (MapRenderer.render_cell r h x y) (λ s, String.length s = 1%nat).
Proof.
  unfold MapRenderer.render_cell.
  assert (returns
    (tile ← GameMap.get_tile (MapRenderer.game_map r) x y;
     mret (match tile with
           | Some tile => TileProperties.get_symbol tile
           | None => " "
           end)) (λ s, String.length s = 1%nat)) as Htile.
  { destruct (get_tile_wf _ x y Hwf) as [o ->]. simpl.
    apply returns_ret. destruct o; [apply get_symbol_length | done]. }
  unfold AgentManager.get_agents_at.
  destruct (Dict.get _ (x, y)) as [[|agent l]|] eqn:Hget; simpl; try done.
  destruct (symbol (h agent)) as [s|] eqn:Hs; [|done].
  apply returns_ret. eapply Hsym; [exact Hget | left | exact Hs].
Qed.

Lemma render_line_length (start_x end_x y : Z) :
  returns (MapRenderer.render_line r h start_x end_x y)
    (λ line, String.length line = Z.to_nat (end_x - start_x)).
Proof.
  unfold MapRenderer.render_line. rewrite <- length_range.
  change (length (range start_x end_x))
    with (String.length "" + length (range start_x end_x))%nat.
  generalize "". induction (range start_x end_x) as [|x xs IH]; intros line; simpl.
  - apply returns_ret. lia.
  - eapply returns_bind.
    + eapply returns_bind; [apply render_cell_length|].
      intros s Hs. cbv beta in Hs. apply returns_ret. instantiate (1 := λ line', String.length line' = S (String.length line)).
      simpl. rewrite string_length_app. lia.
    + intros line' Hlen. eapply returns_mono; [apply IH|].
      intros line'' Hlen''. simpl in *. lia.
Qed.

Lemma render_rows_from (start_x end_x : Z) (ys : list Z) (rows : list string) :
  Forall (λ row, String.length row = Z.to_nat (end_x - start_x)) rows →
  returns
    (for_in ys
       (λ rendered_lines y,
          line ← MapRenderer.render_line r h start_x end_x y;
          mret (rendered_lines ++ [line])) rows)
    (λ rows', length rows' = (length rows + length ys)%nat ∧
              Forall (λ row, String.length row = Z.to_nat (end_x - start_x)) rows').
Proof.
  revert rows. induction ys as [|y ys IH]; intros rows Hrows; simpl.
  - apply returns_ret. split; [lia|done].
  - eapply returns_bind.
    + eapply returns_bind; [apply render_line_length|].
      intros line Hline. cbv beta in Hline. apply returns_ret.
      instantiate (1 := λ rows', length rows' = S (length rows) ∧
         Forall (λ row, String.length row = Z.to_nat (end_x - start_x)) rows').
      simpl. split; [rewrite length_app; simpl; lia|].
      apply Forall_app. split; [done|]. by constructor.
    + intros rows' [Hlen Hall]. eapply returns_mono; [by apply IH|].
      intros rows'' [Hlen'' Hall'']. split; [lia|done].
Qed.

Lemma render_rows (start_x end_x start_y end_y : Z) :
  returns
    (for_in (range start_y end_y)
       (λ rendered_lines y,
          line ← MapRenderer.render_line r h start_x end_x y;
          mret (rendered_lines ++ [line])) [])
    (λ rows, length rows = Z.to_nat (end_y - start_y) ∧
             Forall (λ row, String.length row = Z.to_nat (end_x - start_x)) rows).
Proof.
  eapply returns_mono; [apply render_rows_from; constructor|].
  intros rows [Hlen Hall]. rewrite length_range in Hlen. simpl in Hlen. done.
Qed.

End render.

(** C9, as the code has it.  On a well-formed grid whose indexed agents have
    one-character symbols, [render_map] returns; it returns
    [max 0 (end_y - start_y)] rows, each of length [max 0 (end_x - start_x)],
    so all rows of one render have the same length (and the length is
    [end_x - start_x] whenever [start_x <= end_x]); without viewport
    arguments, on a grid of non-negative width [W] and height [H], these are
    [H] rows of length [W]. *)
Theorem render_map_rows (r : MapRenderer.t) (h : Store)
    (viewport_width viewport_height center_x center_y : option Z) :
  GameMap.wf (MapRenderer.game_map r) →
  single_char_symbols (MapRenderer.agent_manager r) h →
  ∃ rows,
    MapRenderer.render_map r h viewport_width viewport_height center_x center_y
      = Returns rows ∧
    (let '(start_x, start_y, end_x, end_y) :=
       MapRenderer.viewport_bounds r viewport_width viewport_height center_x center_y in
     Z.of_nat (length rows) = Z.max 0 (end_y - start_y) ∧
     Forall (λ row, Z.of_nat (String.length row) = Z.max 0 (end_x - start_x)) rows) ∧
    (viewport_width = None → viewport_height = None →
     center_x = None → center_y = None →
     0 ≤ GameMap.width (MapRenderer.game_map r) →
     0 ≤ GameMap.height (MapRenderer.game_map r) →
     Z.of_nat (length rows) = GameMap.height (MapRenderer.game_map r) ∧
     Forall (λ row, Z.of_nat (String.length row) = GameMap.width (MapRenderer.game_map r))
       rows).
Proof.
  intros Hwf Hsym. unfold MapRenderer.render_map.
  destruct (MapRenderer.viewport_bounds r viewport_width viewport_height center_x center_y)
    as [[[start_x start_y] end_x] end_y] eqn:Hb.
  destruct (render_rows r h Hwf Hsym start_x end_x start_y end_y) as (rows & -> & Hlen & Hall).
  exists rows. split; [done|]. split.
  - split; [lia|]. eapply Forall_impl; [exact Hall|]. simpl. intros; lia.
  - intros -> -> -> -> Hw Hh. simpl in Hb. injection Hb as <- <- <- <-.
    split; [lia|]. eapply Forall_impl; [exact Hall|]. simpl. intros; lia.
Qed.

Lemma corridor_view_symbols :
  single_char_symbols (MapRenderer.agent_manager corridor_view) at_sign.
Proof. intros pos l agent s _ _ [= <-]. reflexivity. Qed.

Lemma render_map_rows_witness :
  GameMap.wf (MapRenderer.game_map corridor_view) ∧
  single_char_symbols (MapRenderer.agent_manager corridor_view) at_sign ∧
  ∃ rows,
    MapRenderer.render_map corridor_view at_sign None None None None = Returns rows ∧
    rows = ["#####"; "#@..#"; "#####"] ∧
    Z.of_nat (length rows) = 3 ∧
    Forall (λ row, Z.of_nat (String.length row) = 5) rows.
Proof.
  split; [exact corridor_map_wf|]. split; [exact corridor_view_symbols|].
  destruct (render_map_rows corridor_view at_sign None None None None
              corridor_map_wf corridor_view_symbols) as (rows & Hr & _ & Hfull).
  exists rows. split; [exact Hr|].
  split; [vm_compute in Hr; by injection Hr as <-|].
  apply Hfull; try reflexivity; vm_compute; discriminate.
Defined.

(** C9 as stated fails when the viewport is centred beyond the right edge:
    on the five-column corridor grid centred at column 100, [start_x = 98] and
    [end_x = 5]; three rows are returned, each of length 0 and not
    [end_x - start_x = -93]. *)
Lemma render_off_map_counterexample :
  GameMap.wf (MapRenderer.game_map corridor_view) ∧
  single_char_symbols (MapRenderer.agent_manager corridor_view) at_sign ∧
  MapRenderer.viewport_bounds corridor_view None None (Some 100) (Some 1) = (98, 0, 5, 3) ∧
  MapRenderer.render_map corridor_view at_sign None None (Some 100) (Some 1)
    = Returns [""; ""; ""] ∧
  Forall (λ row, Z.of_nat (String.length row) ≠ 5 - 98) [""; ""; ""].
Proof.
  split; [exact corridor_map_wf|]. split; [exact corridor_view_symbols|].
  split; [reflexivity|]. split; [reflexivity|].
  repeat constructor; discriminate.
Qed.

(** ** Writing tiles *)

Lemma filter_absent (t : TileType) (l : list TileType) :
  Forall (λ t', t' ≠ t) l → filter (λ t', t' = t) l = [].
Proof.
  induction 1 as [|t' l Ht' _ IH]; [done|].
  by rewrite filter_cons_False.
Qed.

Lemma count_tiles_absent (t : TileType) (ts : list (list TileType)) :
  Forall (Forall (λ t', t' ≠ t)) ts → count_tiles t ts = 0%nat.
Proof.
  intros Hts. unfold count_tiles. rewrite filter_absent; [done|].
  by apply Forall_concat.
Qed.

Section tile_assign.
Variables (w h : Z) (ts : list (list TileType)) (x y : Z) (v : TileType).
Hypothesis Hgrid : grid w h ts.
Hypothesis Hx : 0 ≤ x < w.
Hypothesis Hy : 0 ≤ y < h.

Lemma tile_assign_returns :
  ∃ row, ts !! Z.to_nat y = Some row ∧ length row = Z.to_nat w ∧
    GameMap.tile_assign ts x y v
      = Returns (<[Z.to_nat y := <[Z.to_nat x := v]> row]> ts).
Proof.
  destruct Hgrid as [Hh Hw].
  destruct (getitem_nonneg ts y) as (row & Hrow & Hgy); [lia|].
  assert (length row = Z.to_nat w) as Hlen.
  { rewrite Forall_lookup in Hw. by apply (Hw _ _ Hrow). }
  exists row. split; [done|]. split; [done|].
  unfold GameMap.tile_assign. rewrite Hgy. simpl.
  rewrite setitem_nonneg by lia. simpl.
  by rewrite setitem_nonneg by lia.
Qed.

Lemma tile_assign_grid ts' :
  GameMap.tile_assign ts x y v = Returns ts' → grid w h ts'.
Proof.
  destruct tile_assign_returns as (row & Hrow & Hlen & ->). intros [= <-].
  destruct Hgrid as [Hh Hw]. split.
  - by rewrite length_insert.
  - apply Forall_insert; [done|]. by rewrite length_insert.
Qed.

Lemma tile_assign_keeps (P : TileType → Prop) ts' :
  Forall (Forall P) ts → P v →
  GameMap.tile_assign ts x y v = Returns ts' → Forall (Forall P) ts'.
Proof.
  destruct tile_assign_returns as (row & Hrow & Hlen & ->). intros Hts Hv [= <-].
  apply Forall_insert; [done|]. apply Forall_insert; [|done].
  rewrite Forall_lookup in Hts. by apply (Hts _ _ Hrow).
Qed.

Lemma tile_assign_read ts' :
  GameMap.tile_assign ts x y v = Returns ts' → GameMap.tile_at ts' x y = Returns v.
Proof.
  destruct tile_assign_returns as (row & Hrow & Hlen & ->). intros [= <-].
  destruct Hgrid as [Hh Hw].
  unfold GameMap.tile_at, getitem.
  rewrite length_insert, py_index_nonneg by lia.
  rewrite list_lookup_insert_eq by (apply lookup_lt_Some in Hrow; lia). simpl.
  rewrite length_insert, py_index_nonneg by lia.
  by rewrite list_lookup_insert_eq by lia.
Qed.

Lemma tile_assign_count ts' :
  Forall (Forall (λ t', t' ≠ v)) ts →
  GameMap.tile_assign ts x y v = Returns ts' → count_tiles v ts' = 1%nat.
Proof.
  destruct tile_assign_returns as (row & Hrow & Hlen & ->). intros Hts [= <-].
  assert (Forall (λ t', t' ≠ v) row) as Hr.
  { rewrite Forall_lookup in Hts. by apply (Hts _ _ Hrow). }
  unfold count_tiles.
  rewrite insert_take_drop by (apply lookup_lt_Some in Hrow; lia).
  rewrite concat_app, concat_cons, !filter_app.
  rewrite (filter_absent v (concat (take _ ts)))
    by (apply Forall_concat, Forall_take, Hts).
  rewrite (filter_absent v (concat (drop _ ts)))
    by (apply Forall_concat, Forall_drop, Hts).
  rewrite insert_take_drop by lia.
  rewrite filter_app, filter_cons_True by done.
  rewrite (filter_absent v (take _ row)) by (by apply Forall_take).
  rewrite (filter_absent v (drop _ row)) by (by apply Forall_drop).
  done.
Qed.

Lemma tile_assign_other ts' x' y' :
  GameMap.tile_assign ts x y v = Returns ts' →
  0 ≤ x' < w → 0 ≤ y' < h → (x', y') ≠ (x, y) →
  GameMap.tile_at ts' x' y' = GameMap.tile_at ts x' y'.
Proof.
  destruct tile_assign_returns as (row & Hrow & Hlen & ->). intros [= <-] Hx' Hy' Hne.
  destruct Hgrid as [Hh Hw].
  unfold GameMap.tile_at, getitem.
  rewrite length_insert, py_index_nonneg by lia.
  destruct (decide (y' = y)) as [->|Hyy].
  - rewrite list_lookup_insert_eq by (apply lookup_lt_Some in Hrow; lia).
    rewrite Hrow. simpl.
    rewrite length_insert, !py_index_nonneg by lia.
    rewrite list_lookup_insert_ne; [done|].
    intros Heq. apply Hne. f_equal. lia.
  - rewrite list_lookup_insert_ne by lia. done.
Qed.

End tile_assign.

(** ** Generating a floor *)

Lemma carved_init (w h fn : Z) : carved w h (GameMap.init w h fn).
Proof.
  split; simpl; [done|done| | | |done].
  - split; [split|].
    + by rewrite length_replicate.
    + apply Forall_replicate. by rewrite length_replicate.
    + apply Forall_replicate, Forall_replicate. done.
  - constructor.
  - intros i j ri rj _ Hi. by rewrite lookup_nil in Hi.
Qed.

Lemma carved_with_tiles (w h : Z) (m : GameMap.t) (ts : list (list TileType)) :
  carved w h m → tiles_ok w h ts → carved w h (GameMap.with_tiles m ts).
Proof. intros [] Hts. split; simpl; done. Qed.

Lemma tile_assign_floor (w h : Z) (ts : list (list TileType)) (x y : Z) :
  tiles_ok w h ts → 0 ≤ x < w → 0 ≤ y < h →
  returns (GameMap.tile_assign ts x y FLOOR) (tiles_ok w h).
Proof.
  intros [Hg Hn] Hx Hy.
  destruct (tile_assign_returns w h ts x y FLOOR Hg Hx Hy) as (row & _ & _ & Heq).
  eexists. split; [exact Heq|]. split.
  - by eapply tile_assign_grid.
  - eapply (tile_assign_keeps w h ts x y FLOOR Hg Hx Hy); [exact Hn|done|exact Heq].
Qed.

Lemma carve_room_spec (w h : Z) (m : GameMap.t) (room : Room.t) :
  carved w h m → room_fits w h room →
  returns (GameMap._carve_room m room) (λ m', ∃ ts, m' = GameMap.with_tiles m ts ∧ tiles_ok w h ts).
Proof.
  intros Hm (Hw & Hh & Hx1 & Hx2 & Hy1 & Hy2). unfold GameMap._carve_room.
  eapply returns_bind.
  - apply (returns_for_in _ _ (tiles_ok w h)); [|apply Hm].
    intros ts y Hy%elem_of_range Hts.
    apply (returns_for_in _ _ (tiles_ok w h)); [|done].
    intros ts' x Hx%elem_of_range Hts'.
    apply tile_assign_floor; [done|lia..].
  - intros ts Hts. apply returns_ret. by exists ts.
Qed.

Lemma tunnel_cell_spec (w h : Z) (m : GameMap.t) (ts : list (list TileType)) (x y : Z) :
  GameMap.width m = w → GameMap.height m = h → tiles_ok w h ts →
  returns (GameMap.tunnel_cell m ts x y) (tiles_ok w h).
Proof.
  intros Hw Hh Hts. unfold GameMap.tunnel_cell.
  destruct ((0 <? x) && (x <? GameMap.width m - 1) && (0 <? y) && (y <? GameMap.height m - 1))
    eqn:Hguard.
  - rewrite !andb_true_iff, !Z.ltb_lt in Hguard.
    apply tile_assign_floor; [done|lia..].
  - by apply returns_ret.
Qed.

Lemma horizontal_tunnel_spec (w h : Z) (m : GameMap.t) (x_start x_end y : Z) :
  carved w h m →
  returns (GameMap._create_horizontal_tunnel m x_start x_end y)
    (λ m', carved w h m' ∧ GameMap.rooms m' = GameMap.rooms m).
Proof.
  intros Hm. unfold GameMap._create_horizontal_tunnel.
  eapply returns_bind.
  - apply (returns_for_in _ _ (tiles_ok w h)); [|apply Hm].
    intros ts x _ Hts. apply tunnel_cell_spec; [apply Hm..|done].
  - intros ts Hts. apply returns_ret. split; [by apply carved_with_tiles|done].
Qed.

Lemma vertical_tunnel_spec (w h : Z) (m : GameMap.t) (y_start y_end x : Z) :
  carved w h m →
  returns (GameMap._create_vertical_tunnel m y_start y_end x)
    (λ m', carved w h m' ∧ GameMap.rooms m' = GameMap.rooms m).
Proof.
  intros Hm. unfold GameMap._create_vertical_tunnel.
  eapply returns_bind.
  - apply (returns_for_in _ _ (tiles_ok w h)); [|apply Hm].
    intros ts y _ Hts. apply tunnel_cell_spec; [apply Hm..|done].
  - intros ts Hts. apply returns_ret. split; [by apply carved_with_tiles|done].
Qed.

Lemma create_corridor_spec (w h : Z) (m : GameMap.t) (start end_ : Z * Z) :
  carved w h m →
  rreturns (GameMap._create_corridor m start end_)
    (λ m', carved w h m' ∧ GameMap.rooms m' = GameMap.rooms m).
Proof.
  intros Hm. unfold GameMap._create_corridor.
  eapply rreturns_bind; [apply rreturns_coin|].
  intros [] _.
  - eapply rreturns_bind; [apply rreturns_lift, horizontal_tunnel_spec, Hm|].
    intros m1 [Hm1 Hr1]. apply rreturns_lift.
    eapply returns_mono; [by apply vertical_tunnel_spec|].
    intros m2 [Hm2 Hr2]. split; [done|congruence].
  - eapply rreturns_bind; [apply rreturns_lift, vertical_tunnel_spec, Hm|].
    intros m1 [Hm1 Hr1]. apply rreturns_lift.
    eapply returns_mono; [by apply horizontal_tunnel_spec|].
    intros m2 [Hm2 Hr2]. split; [done|congruence].
Qed.

Lemma getitem_returns {A} (l : list A) (i : Z) :
  0 ≤ i < Z.of_nat (length l) → returns (getitem l i) (λ a, l !! Z.to_nat i = Some a).
Proof. intros Hi. destruct (getitem_nonneg l i Hi) as (a & Ha & ->). by exists a. Qed.

Lemma connect_rooms_spec (w h : Z) (m : GameMap.t) :
  carved w h m →
  rreturns (GameMap._connect_rooms m)
    (λ m', carved w h m' ∧ GameMap.rooms m' = GameMap.rooms m).
Proof.
  intros Hm. unfold GameMap._connect_rooms.
  destruct (Z.of_nat (length (GameMap.rooms m)) <? 2); [by apply rreturns_ret|].
  apply (rreturns_for_in _ _ (λ m', carved w h m' ∧ GameMap.rooms m' = GameMap.rooms m));
    [|done].
  intros m' i Hi%elem_of_range [Hm' Hrooms]. unfold GameMap.connect_pair.
  eapply rreturns_bind.
  { apply rreturns_lift, getitem_returns. rewrite Hrooms. lia. }
  intros room1 _. eapply rreturns_bind.
  { apply rreturns_lift, getitem_returns. rewrite Hrooms. lia. }
  intros room2 _.
  eapply rreturns_mono; [by apply create_corridor_spec|].
  intros m2 [Hm2 Hr2]. split; [done|congruence].
Qed.

Lemma intersects_sym (a b : Room.t) : Room.intersects a b = Room.intersects b a.
Proof.
  unfold Room.intersects.
  destruct (Room.x a <? Room.x b + Room.width b), (Room.x b <? Room.x a + Room.width a),
    (Room.y a <? Room.y b + Room.height b), (Room.y b <? Room.y a + Room.height a); done.
Qed.

Lemma disjoint_rooms_snoc (rs : list Room.t) (r : Room.t) :
  disjoint_rooms rs → existsb (Room.intersects r) rs = false → disjoint_rooms (rs ++ [r]).
Proof.
  intros Hrs Hr.
  assert (∀ e, e ∈ rs → Room.intersects r e = false) as Hnew.
  { intros e He. destruct (Room.intersects r e) eqn:Hre; [|done].
    assert (existsb (Room.intersects r) rs = true); [|congruence].
    apply existsb_exists. exists e. split; [by apply list_elem_of_In|done]. }
  intros i j ri rj Hij Hi Hj.
  apply lookup_snoc_Some in Hi as [[Hil Hi]|[Hil <-]];
    apply lookup_snoc_Some in Hj as [[Hjl Hj]|[Hjl <-]].
  - by apply (Hrs i j).
  - rewrite intersects_sym. apply Hnew. by eapply list_elem_of_lookup_2.
  - apply Hnew. by eapply list_elem_of_lookup_2.
  - lia.
Qed.

Lemma room_attempt_spec (w h : Z) (m : GameMap.t) :
  carved w h m → rreturns (GameMap.room_attempt m) (carved w h).
Proof.
  intros Hm. unfold GameMap.room_attempt.
  eapply rreturns_bind; [by apply (rreturns_randint 5 15)|].
  intros room_width Hrw. cbv beta in Hrw.
  eapply rreturns_bind; [by apply (rreturns_randint 5 15)|].
  intros room_height Hrh. cbv beta in Hrh. cbv zeta.
  destruct (Z.leb_spec (GameMap.width m - room_width - 1) 1) as [|Hmx];
    [by apply rreturns_ret|].
  destruct (Z.leb_spec (GameMap.height m - room_height - 1) 1) as [|Hmy];
    [by apply rreturns_ret|].
  simpl.
  eapply rreturns_bind; [apply rreturns_randint; lia|].
  intros room_x Hx. cbv beta in Hx.
  eapply rreturns_bind; [apply rreturns_randint; lia|].
  intros room_y Hy. cbv beta in Hy.
  destruct (existsb _ (GameMap.rooms m)) eqn:Hex; [by apply rreturns_ret|].
  assert (room_fits w h (Room.Build room_x room_y room_width room_height)) as Hfit.
  { destruct Hm as [<- <- _ _ _ _]. unfold room_fits. simpl. lia. }
  eapply rreturns_bind; [by apply rreturns_lift, (carve_room_spec w h)|].
  intros m' (ts & -> & Hts). apply rreturns_ret.
  destruct Hm. split; simpl; try done.
  - apply Forall_app. split; [done|]. by constructor.
  - by apply disjoint_rooms_snoc.
Qed.

Lemma generate_rooms_spec (w h : Z) (m : GameMap.t) :
  carved w h m → rreturns (GameMap._generate_rooms m) (carved w h).
Proof.
  intros Hm. unfold GameMap._generate_rooms.
  eapply rreturns_bind; [by apply (rreturns_randint 6 12)|].
  intros num_rooms _.
  apply (rreturns_for_in _ _ (carved w h)); [|done].
  intros m' _ _ Hm'. by apply room_attempt_spec.
Qed.

Lemma elem_of_inner_area (r : Room.t) (px py : Z) :
  (px, py) ∈ Room.get_inner_area r ↔
  Room.x r + 1 ≤ px < Room.x r + Room.width r - 1 ∧
  Room.y r + 1 ≤ py < Room.y r + Room.height r - 1.
Proof.
  unfold Room.get_inner_area. rewrite list_elem_of_bind. split.
  - intros (y & (x & Hxy%list_elem_of_singleton & Hx%elem_of_range)%list_elem_of_bind
              & Hy%elem_of_range).
    injection Hxy as -> ->. lia.
  - intros [Hx Hy]. exists py. split; [|by apply elem_of_range].
    apply list_elem_of_bind. exists px. split; [by apply list_elem_of_singleton|].
    by apply elem_of_range.
Qed.

Lemma rreturns_choice {A} (l : list A) :
  l ≠ [] → rreturns (choice l) (λ a, a ∈ l).
Proof.
  intros Hl. unfold choice. destruct l as [|a0 l0] eqn:Heq; [done|]. rewrite <- Heq.
  assert (0 < Z.of_nat (length l)) by (subst l; simpl; lia).
  eapply rreturns_bind; [apply rreturns_draw|].
  intros d _. apply rreturns_lift.
  eapply returns_mono.
  - apply getitem_returns. apply Z.mod_pos_bound. lia.
  - intros a Ha. cbv beta in Ha. by eapply list_elem_of_lookup_2.
Qed.

Lemma tile_at_no_stairs (w h : Z) (ts : list (list TileType)) (x y : Z) :
  tiles_ok w h ts → 0 ≤ x < w → 0 ≤ y < h →
  GameMap.tile_at ts x y ≠ Returns STAIRS_DOWN.
Proof.
  intros [[Hh Hw] Hn] Hx Hy.
  destruct (getitem_nonneg ts y) as (row & Hrow & Hgy); [lia|].
  assert (length row = Z.to_nat w) as Hlen.
  { rewrite Forall_lookup in Hw. by apply (Hw _ _ Hrow). }
  destruct (getitem_nonneg row x) as (t & Ht & Hgx); [lia|].
  unfold GameMap.tile_at. rewrite Hgy. simpl. rewrite Hgx.
  intros [= ->].
  unfold no_stairs in Hn. rewrite Forall_lookup in Hn.
  specialize (Hn _ _ Hrow). rewrite Forall_lookup in Hn. by apply (Hn _ _ Ht).
Qed.

Lemma place_stairs_spec (w h : Z) (m : GameMap.t) :
  carved w h m → rreturns (GameMap._place_stairs m) (generated w h).
Proof.
  intros Hm. pose proof Hm as [Hw Hh [Hg Hn] Hfit Hdis Hsp].
  unfold GameMap._place_stairs.
  destruct (Z.ltb_spec (Z.of_nat (length (GameMap.rooms m))) 2) as [Hfew|Hmany].
  { apply rreturns_ret. split; try done. lia. }
  eapply rreturns_bind.
  { apply rreturns_choice. destruct (GameMap.rooms m) as [|r0 [|r1 rs]]; simpl in *; [lia..|done]. }
  intros stair_room Hroom. cbv beta in Hroom.
  apply list_elem_of_lookup in Hroom as [i0 Hi0]. rewrite lookup_drop in Hi0.
  assert (room_fits w h stair_room) as Hsfit.
  { rewrite Forall_lookup in Hfit. by apply (Hfit _ _ Hi0). }
  assert ((Room.x stair_room + 1, Room.y stair_room + 1) ∈ Room.get_inner_area stair_room)
    as Hnonempty.
  { apply elem_of_inner_area. unfold room_fits in Hsfit. lia. }
  cbv zeta.
  destruct (Room.get_inner_area stair_room) as [|p0 ps] eqn:Harea.
  { by apply elem_of_nil in Hnonempty. }
  rewrite <- Harea in *. clear Hnonempty.
  eapply rreturns_bind; [apply rreturns_choice; by rewrite Harea|].
  intros [sx sy] Hpos. cbv beta in Hpos. simpl.
  pose proof Hpos as Hin. apply elem_of_inner_area in Hin.
  assert (0 ≤ sx < w ∧ 0 ≤ sy < h) as [Hsx Hsy] by (unfold room_fits in Hsfit; lia).
  destruct (tile_assign_returns w h (GameMap.tiles m) sx sy STAIRS_DOWN Hg Hsx Hsy)
    as (row & _ & _ & Heq).
  eapply rreturns_bind.
  { apply rreturns_lift. eexists. split; [exact Heq|]. by instantiate (1 := λ ts, ts = _). }
  intros ts ->. apply rreturns_ret.
  split; simpl; try done.
  - by eapply tile_assign_grid.
  - intros _. exists sx, sy. unfold stairs_placed. simpl.
    split; [done|]. split; [by eapply tile_assign_read|].
    split; [by eapply tile_assign_count|]. split.
    + intros x y Hx Hy Hxy. rewrite Hw in Hx. rewrite Hh in Hy.
      destruct (decide ((x, y) = (sx, sy))) as [|Hne]; [done|].
      rewrite (tile_assign_other w h (GameMap.tiles m) sx sy STAIRS_DOWN Hg Hsx Hsy _ x y Heq)
        in Hxy by done.
      by apply (tile_at_no_stairs w h) in Hxy.
    + exists (1 + i0)%nat, stair_room. split; [lia|]. done.
Qed.

Lemma set_spawn_point_spec (w h : Z) (m : GameMap.t) :
  generated w h m → rreturns (GameMap._set_spawn_point m) (generated w h).
Proof.
  intros Hm. unfold GameMap._set_spawn_point.
  destruct (GameMap.rooms m) as [|spawn_room rs] eqn:Hrooms; [by apply rreturns_ret|].
  cbv zeta. destruct (Room.get_inner_area spawn_room) as [|p0 ps] eqn:Harea;
    [by apply rreturns_ret|].
  eapply rreturns_bind; [by apply rreturns_choice|].
  intros p _. apply rreturns_ret.
  destruct Hm as [? ? ? Hfit Hdis Hst]. rewrite Hrooms in *.
  split; simpl; try done; rewrite Hrooms; done.
Qed.

(** [generate_map] on a fresh grid always returns, whatever is drawn, and
    the floor it returns is a generated one. *)
Lemma generate_map_spec (w h fn : Z) :
  rreturns (GameMap.generate_map (GameMap.init w h fn)) (generated w h).
Proof.
  unfold GameMap.generate_map.
  eapply rreturns_bind; [apply generate_rooms_spec, carved_init|].
  intros m1 Hm1. eapply rreturns_bind; [by apply connect_rooms_spec|].
  intros m2 [Hm2 _]. eapply rreturns_bind; [by apply place_stairs_spec|].
  intros m3 Hm3. by apply set_spawn_point_spec.
Qed.

(** C3. On the floor a single call of [generate_map] makes from a fresh grid,
    no two rooms at different places of the room list intersect, under the
    strict overlap test of [Room.intersects]. *)
Theorem generated_rooms_disjoint (w h fn : Z) (g g' : RNG) (m : GameMap.t) :
  GameMap.generate_map (GameMap.init w h fn) g = Returns (m, g') →
  ∀ (i j : nat) (ri rj : Room.t),
    i ≠ j → GameMap.rooms m !! i = Some ri → GameMap.rooms m !! j = Some rj →
    Room.intersects ri rj = false.
Proof.
  intros Hgen.
  pose proof (rreturns_elim _ _ _ _ _ (generate_map_spec w h fn) Hgen) as Hm.
  exact (generated_disjoint w h m Hm).
Qed.

Lemma generated_rooms_disjoint_witness :
  ∃ m g',
    GameMap.generate_map (GameMap.init 40 20 1) two_room_draws = Returns (m, g') ∧
    GameMap.rooms m = [Room.Build 1 1 5 5; Room.Build 21 2 8 7] ∧
    ∀ (i j : nat) (ri rj : Room.t),
      i ≠ j → GameMap.rooms m !! i = Some ri → GameMap.rooms m !! j = Some rj →
      Room.intersects ri rj = false.
Proof.
  destruct (GameMap.generate_map (GameMap.init 40 20 1) two_room_draws)
    as [[m g']| |] eqn:E; [|vm_compute in E; discriminate..].
  exists m, g'. split; [reflexivity|].
  split; [vm_compute in E; by injection E as <- _|].
  exact (generated_rooms_disjoint 40 20 1 two_room_draws g' m E).
Defined.

(** Touching edges do not count: two rooms side by side do not intersect. *)
Example intersects_touching :
  Room.intersects (Room.Build 1 1 5 5) (Room.Build 6 1 5 5) = false.
Proof. reflexivity. Qed.

(** C1. On the floor a single call of [generate_map] makes from a fresh grid,
    when the room list has at least two rooms: a stairs coordinate is
    recorded, the tile there is [STAIRS_DOWN], it is the only tile of that
    kind (by count over the whole grid and by position), and the coordinate
    is an interior tile of a room at an index of at least 1, a room that is
    not [rooms[0]] and does not even touch the stairs tile with it. *)
Theorem generated_stairs_unique (w h fn : Z) (g g' : RNG) (m : GameMap.t) :
  GameMap.generate_map (GameMap.init w h fn) g = Returns (m, g') →
  (2 ≤ length (GameMap.rooms m))%nat →
  ∃ sx sy : Z,
    GameMap.stairs_position m = Some (sx, sy) ∧
    GameMap.get_tile m sx sy = Returns (Some STAIRS_DOWN) ∧
    count_tiles STAIRS_DOWN (GameMap.tiles m) = 1%nat ∧
    (∀ x y, GameMap.get_tile m x y = Returns (Some STAIRS_DOWN) → (x, y) = (sx, sy)) ∧
    ∃ (i : nat) (r : Room.t),
      (1 ≤ i)%nat ∧ GameMap.rooms m !! i = Some r ∧
      (sx, sy) ∈ Room.get_inner_area r ∧
      ∀ r0, GameMap.rooms m !! 0%nat = Some r0 →
            r ≠ r0 ∧ Room.contains_point r0 sx sy = false.
Proof.
  intros Hgen Htwo.
  pose proof (rreturns_elim _ _ _ _ _ (generate_map_spec w h fn) Hgen)
    as [Hw Hh Hg Hfit Hdis Hst].
  destruct (Hst Htwo) as (sx & sy & Hpos & Htile & Hcount & Huniq & i & r & Hi & Hr & Hin).
  exists sx, sy.
  assert (room_fits w h r) as Hrfit.
  { rewrite Forall_lookup in Hfit. by apply (Hfit _ _ Hr). }
  pose proof Hin as Hin'. apply elem_of_inner_area in Hin'.
  assert (GameMap.is_valid_position m sx sy = true) as Hvalid.
  { unfold GameMap.is_valid_position, room_fits in *.
    rewrite !andb_true_iff, !Z.leb_le, !Z.ltb_lt. lia. }
  split; [done|]. split.
  { unfold GameMap.get_tile. by rewrite Hvalid, Htile. }
  split; [done|]. split.
  { intros x y. unfold GameMap.get_tile.
    destruct (GameMap.is_valid_position m x y) eqn:Hv; simpl; [|done].
    unfold GameMap.is_valid_position in Hv.
    rewrite !andb_true_iff, !Z.leb_le, !Z.ltb_lt in Hv.
    destruct (GameMap.tile_at (GameMap.tiles m) x y) as [t| |] eqn:Ht; simpl; try done.
    intros [= ->]. apply Huniq; [lia..|done]. }
  exists i, r. split; [done|]. split; [done|]. split; [done|].
  intros r0 Hr0.
  assert (Room.intersects r r0 = false) as Hrr0 by (apply (Hdis i 0%nat); [lia|done..]).
  unfold Room.intersects in Hrr0. unfold room_fits in Hrfit.
  rewrite !andb_false_iff, !Z.ltb_ge in Hrr0.
  split.
  - intros ->. lia.
  - unfold Room.contains_point.
    rewrite !andb_false_iff, Z.leb_gt, Z.leb_gt, !Z.ltb_ge. lia.
Qed.

Lemma generated_stairs_unique_witness :
  ∃ m g',
    GameMap.generate_map (GameMap.init 40 20 1) two_room_draws = Returns (m, g') ∧
    (2 ≤ length (GameMap.rooms m))%nat ∧
    GameMap.stairs_position m = Some (22, 3) ∧
    ∃ sx sy : Z,
      GameMap.stairs_position m = Some (sx, sy) ∧
      GameMap.get_tile m sx sy = Returns (Some STAIRS_DOWN) ∧
      count_tiles STAIRS_DOWN (GameMap.tiles m) = 1%nat ∧
      (∀ x y, GameMap.get_tile m x y = Returns (Some STAIRS_DOWN) → (x, y) = (sx, sy)) ∧
      ∃ (i : nat) (r : Room.t),
        (1 ≤ i)%nat ∧ GameMap.rooms m !! i = Some r ∧
        (sx, sy) ∈ Room.get_inner_area r ∧
        ∀ r0, GameMap.rooms m !! 0%nat = Some r0 →
              r ≠ r0 ∧ Room.contains_point r0 sx sy = false.
Proof.
  destruct (GameMap.generate_map (GameMap.init 40 20 1) two_room_draws)
    as [[m g']| |] eqn:E; [|vm_compute in E; discriminate..].
  exists m, g'. split; [reflexivity|].
  assert (2 ≤ length (GameMap.rooms m))%nat as Htwo.
  { pose proof E as E'. vm_compute in E'. injection E' as <- _. simpl. lia. }
  split; [exact Htwo|].
  split; [vm_compute in E; by injection E as <- _|].
  exact (generated_stairs_unique 40 20 1 two_room_draws g' m E Htwo).
Defined.

(** * Further properties of the code *)

(** ** The tile catalogue *)

(** X1. On every tile kind [is_walkable] and [is_transparent] agree (only
    walls block movement, and only walls block sight), every symbol is one
    character long, and different kinds have different symbols. *)
Theorem tile_catalogue (t t' : TileType) :
  TileProperties.is_walkable t = TileProperties.is_transparent t ∧
  String.length (TileProperties.get_symbol t) = 1%nat ∧
  (TileProperties.get_symbol t = TileProperties.get_symbol t' ↔ t = t').
Proof.
  split; [by destruct t|]. split; [by destruct t|].
  split; [|by intros ->].
  destruct t, t'; simpl; intros H; try done; discriminate H.
Qed.

(** ** Rooms *)

(** X2. [intersects] is symmetric. *)
Theorem room_intersects_symmetric (a b : Room.t) :
  Room.intersects a b = Room.intersects b a.
Proof.
  apply eq_true_iff_eq. unfold Room.intersects.
  rewrite !andb_true_iff, !Z.ltb_lt. lia.
Qed.

(** X3. Two rooms that contain a common point intersect; for rooms of
    positive width and height the converse holds too, so [intersects] is
    then exactly sharing a point (border included). *)
Theorem room_intersects_common_point (a b : Room.t) :
  ((∃ px py, Room.contains_point a px py = true ∧ Room.contains_point b px py = true) →
   Room.intersects a b = true) ∧
  (0 < Room.width a → 0 < Room.height a → 0 < Room.width b → 0 < Room.height b →
   Room.intersects a b = true →
   ∃ px py, Room.contains_point a px py = true ∧ Room.contains_point b px py = true).
Proof.
  unfold Room.intersects, Room.contains_point. split.
  - intros (px & py & Ha & Hb).
    rewrite !andb_true_iff, !Z.leb_le, !Z.ltb_lt in *. lia.
  - intros Hwa Hha Hwb Hhb Hi.
    exists (Z.max (Room.x a) (Room.x b)), (Z.max (Room.y a) (Room.y b)).
    rewrite !andb_true_iff, !Z.leb_le, !Z.ltb_lt in *. lia.
Qed.

Lemma room_intersects_common_point_witness :
  let a := Room.Build 1 1 5 5 in
  let b := Room.Build 5 5 3 3 in
  0 < Room.width a ∧ 0 < Room.height a ∧ 0 < Room.width b ∧ 0 < Room.height b ∧
  Room.intersects a b = true ∧
  ∃ px py, Room.contains_point a px py = true ∧ Room.contains_point b px py = true.
Proof.
  intros a b.
  assert (0 < Room.width a) as H1 by reflexivity.
  assert (0 < Room.height a) as H2 by reflexivity.
  assert (0 < Room.width b) as H3 by reflexivity.
  assert (0 < Room.height b) as H4 by reflexivity.
  assert (Room.intersects a b = true) as H5 by reflexivity.
  repeat (split; [assumption|]).
  exact (proj2 (room_intersects_common_point a b) H1 H2 H3 H4 H5).
Defined.

Lemma length_bind_const {A B} (f : A → list B) (n : nat) (l : list A) :
  (∀ a, a ∈ l → length (f a) = n) → length (l ≫= f) = (length l * n)%nat.
Proof.
  induction l as [|a l IH]; intros Hf; [done|].
  rewrite bind_cons, length_app, Hf by left. simpl.
  rewrite IH; [lia|]. intros b Hb. apply Hf. by right.
Qed.

Lemma NoDup_range (a b : Z) : NoDup (range a b).
Proof.
  unfold range. apply NoDup_fmap_2; [|apply NoDup_seq].
  intros i j Hij. lia.
Qed.

(** X4. [get_inner_area] lists each tile strictly inside the border once:
    [(width - 2) * (height - 2)] tiles (none when the room is at most two
    wide or high), all of them points of the room, none on its border. *)
Theorem inner_area_tiles (r : Room.t) :
  length (Room.get_inner_area r)
    = (Z.to_nat (Room.height r - 2) * Z.to_nat (Room.width r - 2))%nat ∧
  NoDup (Room.get_inner_area r) ∧
  (∀ px py, (px, py) ∈ Room.get_inner_area r ↔
     Room.contains_point r px py = true ∧
     px ≠ Room.x r ∧ px ≠ Room.x r + Room.width r - 1 ∧
     py ≠ Room.y r ∧ py ≠ Room.y r + Room.height r - 1).
Proof.
  split; [|split].
  - unfold Room.get_inner_area.
    rewrite (length_bind_const _ (Z.to_nat (Room.width r - 2))).
    + rewrite length_range. f_equal. lia.
    + intros py _. rewrite (length_bind_const _ 1%nat); [|done].
      rewrite length_range. lia.
  - unfold Room.get_inner_area. apply NoDup_bind.
    + intros y1 y2 [px py] _ _
        (x1 & ->%list_elem_of_singleton & _)%list_elem_of_bind
        (x2 & [= _ ->]%list_elem_of_singleton & _)%list_elem_of_bind.
      done.
    + intros py _. apply NoDup_bind.
      * intros x1 x2 p _ _ ->%list_elem_of_singleton [= ->]%list_elem_of_singleton. done.
      * intros px _. apply NoDup_singleton.
      * apply NoDup_range.
    + apply NoDup_range.
  - intros px py. rewrite elem_of_inner_area. unfold Room.contains_point.
    rewrite !andb_true_iff, !Z.leb_le, !Z.ltb_lt. lia.
Qed.

(** ** Reading and writing single tiles *)

Lemma valid_position_bounds (m : GameMap.t) (x y : Z) :
  GameMap.is_valid_position m x y = true ↔
  0 ≤ x < GameMap.width m ∧ 0 ≤ y < GameMap.height m.
Proof.
  unfold GameMap.is_valid_position.
  rewrite !andb_true_iff, !Z.leb_le, !Z.ltb_lt. lia.
Qed.

(** X5. On a well-formed grid [set_tile] and [get_tile] never raise.  Within
    bounds [set_tile] returns true, the grid stays well-formed, [get_tile]
    at that position then gives the tile written and at every other position
    what it gave before; out of bounds [set_tile] returns false and changes
    nothing, and [get_tile] gives [None]. *)
Theorem set_tile_get_tile (m : GameMap.t) (x y : Z) (tile_type : TileType) :
  GameMap.wf m →
  (GameMap.is_valid_position m x y = true →
   ∃ m', GameMap.set_tile m x y tile_type = Returns (true, m') ∧
         GameMap.wf m' ∧
         GameMap.width m' = GameMap.width m ∧ GameMap.height m' = GameMap.height m ∧
         GameMap.get_tile m' x y = Returns (Some tile_type) ∧
         ∀ x' y', (x', y') ≠ (x, y) → GameMap.get_tile m' x' y' = GameMap.get_tile m x' y') ∧
  (GameMap.is_valid_position m x y = false →
   GameMap.set_tile m x y tile_type = Returns (false, m) ∧
   GameMap.get_tile m x y = Returns None).
Proof.
  intros Hwf. split.
  - intros Hv. pose proof Hv as [Hx Hy]%valid_position_bounds.
    unfold GameMap.set_tile. rewrite Hv. simpl.
    destruct (tile_assign_returns _ _ _ x y tile_type Hwf Hx Hy) as (row & _ & _ & Heq).
    rewrite Heq. simpl. eexists. split; [done|].
    split; [exact (tile_assign_grid _ _ _ x y tile_type Hwf Hx Hy _ Heq)|].
    split; [done|]. split; [done|]. split.
    + unfold GameMap.get_tile. simpl. fold (GameMap.is_valid_position m x y).
      change (GameMap.is_valid_position (GameMap.with_tiles m _) x y)
        with (GameMap.is_valid_position m x y).
      rewrite Hv. simpl.
      by rewrite (tile_assign_read _ _ _ x y tile_type Hwf Hx Hy _ Heq).
    + intros x' y' Hne. unfold GameMap.get_tile.
      change (GameMap.is_valid_position (GameMap.with_tiles m _) x' y')
        with (GameMap.is_valid_position m x' y').
      destruct (GameMap.is_valid_position m x' y') eqn:Hv'; simpl; [|done].
      apply valid_position_bounds in Hv' as [Hx' Hy'].
      by rewrite (tile_assign_other _ _ _ x y tile_type Hwf Hx Hy _ x' y' Heq).
  - intros Hv. unfold GameMap.set_tile, GameMap.get_tile. by rewrite Hv.
Qed.

Lemma set_tile_get_tile_witness :
  GameMap.wf corridor_map ∧
  GameMap.is_valid_position corridor_map 0 1 = true ∧
  ∃ m', GameMap.set_tile corridor_map 0 1 STAIRS_UP = Returns (true, m') ∧
        GameMap.wf m' ∧
        GameMap.width m' = GameMap.width corridor_map ∧
        GameMap.height m' = GameMap.height corridor_map ∧
        GameMap.get_tile m' 0 1 = Returns (Some STAIRS_UP) ∧
        ∀ x' y', (x', y') ≠ (0, 1) →
                 GameMap.get_tile m' x' y' = GameMap.get_tile corridor_map x' y'.
Proof.
  assert (GameMap.is_valid_position corridor_map 0 1 = true) as Hv by reflexivity.
  split; [exact corridor_map_wf|]. split; [exact Hv|].
  exact (proj1 (set_tile_get_tile corridor_map 0 1 STAIRS_UP corridor_map_wf) Hv).
Defined.

(** X6. On a well-formed grid [is_walkable] never raises; it is true exactly
    at the positions within bounds whose tile is not a wall, so it is false
    at every position out of bounds. *)
Theorem is_walkable_not_wall (m : GameMap.t) (x y : Z) :
  GameMap.wf m →
  ∃ b : bool,
    GameMap.is_walkable m x y = Returns b ∧
    (b = true ↔
     GameMap.is_valid_position m x y = true ∧
     ∃ t, GameMap.get_tile m x y = Returns (Some t) ∧ t ≠ WALL).
Proof.
  intros Hwf. unfold GameMap.is_walkable, GameMap.get_tile.
  destruct (GameMap.is_valid_position m x y) eqn:Hv; simpl.
  - destruct (tile_at_valid m x y Hwf Hv) as (row & t & _ & _ & ->). simpl.
    eexists. split; [done|]. split.
    + intros Ht. split; [done|]. exists t. split; [done|]. by intros ->.
    + intros [_ (t' & [= <-] & Ht)]. by destruct t.
  - exists false. split; [done|]. split; [done|]. by intros [? _].
Qed.

Lemma is_walkable_not_wall_witness :
  GameMap.wf corridor_map ∧
  ∃ b : bool,
    GameMap.is_walkable corridor_map 5 1 = Returns b ∧
    (b = true ↔
     GameMap.is_valid_position corridor_map 5 1 = true ∧
     ∃ t, GameMap.get_tile corridor_map 5 1 = Returns (Some t) ∧ t ≠ WALL).
Proof.
  split; [exact corridor_map_wf|].
  exact (is_walkable_not_wall corridor_map 5 1 corridor_map_wf).
Defined.

(** ** Line of sight *)

Lemma los_vars_in_box (l : Bresenham.line) (k : nat) :
  (k ≤ Bresenham.span l)%nat →
  Z.min (Bresenham.x1 l) (Bresenham.x2 l) ≤ (los_vars l k).1.1
    ≤ Z.max (Bresenham.x1 l) (Bresenham.x2 l) ∧
  Z.min (Bresenham.y1 l) (Bresenham.y2 l) ≤ (los_vars l k).1.2
    ≤ Z.max (Bresenham.y1 l) (Bresenham.y2 l).
Proof.
  intros Hk. pose proof (on_line_vars l k Hk) as (rx & ry & Hx & Hy & Hrx & Hry & _).
  destruct (los_signs l) as (Hdx & Hdy & Hsx & Hsy & Hx1 & Hy1).
  split.
  - destruct Hsx as [Hsx|Hsx]; rewrite Hsx in *; lia.
  - destruct Hsy as [Hsy|Hsy]; rewrite Hsy in *; lia.
Qed.

(** X7. During the walk of [has_line_of_sight] the loop variables [(x, y)]
    never leave the rectangle spanned by the two endpoints, and each turn of
    the loop moves to one of the eight neighbouring points. *)
Theorem line_of_sight_walk_in_box (x1 y1 x2 y2 : Z) (k : nat) :
  let l := Bresenham.Line x1 y1 x2 y2 in
  (k ≤ Bresenham.span l)%nat →
  let v := los_vars l k in
  let v' := los_vars l (S k) in
  Z.min x1 x2 ≤ v.1.1 ≤ Z.max x1 x2 ∧
  Z.min y1 y2 ≤ v.1.2 ≤ Z.max y1 y2 ∧
  ((k < Bresenham.span l)%nat →
   Z.max (Z.abs (v'.1.1 - v.1.1)) (Z.abs (v'.1.2 - v.1.2)) = 1).
Proof.
  intros l Hk v v'.
  pose proof (on_line_vars l k Hk) as Hv. fold v in Hv.
  destruct (los_signs l) as (Hdx & Hdy & Hsx & Hsy & Hx1 & Hy1).
  destruct (los_vars_in_box l k Hk) as [Hbx Hby].
  split; [exact Hbx|]. split; [exact Hby|].
  intros Hlt. destruct (on_line_advance l k v Hv Hlt) as (_ & Hfire & _).
  subst v'. unfold los_vars. rewrite Nat.iter_succ. fold (los_vars l k). fold v.
  destruct v as [[x y] err]. unfold GameMap.los_advance. simpl in Hfire |- *.
  rewrite Z.gtb_ltb.
  destruct (Z.ltb_spec (- Bresenham.dy l) (2 * err));
    destruct (Z.ltb_spec (2 * err) (Bresenham.dx l)); simpl;
    destruct Hsx as [Hsx|Hsx], Hsy as [Hsy|Hsy]; rewrite ?Hsx, ?Hsy; lia.
Qed.

Lemma line_of_sight_walk_in_box_witness :
  let l := Bresenham.Line 4 1 0 3 in
  (2 ≤ Bresenham.span l)%nat ∧
  let v := los_vars l 2 in
  let v' := los_vars l 3 in
  Z.min 4 0 ≤ v.1.1 ≤ Z.max 4 0 ∧
  Z.min 1 3 ≤ v.1.2 ≤ Z.max 1 3 ∧
  ((2 < Bresenham.span l)%nat →
   Z.max (Z.abs (v'.1.1 - v.1.1)) (Z.abs (v'.1.2 - v.1.2)) = 1).
Proof.
  intros l.
  assert (2 ≤ Bresenham.span l)%nat as H by (vm_compute; lia).
  split; [exact H|].
  exact (line_of_sight_walk_in_box 4 1 0 3 2 H).
Defined.



(** X9. From a tile that cannot be seen through (out of bounds, or a wall)
    nothing else is in sight: on a well-formed grid, for every other target
    and every [max_range], [has_line_of_sight] returns false as soon as the
    loop may run one turn. *)
Theorem line_of_sight_blocked_start (m : GameMap.t) (x1 y1 x2 y2 max_range : Z) (fuel : nat) :
  GameMap.wf m →
  (x1, y1) ≠ (x2, y2) →
  ¬ sees_through m (x1, y1) →
  (1 ≤ fuel)%nat →
  GameMap.has_line_of_sight fuel m x1 y1 x2 y2 max_range = Returns false.
Proof.
  intros Hwf Hne Hblocked Hfuel. unfold GameMap.has_line_of_sight.
  destruct (_ >? max_range); [done|].
  destruct fuel as [|fuel]; [lia|]. cbn [GameMap.los_loop].
  assert (negb (x1 =? x2) || negb (y1 =? y2) = true) as ->.
  { rewrite <- negb_andb. apply negb_true_iff, andb_false_iff.
    destruct (decide (x1 = x2)) as [->|]; [right|left]; [|lia].
    apply Z.eqb_neq. intros ->. done. }
  apply (not_iff_compat (sees_throughb_spec m (x1, y1))) in Hblocked.
  apply not_true_is_false in Hblocked. unfold sees_throughb in Hblocked. simpl in Hblocked.
  destruct (GameMap.is_valid_position m x1 y1) eqn:Hv; simpl; [|done].
  destruct (tile_at_valid m x1 y1 Hwf Hv) as (row & t & _ & _ & Ht).
  rewrite Ht in Hblocked |- *. simpl in *. by rewrite Hblocked.
Qed.

Lemma line_of_sight_blocked_start_witness :
  GameMap.wf corridor_map ∧ (0, 1) ≠ (3, 1) ∧ ¬ sees_through corridor_map (0, 1) ∧
  (1 ≤ 4)%nat ∧
  GameMap.has_line_of_sight 4 corridor_map 0 1 3 1 8 = Returns false.
Proof.
  assert ((0, 1) ≠ (3, 1)) as H1 by discriminate.
  assert (¬ sees_through corridor_map (0, 1)) as H2.
  { intros [_ (t & [= <-] & Ht)]. discriminate Ht. }
  assert (1 ≤ 4)%nat as H3 by lia.
  split; [exact corridor_map_wf|]. repeat (split; [assumption|]).
  exact (line_of_sight_blocked_start corridor_map 0 1 3 1 8 4 corridor_map_wf H1 H2 H3).
Defined.

(** ** The dungeon *)

(** X10. The floor counter stays within [1 .. max_floors]: it is there in a
    new dungeon, and [go_down_stairs], [go_up_stairs] and [reset_dungeon]
    keep it there. *)
Theorem floor_counter_in_range (d : Dungeon.t) (map_width map_height : Z) :
  let in_range d := 1 ≤ Dungeon.current_floor d ≤ Dungeon.max_floors d in
  in_range (Dungeon.init map_width map_height) ∧
  (in_range d →
   in_range (Dungeon.go_down_stairs d).2 ∧
   in_range (Dungeon.go_up_stairs d).2 ∧
   in_range (Dungeon.reset_dungeon d)).
Proof.
  cbv zeta. split; [simpl; lia|]. intros Hd.
  unfold Dungeon.go_down_stairs, Dungeon.go_up_stairs, Dungeon.reset_dungeon.
  rewrite Z.geb_leb.
  destruct (Z.leb_spec (Dungeon.max_floors d) (Dungeon.current_floor d));
    destruct (Z.leb_spec (Dungeon.current_floor d) 1); simpl; lia.
Qed.

Lemma floor_counter_in_range_witness :
  let d := (Dungeon.go_down_stairs (Dungeon.init 80 24)).2 in
  1 ≤ Dungeon.current_floor d ≤ Dungeon.max_floors d ∧
  1 ≤ Dungeon.current_floor (Dungeon.go_down_stairs d).2
    ≤ Dungeon.max_floors (Dungeon.go_down_stairs d).2 ∧
  1 ≤ Dungeon.current_floor (Dungeon.go_up_stairs d).2
    ≤ Dungeon.max_floors (Dungeon.go_up_stairs d).2 ∧
  1 ≤ Dungeon.current_floor (Dungeon.reset_dungeon d)
    ≤ Dungeon.max_floors (Dungeon.reset_dungeon d).
Proof.
  intros d.
  assert (1 ≤ Dungeon.current_floor d ≤ Dungeon.max_floors d) as H by (simpl; lia).
  split; [exact H|].
  exact (proj2 (floor_counter_in_range d 80 24) H).
Defined.

(** X11. Going down and then up, or up and then down, brings the dungeon
    back exactly as it was, whenever the first step succeeds from a counter
    within [1 .. max_floors]. *)
Theorem stairs_round_trip (d : Dungeon.t) :
  1 ≤ Dungeon.current_floor d ≤ Dungeon.max_floors d →
  ((Dungeon.go_down_stairs d).1 = true →
   Dungeon.go_up_stairs (Dungeon.go_down_stairs d).2 = (true, d)) ∧
  ((Dungeon.go_up_stairs d).1 = true →
   Dungeon.go_down_stairs (Dungeon.go_up_stairs d).2 = (true, d)).
Proof.
  intros Hd. destruct d as [mw mh fs cf mx]. simpl in Hd.
  unfold Dungeon.go_down_stairs, Dungeon.go_up_stairs, Dungeon.with_current_floor.
  simpl. rewrite !Z.geb_leb. split.
  - destruct (Z.leb_spec mx cf); simpl; [done|]. intros _.
    destruct (Z.leb_spec (cf + 1) 1); [lia|]. do 2 f_equal. lia.
  - destruct (Z.leb_spec cf 1); simpl; [done|]. intros _.
    destruct (Z.leb_spec mx (cf - 1)); [lia|]. do 2 f_equal. lia.
Qed.

Lemma stairs_round_trip_witness :
  let d := Dungeon.init 80 24 in
  1 ≤ Dungeon.current_floor d ≤ Dungeon.max_floors d ∧
  (Dungeon.go_down_stairs d).1 = true ∧
  Dungeon.go_up_stairs (Dungeon.go_down_stairs d).2 = (true, d).
Proof.
  intros d.
  assert (1 ≤ Dungeon.current_floor d ≤ Dungeon.max_floors d) as H by (simpl; lia).
  assert ((Dungeon.go_down_stairs d).1 = true) as H1 by reflexivity.
  split; [exact H|]. split; [exact H1|].
  exact (proj1 (stairs_round_trip d H) H1).
Defined.

(** X12. [get_current_floor] never raises and caches: the floor it returns
    is the one stored under [current_floor] afterwards, floors under other
    numbers and the counter are left alone, a floor that was already cached
    is returned as it is without drawing anything, and asking again returns
    the same floor and dungeon, again without a draw. *)
Theorem get_current_floor_cached (d : Dungeon.t) (g : RNG) :
  ∃ (m : GameMap.t) (d' : Dungeon.t) (g' : RNG),
    Dungeon.get_current_floor d g = Returns ((m, d'), g') ∧
    Dungeon.floors d' !! Dungeon.current_floor d = Some m ∧
    Dungeon.current_floor d' = Dungeon.current_floor d ∧
    Dungeon.max_floors d' = Dungeon.max_floors d ∧
    (∀ n, n ≠ Dungeon.current_floor d → Dungeon.floors d' !! n = Dungeon.floors d !! n) ∧
    (∀ m0, Dungeon.floors d !! Dungeon.current_floor d = Some m0 →
           m = m0 ∧ d' = d ∧ g' = g) ∧
    (∀ g2, Dungeon.get_current_floor d' g2 = Returns ((m, d'), g2)).
Proof.
  unfold Dungeon.get_current_floor.
  destruct (Dungeon.floors d !! Dungeon.current_floor d) as [m0|] eqn:Hcached.
  - exists m0, d, g. split; [done|]. split; [done|]. split; [done|]. split; [done|].
    split; [done|]. split; [by intros m1 [= <-]|].
    intros g2. by rewrite Hcached.
  - destruct (generate_map_spec (Dungeon.map_width d) (Dungeon.map_height d)
                (Dungeon.current_floor d) g) as (m & g' & Hgen & _).
    unfold Dungeon._generate_floor, mbind, rand_bind. rewrite Hgen. simpl.
    eexists m, _, g'. split; [done|]. simpl.
    split; [by rewrite lookup_insert_eq|]. split; [done|]. split; [done|].
    split; [by intros n Hn; rewrite lookup_insert_ne|].
    split; [done|].
    intros g2. by rewrite lookup_insert_eq.
Qed.

(** X13. [reset_dungeon] drops every cached floor and puts the counter back
    to 1; the next [get_current_floor] generates floor 1 anew, from the
    draws it is given, and caches it as the only floor. *)
Theorem reset_dungeon_regenerates (d : Dungeon.t) (g : RNG) :
  Dungeon.floors (Dungeon.reset_dungeon d) = ∅ ∧
  Dungeon.current_floor (Dungeon.reset_dungeon d) = 1 ∧
  ∃ (m : GameMap.t) (d' : Dungeon.t) (g' : RNG),
    GameMap.generate_map (GameMap.init (Dungeon.map_width d) (Dungeon.map_height d) 1) g
      = Returns (m, g') ∧
    Dungeon.get_current_floor (Dungeon.reset_dungeon d) g = Returns ((m, d'), g') ∧
    Dungeon.floors d' = {[ 1 := m ]} ∧
    Dungeon.current_floor d' = 1.
Proof.
  split; [done|]. split; [done|].
  destruct (generate_map_spec (Dungeon.map_width d) (Dungeon.map_height d) 1 g)
    as (m & g' & Hgen & _).
  exists m. eexists _, g'. split; [exact Hgen|].
  unfold Dungeon.get_current_floor, Dungeon.reset_dungeon. simpl.
  rewrite lookup_empty.
  unfold Dungeon._generate_floor, mbind, rand_bind. simpl. rewrite Hgen. simpl.
  split; [done|]. simpl. split; [|done].
  by rewrite insert_empty.
Qed.

(** ** What generation leaves on the floor *)

Lemma returns_for_in_acc {S X} (xs : list X) (body : S → X → outcome S)
    (I : list X → S → Prop) (s : S) :
  (∀ pre x post s, xs = pre ++ x :: post → I pre s → returns (body s x) (I (pre ++ [x]))) →
  I [] s → returns (for_in xs body s) (I xs).
Proof.
  intros Hbody.
  assert (∀ post pre s, xs = pre ++ post → I pre s →
            returns (for_in post body s) (I (pre ++ post))) as Hgen.
  { induction post as [|x post IH]; intros pre s0 Hxs Hs0; simpl.
    - apply returns_ret. by rewrite app_nil_r.
    - eapply returns_bind; [by eapply Hbody|].
      intros s1 Hs1. rewrite cons_middle, app_assoc.
      apply IH; [|done]. by rewrite <- app_assoc. }
  intros Hs. by apply (Hgen xs []).
Qed.

Lemma rreturns_for_in_acc {S X} (xs : list X) (body : S → X → Rand S)
    (I : list X → S → Prop) (s : S) :
  (∀ pre x post s, xs = pre ++ x :: post → I pre s → rreturns (body s x) (I (pre ++ [x]))) →
  I [] s → rreturns (for_in xs body s) (I xs).
Proof.
  intros Hbody.
  assert (∀ post pre s, xs = pre ++ post → I pre s →
            rreturns (for_in post body s) (I (pre ++ post))) as Hgen.
  { induction post as [|x post IH]; intros pre s0 Hxs Hs0; simpl.
    - apply rreturns_ret. by rewrite app_nil_r.
    - eapply rreturns_bind; [by eapply Hbody|].
      intros s1 Hs1. rewrite cons_middle, app_assoc.
      apply IH; [|done]. by rewrite <- app_assoc. }
  intros Hs. by apply (Hgen xs []).
Qed.

Lemma carves_refl (w h : Z) (ts : list (list TileType)) : carves w h ts ts.
Proof. intros x y _ _. by left. Qed.

Lemma carves_trans (w h : Z) (ts1 ts2 ts3 : list (list TileType)) :
  carves w h ts1 ts2 → carves w h ts2 ts3 → carves w h ts1 ts3.
Proof.
  intros H12 H23 x y Hx Hy.
  destruct (H23 x y Hx Hy) as [H|H]; [|by right].
  rewrite H. by apply H12.
Qed.

Lemma carves_floor (w h : Z) (ts ts' : list (list TileType)) (x y : Z) :
  carves w h ts ts' → 0 ≤ x < w → 0 ≤ y < h →
  GameMap.tile_at ts x y = Returns FLOOR → GameMap.tile_at ts' x y = Returns FLOOR.
Proof. intros H Hx Hy Ht. destruct (H x y Hx Hy) as [->|[? _]]; done. Qed.

Lemma carves_border (w h : Z) (ts ts' : list (list TileType)) (x y : Z) :
  carves w h ts ts' → 0 ≤ x < w → 0 ≤ y < h → on_border w h x y →
  GameMap.tile_at ts' x y = GameMap.tile_at ts x y.
Proof.
  intros H Hx Hy Hb. destruct (H x y Hx Hy) as [->|[_ ?]]; [done|].
  unfold on_border in Hb. lia.
Qed.

Lemma carving_start (w h : Z) (m : GameMap.t) (fn : Z) :
  furnished w h fn m → carving w h (GameMap.tiles m) (GameMap.tiles m).
Proof. intros Hm. split; [apply Hm|]. split; [apply Hm|apply carves_refl]. Qed.

Lemma tile_assign_carving (w h : Z) (ts0 ts : list (list TileType)) (x y : Z) :
  carving w h ts0 ts → 0 < x < w - 1 → 0 < y < h - 1 →
  returns (GameMap.tile_assign ts x y FLOOR)
    (λ ts', carving w h ts0 ts' ∧ carves w h ts ts' ∧
            GameMap.tile_at ts' x y = Returns FLOOR).
Proof.
  intros (Hg & Hk & Hc) Hx Hy.
  assert (0 ≤ x < w) as Hx' by lia. assert (0 ≤ y < h) as Hy' by lia.
  destruct (tile_assign_returns w h ts x y FLOOR Hg Hx' Hy') as (row & _ & _ & Heq).
  eexists. split; [exact Heq|].
  assert (carves w h ts (<[Z.to_nat y:=<[Z.to_nat x:=FLOOR]> row]> ts)) as Hstep.
  { intros x1 y1 Hx1 Hy1. destruct (decide ((x1, y1) = (x, y))) as [[= -> ->]|Hne].
    - right. split; [|done]. exact (tile_assign_read w h ts x y FLOOR Hg Hx' Hy' _ Heq).
    - left. exact (tile_assign_other w h ts x y FLOOR Hg Hx' Hy' _ x1 y1 Heq Hx1 Hy1 Hne). }
  split; [|split; [done|exact (tile_assign_read w h ts x y FLOOR Hg Hx' Hy' _ Heq)]].
  split; [exact (tile_assign_grid w h ts x y FLOOR Hg Hx' Hy' _ Heq)|].
  split; [|by eapply carves_trans].
  eapply (tile_assign_keeps w h ts x y FLOOR Hg Hx' Hy'); [exact Hk|by right|exact Heq].
Qed.

Lemma furnished_with_tiles (w h fn : Z) (m : GameMap.t) (ts : list (list TileType)) :
  furnished w h fn m → carving w h (GameMap.tiles m) ts →
  furnished w h fn (GameMap.with_tiles m ts).
Proof.
  intros Hm (Hg & Hk & Hc). pose proof Hm as [].
  split; simpl; try done.
  - intros x y Hx Hy Hb. rewrite (carves_border w h _ _ x y Hc Hx Hy Hb). auto.
  - intros r px py Hr Hp.
    assert (0 ≤ px < w ∧ 0 ≤ py < h) as [Hx Hy].
    { rewrite Forall_forall in furnished_rooms0.
      destruct (furnished_rooms0 r Hr) as [Hfit _].
      apply elem_of_inner_area in Hp. unfold room_fits in Hfit. lia. }
    eapply carves_floor; eauto.
Qed.

Lemma carve_room_furnished (w h fn : Z) (m : GameMap.t) (room : Room.t) :
  furnished w h fn m → room_fits w h room →
  returns (GameMap._carve_room m room)
    (λ m', ∃ ts, m' = GameMap.with_tiles m ts ∧ carving w h (GameMap.tiles m) ts ∧
                 ∀ px py, (px, py) ∈ Room.get_inner_area room →
                          GameMap.tile_at ts px py = Returns FLOOR).
Proof.
  intros Hm Hfit. pose proof Hfit as (Hw & Hh & Hx1 & Hx2 & Hy1 & Hy2).
  unfold GameMap._carve_room.
  set (xs := range (Room.x room + 1) (Room.x room + Room.width room - 1)).
  set (ys := range (Room.y room + 1) (Room.y room + Room.height room - 1)).
  eapply returns_bind.
  - apply (returns_for_in_acc ys _
      (λ pre ts, carving w h (GameMap.tiles m) ts ∧
                 ∀ px py, py ∈ pre → px ∈ xs → GameMap.tile_at ts px py = Returns FLOOR)).
    + intros pre y post ts Hys [Hc Hdone].
      assert (y ∈ ys) as Hy%elem_of_range
        by (rewrite Hys; apply elem_of_app; right; left).
      assert (∀ py, py ∈ pre → 0 ≤ py < h) as Hpre.
      { intros py Hpy. assert (py ∈ ys) as ?%elem_of_range by (rewrite Hys; apply elem_of_app; by left).
        lia. }
      eapply returns_mono.
      * apply (returns_for_in_acc xs _
          (λ pre' ts', carving w h (GameMap.tiles m) ts' ∧
             (∀ px py, py ∈ pre → px ∈ xs → GameMap.tile_at ts' px py = Returns FLOOR) ∧
             ∀ px, px ∈ pre' → GameMap.tile_at ts' px y = Returns FLOOR)).
        -- intros pre' x post' ts' Hxs (Hc' & Hrows & Hcells).
           assert (x ∈ xs) as Hx%elem_of_range
             by (rewrite Hxs; apply elem_of_app; right; left).
           assert (∀ px, px ∈ pre' → 0 ≤ px < w) as Hpre'.
           { intros px Hpx.
             assert (px ∈ xs) as ?%elem_of_range
               by (rewrite Hxs; apply elem_of_app; by left).
             lia. }
           eapply returns_mono; [apply (tile_assign_carving w h _ ts' x y Hc'); lia|].
           intros ts'' (Hc'' & Hstep & Hxy). split; [done|]. split.
           ++ intros px py Hpy Hpx. pose proof Hpx as ?%elem_of_range.
              eapply carves_floor; [exact Hstep|lia|by apply Hpre|by apply Hrows].
           ++ intros px [Hpx| ->%list_elem_of_singleton]%elem_of_app; [|done].
              eapply carves_floor; [exact Hstep|by apply Hpre'|lia|by apply Hcells].
        -- split; [done|]. split; [done|]. intros px Hpx. by apply elem_of_nil in Hpx.
      * intros ts' (Hc' & Hrows & Hcells). split; [done|].
        intros px py [Hpy| ->%list_elem_of_singleton]%elem_of_app Hpx; auto.
    + split; [by eapply carving_start|]. intros px py Hpy. by apply elem_of_nil in Hpy.
  - intros ts [Hc Hdone]. apply returns_ret. exists ts. split; [done|]. split; [done|].
    intros px py Hp%elem_of_inner_area. apply Hdone; apply elem_of_range; lia.
Qed.

Lemma furnished_init (w h fn : Z) : furnished w h fn (GameMap.init w h fn).
Proof.
  split; simpl; [done|done|done| | |constructor| |done|done| | ].
  - split; [by rewrite length_replicate|].
    apply Forall_replicate. by rewrite length_replicate.
  - apply Forall_replicate, Forall_replicate. by left.
  - intros i j ri rj _ Hi. by rewrite lookup_nil in Hi.
  - intros x y Hx Hy _. unfold GameMap.tile_at, getitem.
    rewrite length_replicate, py_index_nonneg by lia.
    rewrite lookup_replicate_2 by lia. simpl.
    rewrite length_replicate, py_index_nonneg by lia.
    by rewrite lookup_replicate_2 by lia.
  - intros r px py Hr. by apply elem_of_nil in Hr.
Qed.

Lemma tunnel_cell_carving (w h : Z) (m : GameMap.t) (ts0 ts : list (list TileType)) (x y : Z) :
  GameMap.width m = w → GameMap.height m = h → carving w h ts0 ts →
  returns (GameMap.tunnel_cell m ts x y) (carving w h ts0).
Proof.
  intros Hw Hh Hts. unfold GameMap.tunnel_cell.
  destruct ((0 <? x) && (x <? GameMap.width m - 1) && (0 <? y) && (y <? GameMap.height m - 1))
    eqn:Hguard.
  - rewrite !andb_true_iff, !Z.ltb_lt in Hguard.
    eapply returns_mono; [apply (tile_assign_carving w h ts0 ts x y Hts); lia|].
    by intros ts' [? _].
  - by apply returns_ret.
Qed.

Lemma horizontal_tunnel_furnished (w h fn : Z) (m : GameMap.t) (x_start x_end y : Z) :
  furnished w h fn m →
  returns (GameMap._create_horizontal_tunnel m x_start x_end y)
    (λ m', furnished w h fn m' ∧ GameMap.rooms m' = GameMap.rooms m).
Proof.
  intros Hm. unfold GameMap._create_horizontal_tunnel.
  eapply returns_bind.
  - apply (returns_for_in _ _ (carving w h (GameMap.tiles m))); [|by eapply carving_start].
    intros ts x _ Hts. apply tunnel_cell_carving; [apply Hm..|done].
  - intros ts Hts. apply returns_ret. split; [by apply furnished_with_tiles|done].
Qed.

Lemma vertical_tunnel_furnished (w h fn : Z) (m : GameMap.t) (y_start y_end x : Z) :
  furnished w h fn m →
  returns (GameMap._create_vertical_tunnel m y_start y_end x)
    (λ m', furnished w h fn m' ∧ GameMap.rooms m' = GameMap.rooms m).
Proof.
  intros Hm. unfold GameMap._create_vertical_tunnel.
  eapply returns_bind.
  - apply (returns_for_in _ _ (carving w h (GameMap.tiles m))); [|by eapply carving_start].
    intros ts y _ Hts. apply tunnel_cell_carving; [apply Hm..|done].
  - intros ts Hts. apply returns_ret. split; [by apply furnished_with_tiles|done].
Qed.

Lemma create_corridor_furnished (w h fn : Z) (m : GameMap.t) (start end_ : Z * Z) :
  furnished w h fn m →
  rreturns (GameMap._create_corridor m start end_)
    (λ m', furnished w h fn m' ∧ GameMap.rooms m' = GameMap.rooms m).
Proof.
  intros Hm. unfold GameMap._create_corridor.
  eapply rreturns_bind; [apply rreturns_coin|].
  intros [] _.
  - eapply rreturns_bind; [apply rreturns_lift, horizontal_tunnel_furnished, Hm|].
    intros m1 [Hm1 Hr1]. apply rreturns_lift.
    eapply returns_mono; [by apply vertical_tunnel_furnished|].
    intros m2 [Hm2 Hr2]. split; [done|congruence].
  - eapply rreturns_bind; [apply rreturns_lift, vertical_tunnel_furnished, Hm|].
    intros m1 [Hm1 Hr1]. apply rreturns_lift.
    eapply returns_mono; [by apply horizontal_tunnel_furnished|].
    intros m2 [Hm2 Hr2]. split; [done|congruence].
Qed.

Lemma connect_rooms_furnished (w h fn : Z) (m : GameMap.t) :
  furnished w h fn m →
  rreturns (GameMap._connect_rooms m)
    (λ m', furnished w h fn m' ∧ GameMap.rooms m' = GameMap.rooms m).
Proof.
  intros Hm. unfold GameMap._connect_rooms.
  destruct (Z.of_nat (length (GameMap.rooms m)) <? 2); [by apply rreturns_ret|].
  apply (rreturns_for_in _ _
           (λ m', furnished w h fn m' ∧ GameMap.rooms m' = GameMap.rooms m)); [|done].
  intros m' i Hi%elem_of_range [Hm' Hrooms]. unfold GameMap.connect_pair.
  eapply rreturns_bind.
  { apply rreturns_lift, getitem_returns. rewrite Hrooms. lia. }
  intros room1 _. eapply rreturns_bind.
  { apply rreturns_lift, getitem_returns. rewrite Hrooms. lia. }
  intros room2 _.
  eapply rreturns_mono; [by apply create_corridor_furnished|].
  intros m2 [Hm2 Hr2]. split; [done|congruence].
Qed.

Lemma room_attempt_furnished (w h fn : Z) (m : GameMap.t) :
  furnished w h fn m →
  rreturns (GameMap.room_attempt m)
    (λ m', furnished w h fn m' ∧
           (length (GameMap.rooms m') ≤ S (length (GameMap.rooms m)))%nat).
Proof.
  intros Hm. unfold GameMap.room_attempt.
  eapply rreturns_bind; [by apply (rreturns_randint 5 15)|].
  intros room_width Hrw. cbv beta in Hrw.
  eapply rreturns_bind; [by apply (rreturns_randint 5 15)|].
  intros room_height Hrh. cbv beta in Hrh. cbv zeta.
  destruct (Z.leb_spec (GameMap.width m - room_width - 1) 1) as [|Hmx];
    [apply rreturns_ret; split; [done|lia]|].
  destruct (Z.leb_spec (GameMap.height m - room_height - 1) 1) as [|Hmy];
    [apply rreturns_ret; split; [done|lia]|].
  simpl.
  eapply rreturns_bind; [apply rreturns_randint; lia|].
  intros room_x Hx. cbv beta in Hx.
  eapply rreturns_bind; [apply rreturns_randint; lia|].
  intros room_y Hy. cbv beta in Hy.
  destruct (existsb _ (GameMap.rooms m)) eqn:Hex;
    [apply rreturns_ret; split; [done|lia]|].
  set (new_room := Room.Build room_x room_y room_width room_height) in *.
  assert (room_fits w h new_room) as Hfit.
  { destruct Hm as [<- <- _ _ _ _ _ _ _ _ _]. unfold room_fits. simpl. lia. }
  eapply rreturns_bind; [by apply rreturns_lift, (carve_room_furnished w h fn)|].
  intros m' (ts & -> & Hts & Hfloor). apply rreturns_ret.
  pose proof (furnished_with_tiles w h fn m ts Hm Hts) as [].
  simpl in *. split; [|rewrite length_app; simpl; lia].
  split; simpl; try done.
  - apply Forall_app. split; [done|]. constructor; [|done]. simpl. split; [done|lia].
  - by apply disjoint_rooms_snoc.
  - intros r px py [Hr| ->%list_elem_of_singleton]%elem_of_app Hp; [eauto|].
    by apply Hfloor.
Qed.

Lemma generate_rooms_furnished (w h fn : Z) (m : GameMap.t) :
  furnished w h fn m →
  rreturns (GameMap._generate_rooms m)
    (λ m', furnished w h fn m' ∧
           (length (GameMap.rooms m') ≤ length (GameMap.rooms m) + 12)%nat).
Proof.
  intros Hm. unfold GameMap._generate_rooms.
  eapply rreturns_bind; [by apply (rreturns_randint 6 12)|].
  intros num_rooms Hnum. cbv beta in Hnum.
  eapply rreturns_mono.
  - apply (rreturns_for_in_acc _ _
      (λ pre m', furnished w h fn m' ∧
                 (length (GameMap.rooms m') ≤ length (GameMap.rooms m) + length pre)%nat)).
    + intros pre i post m' _ [Hm' Hlen].
      eapply rreturns_mono; [by apply room_attempt_furnished|].
      intros m'' [Hm'' Hlen'']. split; [done|]. rewrite length_app. simpl. lia.
    + split; [done|]. simpl. lia.
  - intros m' [Hm' Hlen]. split; [done|]. rewrite length_range in Hlen. lia.
Qed.

Lemma wall_or_floor_kinds (ts : list (list TileType)) :
  Forall (Forall wall_or_floor) ts → Forall (Forall (λ t, t ≠ STAIRS_UP)) ts.
Proof.
  intros H. eapply Forall_impl; [exact H|]. intros row Hrow.
  eapply Forall_impl; [exact Hrow|]. by intros t [-> | ->].
Qed.

Lemma inner_area_disjoint (r r' : Room.t) (px py : Z) :
  Room.intersects r r' = false →
  (px, py) ∈ Room.get_inner_area r → (px, py) ∈ Room.get_inner_area r' → False.
Proof.
  intros Hdis H1%elem_of_inner_area H2%elem_of_inner_area.
  unfold Room.intersects in Hdis. rewrite !andb_false_iff, !Z.ltb_ge in Hdis. lia.
Qed.

Lemma place_stairs_stocked (w h fn : Z) (m : GameMap.t) :
  furnished w h fn m → (length (GameMap.rooms m) ≤ 12)%nat →
  rreturns (GameMap._place_stairs m)
    (λ m', stocked w h fn m' ∧ GameMap.spawn_point m' = None).
Proof.
  intros Hm Hcount. pose proof Hm as [Hw Hh Hfn Hg Hk Hfit Hdis Hsp Hspawn Hborder Hint].
  unfold GameMap._place_stairs.
  destruct (Z.ltb_spec (Z.of_nat (length (GameMap.rooms m))) 2) as [Hfew|Hmany].
  { apply rreturns_ret. split; [|done]. split; try done.
    - by apply wall_or_floor_kinds.
    - intros r px py Hr Hp. left. eauto.
    - intros r0 px py Hr0 Hp. rewrite Hsp. split; [|done].
      eapply Hint; [|done]. by eapply list_elem_of_lookup_2. }
  eapply rreturns_bind.
  { apply rreturns_choice.
    destruct (GameMap.rooms m) as [|r0 [|r1 rs]]; simpl in *; [lia..|done]. }
  intros stair_room Hroom. cbv beta in Hroom.
  apply list_elem_of_lookup in Hroom as [i0 Hi0]. rewrite lookup_drop in Hi0.
  assert (room_fits w h stair_room) as Hsfit.
  { rewrite Forall_lookup in Hfit. by apply (Hfit _ _ Hi0). }
  assert ((Room.x stair_room + 1, Room.y stair_room + 1) ∈ Room.get_inner_area stair_room)
    as Hnonempty.
  { apply elem_of_inner_area. unfold room_fits in Hsfit. lia. }
  cbv zeta.
  destruct (Room.get_inner_area stair_room) as [|p0 ps] eqn:Harea.
  { by apply elem_of_nil in Hnonempty. }
  rewrite <- Harea in *. clear Hnonempty.
  eapply rreturns_bind; [apply rreturns_choice; by rewrite Harea|].
  intros [sx sy] Hpos. cbv beta in Hpos. simpl.
  pose proof Hpos as Hin. apply elem_of_inner_area in Hin.
  assert (0 ≤ sx < w ∧ 0 ≤ sy < h ∧ ¬ on_border w h sx sy) as (Hsx & Hsy & Hnb)
    by (unfold room_fits, on_border in *; lia).
  destruct (tile_assign_returns w h (GameMap.tiles m) sx sy STAIRS_DOWN Hg Hsx Hsy)
    as (row & _ & _ & Heq).
  eapply rreturns_bind.
  { apply rreturns_lift. eexists. split; [exact Heq|]. by instantiate (1 := λ ts, ts = _). }
  intros ts ->. apply rreturns_ret. split; [|done].
  assert (∀ x y, 0 ≤ x < w → 0 ≤ y < h → (x, y) ≠ (sx, sy) →
            GameMap.tile_at (<[Z.to_nat sy:=<[Z.to_nat sx:=STAIRS_DOWN]> row]> (GameMap.tiles m)) x y
            = GameMap.tile_at (GameMap.tiles m) x y) as Hother.
  { intros x y Hx Hy Hne.
    exact (tile_assign_other w h _ sx sy STAIRS_DOWN Hg Hsx Hsy _ x y Heq Hx Hy Hne). }
  assert (∀ r px py, r ∈ GameMap.rooms m → (px, py) ∈ Room.get_inner_area r →
            0 ≤ px < w ∧ 0 ≤ py < h) as Hinside.
  { intros r px py Hr Hp%elem_of_inner_area.
    rewrite Forall_forall in Hfit. destruct (Hfit r Hr) as [Hrfit _].
    unfold room_fits in Hrfit. lia. }
  split; simpl; try done.
  - exact (tile_assign_grid w h _ sx sy STAIRS_DOWN Hg Hsx Hsy _ Heq).
  - eapply (tile_assign_keeps w h _ sx sy STAIRS_DOWN Hg Hsx Hsy); [|done|exact Heq].
    by apply wall_or_floor_kinds.
  - intros x y Hx Hy Hb. rewrite Hother; [by apply Hborder|done..|].
    intros [= -> ->]. done.
  - intros r px py Hr Hp. destruct (Hinside r px py Hr Hp) as [Hpx Hpy].
    destruct (decide ((px, py) = (sx, sy))) as [[= -> ->]|Hne].
    + right. split; [|done].
      exact (tile_assign_read w h _ sx sy STAIRS_DOWN Hg Hsx Hsy _ Heq).
    + left. rewrite Hother by done. eauto.
  - intros r0 px py Hr0 Hp.
    assert ((px, py) ≠ (sx, sy)) as Hne.
    { intros [= -> ->].
      apply (inner_area_disjoint r0 stair_room sx sy); [|done..].
      apply (Hdis 0%nat (1 + i0)%nat); [lia|done..]. }
    assert (r0 ∈ GameMap.rooms m) as Hr0' by (by eapply list_elem_of_lookup_2).
    destruct (Hinside r0 px py Hr0' Hp) as [Hpx Hpy].
    split; [|congruence]. rewrite Hother by done. eauto.
  - lia.
Qed.

Lemma set_spawn_point_stocked (w h fn : Z) (m : GameMap.t) :
  stocked w h fn m → GameMap.spawn_point m = None →
  rreturns (GameMap._set_spawn_point m) (λ m', stocked w h fn m' ∧ spawned m').
Proof.
  intros Hm Hnone. unfold GameMap._set_spawn_point.
  destruct (GameMap.rooms m) as [|spawn_room rs] eqn:Hrooms.
  { apply rreturns_ret. split; [done|]. unfold spawned. by rewrite Hrooms. }
  assert (room_fits w h spawn_room) as Hfit.
  { destruct Hm as [_ _ _ _ Hfit _ _ _ _ _ _ _]. rewrite Hrooms in Hfit.
    apply Forall_cons in Hfit as [[? _] _]. done. }
  assert ((Room.x spawn_room + 1, Room.y spawn_room + 1) ∈ Room.get_inner_area spawn_room)
    as Hnonempty.
  { apply elem_of_inner_area. unfold room_fits in Hfit. lia. }
  cbv zeta. destruct (Room.get_inner_area spawn_room) as [|p0 ps] eqn:Harea.
  { by apply elem_of_nil in Hnonempty. }
  rewrite <- Harea in *.
  eapply rreturns_bind; [apply rreturns_choice; by rewrite Harea|].
  intros [px py] Hp. cbv beta in Hp. apply rreturns_ret. split.
  - destruct Hm. split; simpl; done.
  - unfold spawned. simpl. rewrite Hrooms. by exists px, py.
Qed.

Lemma generate_map_stocked (w h fn : Z) :
  rreturns (GameMap.generate_map (GameMap.init w h fn))
    (λ m, stocked w h fn m ∧ spawned m).
Proof.
  unfold GameMap.generate_map.
  eapply rreturns_bind; [apply generate_rooms_furnished, furnished_init|].
  intros m1 [Hm1 Hlen]. simpl in Hlen.
  eapply rreturns_bind; [by apply connect_rooms_furnished|].
  intros m2 [Hm2 Hrooms]. rewrite <- Hrooms in Hlen.
  eapply rreturns_bind; [by apply place_stairs_stocked|].
  intros m3 [Hm3 Hspawn]. by apply set_spawn_point_stocked.
Qed.

Lemma get_tile_of_tile_at (m : GameMap.t) (x y : Z) (t : TileType) :
  0 ≤ x < GameMap.width m → 0 ≤ y < GameMap.height m →
  GameMap.tile_at (GameMap.tiles m) x y = Returns t →
  GameMap.get_tile m x y = Returns (Some t) ∧
  GameMap.is_walkable m x y = Returns (TileProperties.is_walkable t).
Proof.
  intros Hx Hy Ht. unfold GameMap.get_tile, GameMap.is_walkable.
  rewrite (proj2 (valid_position_bounds m x y)) by done. simpl. by rewrite Ht.
Qed.

(** X14. On a fresh grid of any width and height [generate_map] returns
    whatever is drawn (no index or value error), and the floor it returns
    is a well-formed grid of the same width, height and floor number. *)
Theorem generate_map_returns (w h fn : Z) (g : RNG) :
  ∃ (m : GameMap.t) (g' : RNG),
    GameMap.generate_map (GameMap.init w h fn) g = Returns (m, g') ∧
    GameMap.wf m ∧
    GameMap.width m = w ∧ GameMap.height m = h ∧ GameMap.floor_number m = fn.
Proof.
  destruct (generate_map_stocked w h fn g) as (m & g' & Hgen & [] & _).
  exists m, g'. split; [done|]. split; [|done].
  unfold GameMap.wf. by rewrite stocked_width0, stocked_height0.
Qed.

(** X15. A generated floor has at most 12 rooms; each is 5 to 15 tiles wide
    and high and lies inside the grid with a margin of one tile on every
    side. *)
Theorem generated_rooms_fit (w h fn : Z) (g g' : RNG) (m : GameMap.t) :
  GameMap.generate_map (GameMap.init w h fn) g = Returns (m, g') →
  (length (GameMap.rooms m) ≤ 12)%nat ∧
  ∀ r, r ∈ GameMap.rooms m →
    5 ≤ Room.width r ≤ 15 ∧ 5 ≤ Room.height r ≤ 15 ∧
    1 ≤ Room.x r ∧ Room.x r + Room.width r ≤ w - 1 ∧
    1 ≤ Room.y r ∧ Room.y r + Room.height r ≤ h - 1.
Proof.
  intros Hgen.
  pose proof (rreturns_elim _ _ _ _ _ (generate_map_stocked w h fn) Hgen) as [[] _].
  split; [done|]. intros r Hr.
  rewrite Forall_forall in stocked_rooms0.
  destruct (stocked_rooms0 r Hr) as [Hfit ?]. unfold room_fits in Hfit. lia.
Qed.

Lemma generated_rooms_fit_witness :
  ∃ m g',
    GameMap.generate_map (GameMap.init 40 20 1) two_room_draws = Returns (m, g') ∧
    GameMap.rooms m = [Room.Build 1 1 5 5; Room.Build 21 2 8 7] ∧
    (length (GameMap.rooms m) ≤ 12)%nat ∧
    ∀ r, r ∈ GameMap.rooms m →
      5 ≤ Room.width r ≤ 15 ∧ 5 ≤ Room.height r ≤ 15 ∧
      1 ≤ Room.x r ∧ Room.x r + Room.width r ≤ 40 - 1 ∧
      1 ≤ Room.y r ∧ Room.y r + Room.height r ≤ 20 - 1.
Proof.
  destruct (GameMap.generate_map (GameMap.init 40 20 1) two_room_draws)
    as [[m g']| |] eqn:E; [|vm_compute in E; discriminate..].
  exists m, g'. split; [reflexivity|].
  split; [vm_compute in E; by injection E as <- _|].
  exact (generated_rooms_fit 40 20 1 two_room_draws g' m E).
Defined.

(** X16. Generation never carves the outer border: on a generated floor
    every position of the first and last row and column holds a wall and is
    not walkable. *)
Theorem generated_border_walls (w h fn : Z) (g g' : RNG) (m : GameMap.t) :
  GameMap.generate_map (GameMap.init w h fn) g = Returns (m, g') →
  ∀ x y, GameMap.is_valid_position m x y = true →
         x = 0 ∨ x = GameMap.width m - 1 ∨ y = 0 ∨ y = GameMap.height m - 1 →
         GameMap.get_tile m x y = Returns (Some WALL) ∧
         GameMap.is_walkable m x y = Returns false.
Proof.
  intros Hgen x y [Hx Hy]%valid_position_bounds Hb.
  pose proof (rreturns_elim _ _ _ _ _ (generate_map_stocked w h fn) Hgen) as [[] _].
  apply (get_tile_of_tile_at m x y WALL Hx Hy).
  apply stocked_border0; unfold on_border; lia.
Qed.

Lemma generated_border_walls_witness :
  ∃ m g',
    GameMap.generate_map (GameMap.init 40 20 1) two_room_draws = Returns (m, g') ∧
    ∀ x y, GameMap.is_valid_position m x y = true →
           x = 0 ∨ x = GameMap.width m - 1 ∨ y = 0 ∨ y = GameMap.height m - 1 →
           GameMap.get_tile m x y = Returns (Some WALL) ∧
           GameMap.is_walkable m x y = Returns false.
Proof.
  destruct (GameMap.generate_map (GameMap.init 40 20 1) two_room_draws)
    as [[m g']| |] eqn:E; [|vm_compute in E; discriminate..].
  exists m, g'. split; [reflexivity|].
  exact (generated_border_walls 40 20 1 two_room_draws g' m E).
Defined.

(** X17. On a generated floor every interior tile of every room is walkable:
    it is floor, or it is the stairs, and then it is the recorded stairs
    position. *)
Theorem generated_interiors_walkable (w h fn : Z) (g g' : RNG) (m : GameMap.t) :
  GameMap.generate_map (GameMap.init w h fn) g = Returns (m, g') →
  ∀ r px py, r ∈ GameMap.rooms m → (px, py) ∈ Room.get_inner_area r →
    GameMap.is_walkable m px py = Returns true ∧
    (GameMap.get_tile m px py = Returns (Some FLOOR) ∨
     (GameMap.get_tile m px py = Returns (Some STAIRS_DOWN) ∧
      GameMap.stairs_position m = Some (px, py))).
Proof.
  intros Hgen r px py Hr Hp.
  pose proof (rreturns_elim _ _ _ _ _ (generate_map_stocked w h fn) Hgen) as [[] _].
  assert (0 ≤ px < GameMap.width m ∧ 0 ≤ py < GameMap.height m) as [Hx Hy].
  { rewrite Forall_forall in stocked_rooms0. destruct (stocked_rooms0 r Hr) as [Hfit _].
    pose proof Hp as ?%elem_of_inner_area. unfold room_fits in Hfit. lia. }
  destruct (stocked_interiors0 r px py Hr Hp) as [Ht|[Ht Hs]];
    destruct (get_tile_of_tile_at m px py _ Hx Hy Ht) as [Hget Hwalk];
    (split; [exact Hwalk|]); [by left|by right].
Qed.

Lemma generated_interiors_walkable_witness :
  ∃ m g',
    GameMap.generate_map (GameMap.init 40 20 1) two_room_draws = Returns (m, g') ∧
    Room.Build 21 2 8 7 ∈ GameMap.rooms m ∧
    ∀ r px py, r ∈ GameMap.rooms m → (px, py) ∈ Room.get_inner_area r →
      GameMap.is_walkable m px py = Returns true ∧
      (GameMap.get_tile m px py = Returns (Some FLOOR) ∨
       (GameMap.get_tile m px py = Returns (Some STAIRS_DOWN) ∧
        GameMap.stairs_position m = Some (px, py))).
Proof.
  destruct (GameMap.generate_map (GameMap.init 40 20 1) two_room_draws)
    as [[m g']| |] eqn:E; [|vm_compute in E; discriminate..].
  exists m, g'. split; [reflexivity|].
  split; [vm_compute in E; injection E as <- _; right; left|].
  exact (generated_interiors_walkable 40 20 1 two_room_draws g' m E).
Defined.

(** X18. On a generated floor the spawn point is set exactly when there is a
    room; it is then an interior tile of the first room, the tile there is
    floor (so it is walkable), and it is not the stairs position. *)
Theorem generated_spawn_point (w h fn : Z) (g g' : RNG) (m : GameMap.t) :
  GameMap.generate_map (GameMap.init w h fn) g = Returns (m, g') →
  (GameMap.rooms m = [] → GameMap.spawn_point m = None) ∧
  (∀ r0, GameMap.rooms m !! 0%nat = Some r0 →
     ∃ px py,
       GameMap.spawn_point m = Some (px, py) ∧
       (px, py) ∈ Room.get_inner_area r0 ∧
       GameMap.get_tile m px py = Returns (Some FLOOR) ∧
       GameMap.is_walkable m px py = Returns true ∧
       GameMap.stairs_position m ≠ Some (px, py)).
Proof.
  intros Hgen.
  pose proof (rreturns_elim _ _ _ _ _ (generate_map_stocked w h fn) Hgen) as [[] Hspawn].
  unfold spawned in Hspawn. split.
  - intros Hnil. by rewrite Hnil in Hspawn.
  - intros r0 Hr0. destruct (GameMap.rooms m) as [|r0' rs] eqn:Hrooms; [done|].
    injection Hr0 as ->. destruct Hspawn as (px & py & Hsp & Hp).
    exists px, py. split; [done|]. split; [done|].
    destruct (stocked_first_room0 r0 px py eq_refl Hp) as [Ht Hns].
    assert (0 ≤ px < GameMap.width m ∧ 0 ≤ py < GameMap.height m) as [Hx Hy].
    { apply Forall_cons in stocked_rooms0 as [[Hfit _] _].
      pose proof Hp as ?%elem_of_inner_area. unfold room_fits in Hfit. lia. }
    destruct (get_tile_of_tile_at m px py _ Hx Hy Ht) as [Hget Hwalk]. done.
Qed.

Lemma generated_spawn_point_witness :
  ∃ m g',
    GameMap.generate_map (GameMap.init 40 20 1) two_room_draws = Returns (m, g') ∧
    GameMap.spawn_point m = Some (2, 2) ∧
    (GameMap.rooms m = [] → GameMap.spawn_point m = None) ∧
    (∀ r0, GameMap.rooms m !! 0%nat = Some r0 →
       ∃ px py,
         GameMap.spawn_point m = Some (px, py) ∧
         (px, py) ∈ Room.get_inner_area r0 ∧
         GameMap.get_tile m px py = Returns (Some FLOOR) ∧
         GameMap.is_walkable m px py = Returns true ∧
         GameMap.stairs_position m ≠ Some (px, py)).
Proof.
  destruct (GameMap.generate_map (GameMap.init 40 20 1) two_room_draws)
    as [[m g']| |] eqn:E; [|vm_compute in E; discriminate..].
  exists m, g'. split; [reflexivity|].
  split; [vm_compute in E; by injection E as <- _|].
  exact (generated_spawn_point 40 20 1 two_room_draws g' m E).
Defined.

(** X19. Generation never makes an up staircase, and with fewer than two
    rooms it makes no stairs at all: no stairs position is recorded and no
    tile is [STAIRS_DOWN]. *)
Theorem generated_without_stairs (w h fn : Z) (g g' : RNG) (m : GameMap.t) :
  GameMap.generate_map (GameMap.init w h fn) g = Returns (m, g') →
  count_tiles STAIRS_UP (GameMap.tiles m) = 0%nat ∧
  ((length (GameMap.rooms m) < 2)%nat →
   GameMap.stairs_position m = None ∧
   count_tiles STAIRS_DOWN (GameMap.tiles m) = 0%nat).
Proof.
  intros Hgen.
  pose proof (rreturns_elim _ _ _ _ _ (generate_map_stocked w h fn) Hgen) as [[] _].
  split; [by apply count_tiles_absent|].
  intros Hfew. destruct (stocked_no_stairs0 Hfew) as [Hnone Hk]. split; [done|].
  apply count_tiles_absent.
  eapply Forall_impl; [exact Hk|]. intros row Hrow.
  eapply Forall_impl; [exact Hrow|]. by intros t [-> | ->].
Qed.

Lemma generated_without_stairs_witness :
  ∃ m g',
    GameMap.generate_map (GameMap.init 40 20 1) one_room_draws = Returns (m, g') ∧
    GameMap.rooms m = [Room.Build 1 1 5 5] ∧
    count_tiles STAIRS_UP (GameMap.tiles m) = 0%nat ∧
    ((length (GameMap.rooms m) < 2)%nat →
     GameMap.stairs_position m = None ∧
     count_tiles STAIRS_DOWN (GameMap.tiles m) = 0%nat).
Proof.
  destruct (GameMap.generate_map (GameMap.init 40 20 1) one_room_draws)
    as [[m g']| |] eqn:E; [|vm_compute in E; discriminate..].
  exists m, g'. split; [reflexivity|].
  split; [vm_compute in E; by injection E as <- _|].
  exact (generated_without_stairs 40 20 1 one_room_draws g' m E).
Defined.

Lemma room_attempt_too_small (m : GameMap.t) :
  GameMap.width m ≤ 7 ∨ GameMap.height m ≤ 7 →
  rreturns (GameMap.room_attempt m) (λ m', m' = m).
Proof.
  intros Hsmall. unfold GameMap.room_attempt.
  eapply rreturns_bind; [by apply (rreturns_randint 5 15)|].
  intros room_width Hrw. cbv beta in Hrw.
  eapply rreturns_bind; [by apply (rreturns_randint 5 15)|].
  intros room_height Hrh. cbv beta in Hrh. cbv zeta.
  destruct (Z.leb_spec (GameMap.width m - room_width - 1) 1) as [|Hmx];
    [by apply rreturns_ret|].
  destruct (Z.leb_spec (GameMap.height m - room_height - 1) 1) as [|Hmy];
    [by apply rreturns_ret|].
  lia.
Qed.

(** X20. On a grid at most 7 tiles wide or at most 7 tiles high no room
    fits: [generate_map] returns the grid as it was, all walls, without
    rooms, stairs or spawn point. *)
Theorem generate_map_too_small (w h fn : Z) (g : RNG) :
  w ≤ 7 ∨ h ≤ 7 →
  ∃ g' : RNG,
    GameMap.generate_map (GameMap.init w h fn) g = Returns (GameMap.init w h fn, g').
Proof.
  intros Hsmall.
  assert (rreturns (GameMap.generate_map (GameMap.init w h fn))
            (λ m, m = GameMap.init w h fn)) as Hspec.
  { unfold GameMap.generate_map.
    eapply rreturns_bind.
    { unfold GameMap._generate_rooms.
      eapply rreturns_bind; [by apply (rreturns_randint 6 12)|].
      intros num_rooms _.
      apply (rreturns_for_in _ _ (λ m, m = GameMap.init w h fn)); [|done].
      intros m _ _ ->. by apply room_attempt_too_small. }
    intros m1 ->.
    eapply (rreturns_bind _ _ (λ m, m = GameMap.init w h fn)); [by apply rreturns_ret|].
    intros m2 ->.
    eapply (rreturns_bind _ _ (λ m, m = GameMap.init w h fn)); [by apply rreturns_ret|].
    intros m3 ->. by apply rreturns_ret. }
  destruct (Hspec g) as (m & g' & Hgen & ->). by exists g'.
Qed.

Lemma generate_map_too_small_witness :
  (40 ≤ 7 ∨ 7 ≤ 7) ∧
  ∃ g' : RNG,
    GameMap.generate_map (GameMap.init 40 7 1) two_room_draws
      = Returns (GameMap.init 40 7 1, g').
Proof.
  assert (40 ≤ 7 ∨ 7 ≤ 7) as H by (right; lia).
  split; [exact H|].
  exact (generate_map_too_small 40 7 1 two_room_draws H).
Defined.

(** X21. In a dungeon whose cached floors each carry their own number and
    the dungeon's dimensions (a new dungeon, for one), [get_current_floor]
    returns, whatever is drawn, a well-formed floor numbered [current_floor]
    of those dimensions, and the cache stays that way; so do
    [go_down_stairs], [go_up_stairs] and [reset_dungeon]. *)
Theorem dungeon_floors_consistent (d : Dungeon.t) (map_width map_height : Z) :
  let consistent d :=
    ∀ n m, Dungeon.floors d !! n = Some m →
           GameMap.floor_number m = n ∧ GameMap.wf m ∧
           GameMap.width m = Dungeon.map_width d ∧
           GameMap.height m = Dungeon.map_height d in
  consistent (Dungeon.init map_width map_height) ∧
  (consistent d →
   consistent (Dungeon.go_down_stairs d).2 ∧
   consistent (Dungeon.go_up_stairs d).2 ∧
   consistent (Dungeon.reset_dungeon d) ∧
   ∀ g, ∃ m d' g',
     Dungeon.get_current_floor d g = Returns ((m, d'), g') ∧
     GameMap.floor_number m = Dungeon.current_floor d ∧ GameMap.wf m ∧
     GameMap.width m = Dungeon.map_width d ∧
     GameMap.height m = Dungeon.map_height d ∧
     consistent d').
Proof.
  cbv zeta. split; [intros n m Hn; simpl in Hn; by rewrite lookup_empty in Hn|].
  intros Hd. split; [|split; [|split]].
  - unfold Dungeon.go_down_stairs. by destruct (_ >=? _).
  - unfold Dungeon.go_up_stairs. by destruct (_ <=? _).
  - intros n m Hn. simpl in Hn. by rewrite lookup_empty in Hn.
  - intros g. unfold Dungeon.get_current_floor.
    destruct (Dungeon.floors d !! Dungeon.current_floor d) as [m0|] eqn:Hcached.
    + exists m0, d, g. split; [done|].
      destruct (Hd _ _ Hcached) as (? & ? & ? & ?). done.
    + destruct (generate_map_stocked (Dungeon.map_width d) (Dungeon.map_height d)
                  (Dungeon.current_floor d) g) as (m1 & g1 & Hgen & [] & _).
      unfold Dungeon._generate_floor, mbind, rand_bind. rewrite Hgen. simpl.
      eexists m1, _, g1. split; [done|].
      assert (GameMap.wf m1) as Hwf.
      { unfold GameMap.wf. by rewrite stocked_width0, stocked_height0. }
      split; [done|]. split; [done|]. split; [done|]. split; [done|].
      intros n m. simpl. intros Hn.
      apply lookup_insert_Some in Hn as [[<- <-]|[_ Hn]]; [done|by apply Hd].
Qed.

Lemma dungeon_floors_consistent_witness :
  let d := Dungeon.init 40 20 in
  ∃ m d' g',
    Dungeon.get_current_floor d two_room_draws = Returns ((m, d'), g') ∧
    GameMap.floor_number m = 1 ∧ GameMap.wf m ∧
    GameMap.width m = 40 ∧ GameMap.height m = 20.
Proof.
  intros d.
  destruct (Dungeon.get_current_floor d two_room_draws) as [[[m d'] g']| |] eqn:E;
    [|vm_compute in E; discriminate..].
  exists m, d', g'. split; [reflexivity|].
  destruct (dungeon_floors_consistent d 40 20) as [Hinit Hkeep].
  destruct (Hkeep Hinit) as (_ & _ & _ & Hget).
  destruct (Hget two_room_draws) as (m1 & d1 & g1 & E1 & H1 & H2 & H3 & H4 & _).
  rewrite E in E1. injection E1 as -> _ _.
  split; [exact H1|]. split; [exact H2|]. split; [exact H3|exact H4].
Defined.

(** ** Agents on the index, one call at a time *)

Lemma dict_split {K V} `{!EqDecision K} (d : Dict.t K V) (k : K) (v : V) :
  Dict.get d k = Some v →
  ∃ d1 d2, d = d1 ++ (k, v) :: d2 ∧
           (∀ v', Dict.set d k v' = d1 ++ (k, v') :: d2) ∧
           Dict.del d k = d1 ++ d2.
Proof.
  induction d as [|[k0 v0] d IH]; simpl; [done|].
  destruct (decide (k0 = k)) as [->|Hne].
  - intros [= ->]. exists [], d. done.
  - intros Hget. destruct (IH Hget) as (d1 & d2 & -> & Hset & Hdel).
    exists ((k0, v0) :: d1), d2. split; [done|]. split.
    + intros v'. by rewrite Hset.
    + by rewrite Hdel.
Qed.

Lemma set_absent {K V} `{!EqDecision K} (d : Dict.t K V) (k : K) (v : V) :
  Dict.get d k = None → Dict.set d k v = d ++ [(k, v)].
Proof.
  induction d as [|[k0 v0] d IH]; simpl; [done|].
  destruct (decide (k0 = k)); [done|]. intros Hget. by rewrite IH.
Qed.



Lemma values_app {K V} (d1 d2 : Dict.t K V) :
  Dict.values (d1 ++ d2) = Dict.values d1 ++ Dict.values d2.
Proof. unfold Dict.values. by rewrite fmap_app. Qed.

Lemma all_agents_append (d : Dict.t (Z * Z) (list Agent)) (pos : Z * Z) (agent : Agent) :
  concat (Dict.values (AgentManager.append_at d pos agent))
    ≡ₚ agent :: concat (Dict.values d).
Proof.
  rewrite append_at_set. destruct (Dict.get d pos) as [l|] eqn:Hget; simpl.
  - destruct (dict_split d pos l Hget) as (d1 & d2 & -> & Hset & _).
    rewrite Hset, !values_app. unfold Dict.values at 2 4. simpl.
    rewrite !concat_app. simpl.
    symmetry. etrans; [apply Permutation_middle|]. apply Permutation_app_head.
    by rewrite <- Permutation_cons_append.
  - rewrite set_absent by done. rewrite values_app, concat_app. simpl.
    by rewrite <- Permutation_cons_append.
Qed.

Lemma remove_first_perm (a : Agent) (l : list Agent) :
  a ∈ l → l ≡ₚ a :: list_remove_first a l.
Proof.
  induction l as [|b l IH]; [by intros ?%elem_of_nil|]. simpl.
  destruct (decide (b = a)) as [->|Hne]; [done|].
  intros [?|Hin]%elem_of_cons; [congruence|].
  rewrite (IH Hin) at 1. apply perm_swap.
Qed.


Lemma find_agent_None (d : Dict.t (Z * Z) (list Agent)) (a : Agent) :
  AgentManager.find_agent d a = None ↔ a ∉ concat (Dict.values d).
Proof.
  induction d as [|[pos l] d IH]; simpl.
  - split; [intros _; apply not_elem_of_nil|done].
  - rewrite not_elem_of_app. destruct (decide (a ∈ l)) as [Hin|Hin].
    + split; [done|]. by intros [? _].
    + rewrite IH. split; [done|]. by intros [_ ?].
Qed.

Lemma find_agent_Some (d : Dict.t (Z * Z) (list Agent)) (a : Agent) pos l :
  NoDup (Dict.keys d) → AgentManager.find_agent d a = Some (pos, l) →
  Dict.get d pos = Some l ∧ a ∈ l.
Proof.
  unfold Dict.keys. induction d as [|[pos0 l0] d IH]; simpl; [done|].
  intros [Hfresh Hnd]%NoDup_cons.
  destruct (decide (a ∈ l0)) as [Hin|Hin].
  - intros [= -> ->]. by rewrite decide_True.
  - intros Hfind. destruct (IH Hnd Hfind) as [Hget Ha]. split; [|done].
    rewrite decide_False; [done|]. intros ->.
    apply Hfresh. change (pos ∈ Dict.keys d).
    destruct (decide (pos ∈ Dict.keys d)) as [|Hout]; [done|].
    apply get_None in Hout. congruence.
Qed.

Lemma all_agents_detach (d : Dict.t (Z * Z) (list Agent)) pos l (a : Agent) :
  Dict.get d pos = Some l → a ∈ l →
  concat (Dict.values d) ≡ₚ a :: concat (Dict.values (AgentManager.detach_at d pos l a)).
Proof.
  intros Hget Hin.
  destruct (dict_split d pos l Hget) as (d1 & d2 & Hd & Hset & Hdel).
  assert (concat (Dict.values (AgentManager.detach_at d pos l a))
          = concat (Dict.values d1) ++ list_remove_first a l ++ concat (Dict.values d2)) as ->.
  { unfold AgentManager.detach_at.
    destruct (list_remove_first a l) as [|b l'] eqn:Hrm.
    - by rewrite Hdel, values_app, concat_app.
    - rewrite Hset, values_app, concat_app. done. }
  rewrite Hd, values_app, concat_app. unfold Dict.values at 2. simpl.
  etrans; [|apply Permutation_sym, Permutation_middle].
  apply Permutation_app_head.
  rewrite (remove_first_perm a l Hin) at 1. done.
Qed.

Lemma departed_lookup (d : Dict.t (Z * Z) (list Agent)) (h : Store) (agent : Agent)
    (pos : Z * Z) :
  default [] (Dict.get d pos) = [] →
  Dict.get (departed d h agent) pos = Dict.get d pos.
Proof.
  intros Hempty. unfold departed.
  destruct (match position (h agent) with Some p => p | None => None end) as [old|];
    [|done].
  destruct (Dict.get d old) as [l|] eqn:Hold; [|done].
  destruct (decide (agent ∈ l)) as [Hin|]; [|done].
  assert (old ≠ pos) as Hne.
  { intros ->. rewrite Hold in Hempty. simpl in Hempty. subst l.
    by apply elem_of_nil in Hin. }
  unfold AgentManager.detach_at.
  destruct (list_remove_first agent l); [by apply get_del_ne|by apply get_set_ne].
Qed.

Lemma is_walkable_wf (m : GameMap.t) (x y : Z) :
  GameMap.wf m → ∃ b, GameMap.is_walkable m x y = Returns b.
Proof.
  intros Hwf. unfold GameMap.is_walkable.
  destruct (GameMap.is_valid_position m x y) eqn:Hv; simpl; [|by eexists].
  destruct (tile_at_valid m x y Hwf Hv) as (row & t & _ & _ & ->). simpl. by eexists.
Qed.

(** X22. What [place_agent] does.  On a well-formed grid it never raises
    and returns whether the position is walkable.  When it returns true the position is
    walkable, the agent is the new last element of that position's list
    (which makes the position occupied), every other position keeps its
    list, the agents of the index are the former ones and this one more,
    and the agent's [position] attribute, if it has one, now holds the
    position while every other agent's attributes are untouched.  When it
    returns false the position is not walkable and nothing has changed. *)
Theorem place_agent_effect (am : AgentManager.t) (h : Store) (agent : Agent) (x y : Z) :
  GameMap.wf (AgentManager.game_map am) →
  ∃ (b : bool) (am' : AgentManager.t) (h' : Store),
  AgentManager.place_agent am h agent x y = Returns (b, am', h') ∧
  GameMap.is_walkable (AgentManager.game_map am) x y = Returns b ∧
  (b = true →
   AgentManager.get_agents_at am' x y = AgentManager.get_agents_at am x y ++ [agent] ∧
   AgentManager.is_position_occupied am' x y = true ∧
   (∀ x' y', (x', y') ≠ (x, y) →
      AgentManager.get_agents_at am' x' y' = AgentManager.get_agents_at am x' y') ∧
   AgentManager.get_all_agents am' ≡ₚ agent :: AgentManager.get_all_agents am ∧
   position (h' agent) = (λ _, Some (x, y)) <$> position (h agent) ∧
   symbol (h' agent) = symbol (h agent) ∧
   (∀ other, other ≠ agent → h' other = h other)) ∧
  (b = false → am' = am ∧ h' = h).
Proof.
  intros Hwf.
  assert (∃ b am' h', AgentManager.place_agent am h agent x y = Returns (b, am', h'))
    as (b & am' & h' & Hplace).
  { destruct (is_walkable_wf _ x y Hwf) as [b Hb].
    unfold AgentManager.place_agent. rewrite Hb. simpl. destruct b; simpl; by eexists _, _, _. }
  exists b, am', h'. split; [exact Hplace|]. destruct b.
  - apply place_agent_true in Hplace as (Hwalk & -> & ->).
    split; [done|]. split; [|done]. intros _.
    assert (AgentManager.get_agents_at
              (AgentManager.with_agents am
                 (AgentManager.append_at (AgentManager.agents am) (x, y) agent)) x y
            = AgentManager.get_agents_at am x y ++ [agent]) as Hat.
    { rewrite get_agents_at_append. by rewrite decide_True. }
    split; [done|]. split.
    { unfold AgentManager.is_position_occupied. rewrite Hat, length_app. simpl.
      apply bool_decide_eq_true. lia. }
    split.
    { intros x' y' Hne. rewrite get_agents_at_append. by rewrite decide_False. }
    split; [apply all_agents_append|].
    destruct (position (h agent)) as [p|] eqn:Hp; simpl.
    + unfold set_position. rewrite decide_True by done. simpl.
      split; [done|]. split; [done|]. intros other Hne. by rewrite decide_False.
    + by rewrite Hp.
  - pose proof Hplace as [-> ->]%place_agent_false.
    split; [|done].
    unfold AgentManager.place_agent in Hplace.
    destruct (GameMap.is_walkable _ x y) as [[|]| |]; simpl in Hplace; done.
Qed.

Lemma place_agent_effect_witness :
  ∃ am' h',
    AgentManager.place_agent (AgentManager.init corridor_map) at_sign 7%nat 2 1
      = Returns (true, am', h') ∧
    AgentManager.get_agents_at am' 2 1 = [7%nat] ∧
    position (h' 7%nat) = Some (Some (2, 1)).
Proof.
  destruct (place_agent_effect (AgentManager.init corridor_map) at_sign 7%nat 2 1
              corridor_map_wf) as (b & am' & h' & Hplace & Hwalk & Htrue & _).
  assert (b = true) as -> by (vm_compute in Hwalk; congruence).
  exists am', h'. split; [exact Hplace|].
  destruct (Htrue eq_refl) as (Hat & _ & _ & _ & Hpos & _).
  split; [exact Hat|exact Hpos].
Defined.

(** X23. What [remove_agent] does on an index without repeated keys.  It
    returns true exactly when the agent is somewhere on the index; it then
    takes out one occurrence of the agent and nothing else; when it returns
    false the index is unchanged. *)
Theorem remove_agent_effect (am : AgentManager.t) (agent : Agent) :
  NoDup (Dict.keys (AgentManager.agents am)) →
  let r := AgentManager.remove_agent am agent in
  (r.1 = true ↔ agent ∈ AgentManager.get_all_agents am) ∧
  (r.1 = true →
   AgentManager.get_all_agents am ≡ₚ agent :: AgentManager.get_all_agents r.2 ∧
   AgentManager.game_map r.2 = AgentManager.game_map am) ∧
  (r.1 = false → r.2 = am).
Proof.
  intros Hnd. cbv zeta. unfold AgentManager.remove_agent, AgentManager.get_all_agents.
  destruct (AgentManager.find_agent (AgentManager.agents am) agent) as [[pos l]|] eqn:Hfind;
    simpl.
  - destruct (find_agent_Some _ _ _ _ Hnd Hfind) as [Hget Hin].
    split; [|split; [|done]].
    + split; [intros _|done].
      destruct (decide (agent ∈ concat (Dict.values (AgentManager.agents am))))
        as [|Hout]; [done|].
      apply find_agent_None in Hout. congruence.
    + intros _. split; [by apply all_agents_detach|done].
  - apply find_agent_None in Hfind. split; [|done]. split; [done|]. intros ?. done.
Qed.

Lemma remove_agent_effect_witness :
  let am := AgentManager.Build corridor_map [((1, 1), [7%nat; 8%nat])] in
  NoDup (Dict.keys (AgentManager.agents am)) ∧
  (AgentManager.remove_agent am 7%nat).1 = true ∧
  AgentManager.get_all_agents am
    ≡ₚ 7%nat :: AgentManager.get_all_agents (AgentManager.remove_agent am 7%nat).2.
Proof.
  intros am.
  assert (NoDup (Dict.keys (AgentManager.agents am))) as H
    by (apply NoDup_singleton).
  split; [exact H|]. split; [reflexivity|].
  exact (proj1 (proj1 (proj2 (remove_agent_effect am 7%nat H)) eq_refl)).
Defined.







(** X26. [can_move_to] never raises on a well-formed grid, and it returns
    true exactly when the position is walkable and every agent listed there
    is the excluded one; an excluded agent that Python takes for false is
    not excluded at all. *)
Theorem can_move_to_spec (am : AgentManager.t) (truthy : Agent → bool) (x y : Z)
    (exclude_agent : option Agent) :
  GameMap.wf (AgentManager.game_map am) →
  ∃ b : bool,
    AgentManager.can_move_to am truthy x y exclude_agent = Returns b ∧
    (b = true ↔
     GameMap.is_walkable (AgentManager.game_map am) x y = Returns true ∧
     ∀ a, a ∈ AgentManager.get_agents_at am x y →
          ∃ e, exclude_agent = Some e ∧ truthy e = true ∧ a = e).
Proof.
  intros Hwf. unfold AgentManager.can_move_to.
  destruct (is_walkable_wf _ x y Hwf) as [w Hw]. rewrite Hw. simpl.
  destruct w; simpl; [|exists false; split; [done|]; split; [done|by intros [[=] _]]].
  eexists. split; [done|]. rewrite bool_decide_eq_true, length_zero_iff_nil.
  split.
  - intros Hnil. split; [done|]. intros a Ha.
    destruct exclude_agent as [e|]; [|rewrite Hnil in Ha; by apply elem_of_nil in Ha].
    destruct (truthy e) eqn:He; [|rewrite Hnil in Ha; by apply elem_of_nil in Ha].
    exists e. split; [done|]. split; [done|].
    destruct (decide (a = e)) as [|Hne]; [done|].
    assert (a ∈ filter (λ a, a ≠ e) (AgentManager.get_agents_at am x y)) as Hin
      by (by apply list_elem_of_filter).
    rewrite Hnil in Hin. by apply elem_of_nil in Hin.
  - intros [_ Hall].
    destruct exclude_agent as [e|].
    + destruct (truthy e) eqn:He.
      * apply elem_of_nil_inv. intros a [Hne Ha]%list_elem_of_filter.
        destruct (Hall a Ha) as (e' & [= <-] & _ & ->). done.
      * apply elem_of_nil_inv. intros a Ha.
        destruct (Hall a Ha) as (e' & [= <-] & ? & _). congruence.
    + apply elem_of_nil_inv. intros a Ha. by destruct (Hall a Ha) as (e' & [=] & _).
Qed.

Lemma can_move_to_spec_witness :
  let am := AgentManager.Build corridor_map [((1, 1), [7%nat])] in
  GameMap.wf (AgentManager.game_map am) ∧
  AgentManager.can_move_to am (λ _, true) 1 1 None = Returns false ∧
  ∃ b : bool,
    AgentManager.can_move_to am (λ _, true) 1 1 (Some 7%nat) = Returns b ∧
    (b = true ↔
     GameMap.is_walkable (AgentManager.game_map am) 1 1 = Returns true ∧
     ∀ a, a ∈ AgentManager.get_agents_at am 1 1 →
          ∃ e, Some 7%nat = Some e ∧ (λ _ : Agent, true) e = true ∧ a = e).
Proof.
  intros am. split; [exact corridor_map_wf|]. split; [reflexivity|].
  exact (can_move_to_spec am (λ _, true) 1 1 (Some 7%nat) corridor_map_wf).
Defined.

(** X27. [can_move_to] is the single-occupancy check that [move_agent] does
    not make: when [can_move_to(x, y)] (nothing excluded) has returned true,
    [move_agent] to [(x, y)] succeeds for any agent and leaves that agent
    alone at [(x, y)]. *)
Theorem move_after_can_move_to (am : AgentManager.t) (h : Store) (truthy : Agent → bool)
    (agent : Agent) (x y : Z) :
  AgentManager.can_move_to am truthy x y None = Returns true →
  ∃ am' h',
    AgentManager.move_agent am h agent x y = Returns (true, am', h') ∧
    AgentManager.get_agents_at am' x y = [agent].
Proof.
  unfold AgentManager.can_move_to, AgentManager.move_agent.
  destruct (GameMap.is_walkable _ x y) as [[|]| |]; simpl; try done.
  intros [= Hfree%bool_decide_eq_true%length_zero_iff_nil].
  eexists _, _. split; [reflexivity|].
  unfold AgentManager.get_agents_at in *. simpl.
  fold (departed (AgentManager.agents am) h agent).
  rewrite append_at_set, get_set_eq. simpl.
  by rewrite departed_lookup, Hfree.
Qed.

Lemma move_after_can_move_to_witness :
  let am := AgentManager.Build corridor_map [((1, 1), [7%nat])] in
  AgentManager.can_move_to am (λ _, true) 2 1 None = Returns true ∧
  ∃ am' h',
    AgentManager.move_agent am at_sign 8%nat 2 1 = Returns (true, am', h') ∧
    AgentManager.get_agents_at am' 2 1 = [8%nat].
Proof.
  intros am.
  assert (AgentManager.can_move_to am (λ _, true) 2 1 None = Returns true) as H
    by reflexivity.
  split; [exact H|].
  exact (move_after_can_move_to am at_sign (λ _, true) 8%nat 2 1 H).
Defined.

(** ** What is rendered *)

(** X28. A render never exceeds the viewport asked for nor the map: with a
    viewport of [vw] by [vh], centred or not, on a well-formed grid whose
    indexed agents have one-character symbols, [render_map] returns at most
    [vh] rows and at most as many as the map is high, each at most [vw]
    characters long and at most as long as the map is wide. *)
Theorem render_within_viewport (r : MapRenderer.t) (h : Store) (vw vh : Z)
    (center_x center_y : option Z) :
  GameMap.wf (MapRenderer.game_map r) →
  single_char_symbols (MapRenderer.agent_manager r) h →
  ∃ rows,
    MapRenderer.render_map r h (Some vw) (Some vh) center_x center_y = Returns rows ∧
    Z.of_nat (length rows) ≤ Z.max 0 vh ∧
    Z.of_nat (length rows) ≤ Z.max 0 (GameMap.height (MapRenderer.game_map r)) ∧
    Forall (λ row, Z.of_nat (String.length row) ≤ Z.max 0 vw ∧
                   Z.of_nat (String.length row)
                     ≤ Z.max 0 (GameMap.width (MapRenderer.game_map r))) rows.
Proof.
  intros Hwf Hsym. unfold MapRenderer.render_map.
  destruct (MapRenderer.viewport_bounds r (Some vw) (Some vh) center_x center_y)
    as [[[start_x start_y] end_x] end_y] eqn:Hb.
  destruct (render_rows r h Hwf Hsym start_x end_x start_y end_y) as (rows & -> & Hlen & Hall).
  exists rows. split; [done|].
  assert (end_x - start_x ≤ vw ∧ end_x - start_x ≤ GameMap.width (MapRenderer.game_map r) ∧
          end_y - start_y ≤ vh ∧ end_y - start_y ≤ GameMap.height (MapRenderer.game_map r))
    as (? & ? & ? & ?).
  { unfold MapRenderer.viewport_bounds in Hb. simpl in Hb.
    destruct center_x, center_y; injection Hb as <- <- <- <-; lia. }
  split; [lia|]. split; [lia|].
  eapply Forall_impl; [exact Hall|]. simpl. intros; lia.
Qed.

Lemma render_within_viewport_witness :
  GameMap.wf (MapRenderer.game_map corridor_view) ∧
  single_char_symbols (MapRenderer.agent_manager corridor_view) at_sign ∧
  ∃ rows,
    MapRenderer.render_map corridor_view at_sign (Some 3) (Some 2) (Some 4) (Some 1)
      = Returns rows ∧
    rows = ["##"; ".#"] ∧
    Z.of_nat (length rows) ≤ Z.max 0 2 ∧
    Forall (λ row, Z.of_nat (String.length row) ≤ Z.max 0 3) rows.
Proof.
  split; [exact corridor_map_wf|]. split; [exact corridor_view_symbols|].
  destruct (render_within_viewport corridor_view at_sign 3 2 (Some 4) (Some 1)
              corridor_map_wf corridor_view_symbols) as (rows & Hr & H1 & _ & H2).
  exists rows. split; [exact Hr|].
  split; [vm_compute in Hr; by injection Hr as <-|].
  split; [exact H1|].
  eapply Forall_impl; [exact H2|]. intros row [? _]. done.
Defined.

Lemma string_app_assoc (s1 s2 s3 : string) : (s1 +:+ s2) +:+ s3 = s1 +:+ (s2 +:+ s3).
Proof.
  induction s1 as [|a s1 IH]; [done|].
  change (String a s1 +:+ s2) with (String a (s1 +:+ s2)).
  change (String a (s1 +:+ s2) +:+ s3) with (String a ((s1 +:+ s2) +:+ s3)).
  change (String a s1 +:+ (s2 +:+ s3)) with (String a (s1 +:+ (s2 +:+ s3))).
  by rewrite IH.
Qed.

Lemma string_app_empty_r (s : string) : s +:+ "" = s.
Proof.
  induction s as [|a s IH]; [done|].
  change (String a s +:+ "") with (String a (s +:+ "")). by rewrite IH.
Qed.

Lemma lookup_range (a b : Z) (i : nat) (x : Z) :
  range a b !! i = Some x → x = a + Z.of_nat i.
Proof.
  unfold range. rewrite list_lookup_fmap.
  destruct (seq 0 (Z.to_nat (b - a)) !! i) as [k|] eqn:Hk; [|done].
  apply lookup_seq in Hk as [-> _]. simpl. by intros [= <-].
Qed.

Section render_bare.
Variables (r : MapRenderer.t) (h : Store).
Hypothesis Hwf : GameMap.wf (MapRenderer.game_map r).
Hypothesis Hbare : AgentManager.agents (MapRenderer.agent_manager r) = [].

Lemma render_cell_bare (x y : Z) (row : list TileType) (t : TileType) :
  0 ≤ x → 0 ≤ y →
  GameMap.tiles (MapRenderer.game_map r) !! Z.to_nat y = Some row →
  row !! Z.to_nat x = Some t →
  MapRenderer.render_cell r h x y = Returns (TileProperties.get_symbol t).
Proof.
  intros Hx Hy Hrow Ht. unfold MapRenderer.render_cell, AgentManager.get_agents_at.
  rewrite Hbare. simpl.
  destruct Hwf as [Hh Hw].
  assert (length row = Z.to_nat (GameMap.width (MapRenderer.game_map r))) as Hlen.
  { rewrite Forall_lookup in Hw. by apply (Hw _ _ Hrow). }
  pose proof (lookup_lt_Some _ _ _ Hrow) as Hylt.
  pose proof (lookup_lt_Some _ _ _ Ht) as Hxlt.
  assert (GameMap.is_valid_position (MapRenderer.game_map r) x y = true) as Hv
    by (apply valid_position_bounds; lia).
  destruct (tile_at_valid _ x y Hwf Hv) as (row' & t' & Hrow' & Ht' & Htile).
  unfold GameMap.get_tile. rewrite Hv, Htile. simpl.
  rewrite Hrow in Hrow'. injection Hrow' as <-. rewrite Ht in Ht'. by injection Ht' as <-.
Qed.

Lemma render_line_bare (xs : list Z) (y : Z) (ts : list TileType) (line : string) :
  Forall2 (λ x t, MapRenderer.render_cell r h x y = Returns (TileProperties.get_symbol t))
    xs ts →
  for_in xs (λ line x, s ← MapRenderer.render_cell r h x y; mret (line +:+ s)) line
    = Returns (line +:+ row_text ts).
Proof.
  intros Hcells. revert line.
  induction Hcells as [|x t xs ts Hcell _ IH]; intros line; simpl.
  - by rewrite string_app_empty_r.
  - rewrite Hcell. simpl. rewrite IH. by rewrite string_app_assoc.
Qed.

Lemma render_rows_bare (ys : list Z) (rows : list (list TileType)) (acc : list string) :
  Forall2 (λ y row,
             MapRenderer.render_line r h 0 (GameMap.width (MapRenderer.game_map r)) y
               = Returns (row_text row)) ys rows →
  for_in ys
    (λ rendered_lines y,
       line ← MapRenderer.render_line r h 0 (GameMap.width (MapRenderer.game_map r)) y;
       mret (rendered_lines ++ [line])) acc
    = Returns (acc ++ (row_text <$> rows)).
Proof.
  intros Hrows. revert acc.
  induction Hrows as [|y row ys rows Hrow _ IH]; intros acc; simpl.
  - by rewrite app_nil_r.
  - rewrite Hrow. simpl. rewrite IH. by rewrite <- app_assoc.
Qed.

End render_bare.

(** X29. With no agent on the index, a render without viewport arguments
    is the grid itself: one row of text per row of tiles, each the symbols
    of that row's tiles in order. *)
Theorem render_bare_map (r : MapRenderer.t) (h : Store) :
  GameMap.wf (MapRenderer.game_map r) →
  AgentManager.agents (MapRenderer.agent_manager r) = [] →
  MapRenderer.render_map r h None None None None
    = Returns (row_text <$> GameMap.tiles (MapRenderer.game_map r)).
Proof.
  intros Hwf Hbare. unfold MapRenderer.render_map. simpl.
  rewrite !Z.min_id. pose proof Hwf as [Hh Hw].
  apply (render_rows_bare r h _ _ []).
  apply Forall2_same_length_lookup_2.
  { by rewrite length_range, Z.sub_0_r. }
  intros i y row Hy%lookup_range Hrow. simpl in Hy. subst y.
  unfold MapRenderer.render_line.
  change (Returns (row_text row)) with (Returns ("" +:+ row_text row)).
  apply render_line_bare.
  assert (length row = Z.to_nat (GameMap.width (MapRenderer.game_map r))) as Hlen.
  { rewrite Forall_lookup in Hw. by apply (Hw _ _ Hrow). }
  apply Forall2_same_length_lookup_2.
  { by rewrite length_range, Z.sub_0_r. }
  intros j x t Hx%lookup_range Ht. simpl in Hx. subst x.
  apply (render_cell_bare r h Hwf Hbare _ _ row t); [lia|lia| |].
  - by replace (Z.to_nat (0 + Z.of_nat i)) with i by lia.
  - by replace (Z.to_nat (0 + Z.of_nat j)) with j by lia.
Qed.

Lemma render_bare_map_witness :
  let r := MapRenderer.Build corridor_map (AgentManager.init corridor_map) in
  GameMap.wf (MapRenderer.game_map r) ∧
  AgentManager.agents (MapRenderer.agent_manager r) = [] ∧
  row_text <$> GameMap.tiles (MapRenderer.game_map r) = ["#####"; "#...#"; "#####"] ∧
  MapRenderer.render_map r at_sign None None None None
    = Returns (row_text <$> GameMap.tiles (MapRenderer.game_map r)).
Proof.
  intros r. split; [exact corridor_map_wf|]. split; [reflexivity|].
  split; [reflexivity|].
  exact (render_bare_map r at_sign corridor_map_wf eq_refl).
Defined.

(** ** Corridors between the rooms *)

Lemma joined_mono (P Q : Z → Z → Prop) (c1 c2 : Z * Z) :
  (∀ x y, Z.min c1.1 c2.1 ≤ x ≤ Z.max c1.1 c2.1 →
          Z.min c1.2 c2.2 ≤ y ≤ Z.max c1.2 c2.2 → P x y → Q x y) →
  joined P c1 c2 → joined Q c1 c2.
Proof.
  intros HPQ [[Hr Hc]|[Hc Hr]]; [left|right]; split.
  - intros x Hx. apply HPQ; [done|lia|by apply Hr].
  - intros y Hy. apply HPQ; [lia|done|by apply Hc].
  - intros y Hy. apply HPQ; [lia|done|by apply Hc].
  - intros x Hx. apply HPQ; [done|lia|by apply Hr].
Qed.

Lemma tunnel_cell_inside (w h : Z) (m : GameMap.t) (ts0 ts : list (list TileType)) (x y : Z) :
  GameMap.width m = w → GameMap.height m = h → carving w h ts0 ts →
  0 < x < w - 1 → 0 < y < h - 1 →
  returns (GameMap.tunnel_cell m ts x y)
    (λ ts', carving w h ts0 ts' ∧ carves w h ts ts' ∧ floor_at ts' x y).
Proof.
  intros Hw Hh Hts Hx Hy. unfold GameMap.tunnel_cell.
  assert ((0 <? x) && (x <? GameMap.width m - 1) && (0 <? y) && (y <? GameMap.height m - 1)
          = true) as ->.
  { rewrite !andb_true_iff, !Z.ltb_lt. lia. }
  by apply tile_assign_carving.
Qed.

Lemma horizontal_tunnel_floor (w h fn : Z) (m : GameMap.t) (x_start x_end y : Z) :
  furnished w h fn m →
  0 < x_start < w - 1 → 0 < x_end < w - 1 → 0 < y < h - 1 →
  returns (GameMap._create_horizontal_tunnel m x_start x_end y)
    (λ m', furnished w h fn m' ∧ GameMap.rooms m' = GameMap.rooms m ∧
           carves w h (GameMap.tiles m) (GameMap.tiles m') ∧
           along_row (floor_at (GameMap.tiles m')) x_start x_end y).
Proof.
  intros Hm Hxs Hxe Hy. unfold GameMap._create_horizontal_tunnel.
  set (xs := range (Z.min x_start x_end) (Z.max x_start x_end + 1)).
  eapply returns_bind.
  - apply (returns_for_in_acc xs _
      (λ pre ts, carving w h (GameMap.tiles m) ts ∧ ∀ x, x ∈ pre → floor_at ts x y)).
    + intros pre x post ts Hsplit [Hc Hdone].
      assert (x ∈ xs) as Hx%elem_of_range
        by (rewrite Hsplit; apply elem_of_app; right; left).
      assert (∀ x', x' ∈ pre → 0 ≤ x' < w) as Hpre.
      { intros x' Hx'.
        assert (x' ∈ xs) as ?%elem_of_range by (rewrite Hsplit; apply elem_of_app; by left).
        lia. }
      eapply returns_mono;
        [apply (tunnel_cell_inside w h m (GameMap.tiles m) ts x y); [apply Hm|apply Hm|done|lia|lia]|].
      intros ts' (Hc' & Hstep & Hxy). split; [done|].
      intros x' [Hx'| ->%list_elem_of_singleton]%elem_of_app; [|done].
      eapply carves_floor; [exact Hstep|by apply Hpre|lia|by apply Hdone].
    + split; [by eapply carving_start|]. intros x Hx. by apply elem_of_nil in Hx.
  - intros ts [Hc Hdone]. apply returns_ret.
    split; [by apply furnished_with_tiles|]. split; [done|].
    split; [apply Hc|]. intros x Hx. apply Hdone, elem_of_range. lia.
Qed.

Lemma vertical_tunnel_floor (w h fn : Z) (m : GameMap.t) (y_start y_end x : Z) :
  furnished w h fn m →
  0 < y_start < h - 1 → 0 < y_end < h - 1 → 0 < x < w - 1 →
  returns (GameMap._create_vertical_tunnel m y_start y_end x)
    (λ m', furnished w h fn m' ∧ GameMap.rooms m' = GameMap.rooms m ∧
           carves w h (GameMap.tiles m) (GameMap.tiles m') ∧
           along_column (floor_at (GameMap.tiles m')) y_start y_end x).
Proof.
  intros Hm Hys Hye Hx. unfold GameMap._create_vertical_tunnel.
  set (ys := range (Z.min y_start y_end) (Z.max y_start y_end + 1)).
  eapply returns_bind.
  - apply (returns_for_in_acc ys _
      (λ pre ts, carving w h (GameMap.tiles m) ts ∧ ∀ y, y ∈ pre → floor_at ts x y)).
    + intros pre y post ts Hsplit [Hc Hdone].
      assert (y ∈ ys) as Hy%elem_of_range
        by (rewrite Hsplit; apply elem_of_app; right; left).
      assert (∀ y', y' ∈ pre → 0 ≤ y' < h) as Hpre.
      { intros y' Hy'.
        assert (y' ∈ ys) as ?%elem_of_range by (rewrite Hsplit; apply elem_of_app; by left).
        lia. }
      eapply returns_mono;
        [apply (tunnel_cell_inside w h m (GameMap.tiles m) ts x y); [apply Hm|apply Hm|done|lia|lia]|].
      intros ts' (Hc' & Hstep & Hxy). split; [done|].
      intros y' [Hy'| ->%list_elem_of_singleton]%elem_of_app; [|done].
      eapply carves_floor; [exact Hstep|lia|by apply Hpre|by apply Hdone].
    + split; [by eapply carving_start|]. intros y Hy. by apply elem_of_nil in Hy.
  - intros ts [Hc Hdone]. apply returns_ret.
    split; [by apply furnished_with_tiles|]. split; [done|].
    split; [apply Hc|]. intros y Hy. apply Hdone, elem_of_range. lia.
Qed.

Lemma create_corridor_joined (w h fn : Z) (m : GameMap.t) (c1 c2 : Z * Z) :
  furnished w h fn m →
  0 < c1.1 < w - 1 → 0 < c1.2 < h - 1 → 0 < c2.1 < w - 1 → 0 < c2.2 < h - 1 →
  rreturns (GameMap._create_corridor m c1 c2)
    (λ m', furnished w h fn m' ∧ GameMap.rooms m' = GameMap.rooms m ∧
           carves w h (GameMap.tiles m) (GameMap.tiles m') ∧
           joined (floor_at (GameMap.tiles m')) c1 c2).
Proof.
  intros Hm H11 H12 H21 H22. unfold GameMap._create_corridor. cbv zeta.
  eapply rreturns_bind; [apply rreturns_coin|].
  intros [] _.
  - eapply rreturns_bind;
      [apply rreturns_lift, (horizontal_tunnel_floor w h fn); [exact Hm|done..]|].
    intros m1 (Hm1 & Hr1 & Hc1 & Hrow). apply rreturns_lift.
    eapply returns_mono; [by apply (vertical_tunnel_floor w h fn)|].
    intros m2 (Hm2 & Hr2 & Hc2 & Hcol).
    split; [done|]. split; [congruence|]. split; [by eapply carves_trans|].
    left. split; [|done].
    intros x Hx. eapply carves_floor; [exact Hc2|lia|lia|by apply Hrow].
  - eapply rreturns_bind;
      [apply rreturns_lift, (vertical_tunnel_floor w h fn); [exact Hm|done..]|].
    intros m1 (Hm1 & Hr1 & Hc1 & Hcol). apply rreturns_lift.
    eapply returns_mono; [by apply (horizontal_tunnel_floor w h fn)|].
    intros m2 (Hm2 & Hr2 & Hc2 & Hrow).
    split; [done|]. split; [congruence|]. split; [by eapply carves_trans|].
    right. split; [|done].
    intros y Hy. eapply carves_floor; [exact Hc2|lia|lia|by apply Hcol].
Qed.

Lemma center_inside (w h : Z) (r : Room.t) :
  room_fits w h r →
  Room.x r + 1 < (Room.center r).1 < Room.x r + Room.width r - 2 ∧
  Room.y r + 1 < (Room.center r).2 < Room.y r + Room.height r - 2 ∧
  0 < (Room.center r).1 < w - 1 ∧ 0 < (Room.center r).2 < h - 1.
Proof.
  unfold room_fits, Room.center. simpl. intros Hfit.
  pose proof (Z.div_mod (Room.width r) 2 ltac:(lia)).
  pose proof (Z.mod_pos_bound (Room.width r) 2 ltac:(lia)).
  pose proof (Z.div_mod (Room.height r) 2 ltac:(lia)).
  pose proof (Z.mod_pos_bound (Room.height r) 2 ltac:(lia)).
  lia.
Qed.

Lemma connect_rooms_joined (w h fn : Z) (m : GameMap.t) :
  furnished w h fn m →
  rreturns (GameMap._connect_rooms m)
    (λ m', furnished w h fn m' ∧ GameMap.rooms m' = GameMap.rooms m ∧
           ∀ (i : nat) r1 r2,
             GameMap.rooms m !! i = Some r1 → GameMap.rooms m !! S i = Some r2 →
             joined (floor_at (GameMap.tiles m')) (Room.center r1) (Room.center r2)).
Proof.
  intros Hm. unfold GameMap._connect_rooms.
  assert (∀ r, r ∈ GameMap.rooms m → room_fits w h r) as Hfits.
  { intros r Hr. destruct Hm as [_ _ _ _ _ Hfit _ _ _ _ _].
    rewrite Forall_forall in Hfit. by destruct (Hfit r Hr). }
  destruct (Z.ltb_spec (Z.of_nat (length (GameMap.rooms m))) 2) as [Hfew|Hmany].
  { apply rreturns_ret. split; [done|]. split; [done|].
    intros i r1 r2 _ H2%lookup_lt_Some. lia. }
  eapply rreturns_mono.
  - apply (rreturns_for_in_acc _ _
      (λ pre m', furnished w h fn m' ∧ GameMap.rooms m' = GameMap.rooms m ∧
         ∀ i r1 r2, i ∈ pre →
           GameMap.rooms m !! Z.to_nat i = Some r1 →
           GameMap.rooms m !! Z.to_nat (i + 1) = Some r2 →
           joined (floor_at (GameMap.tiles m')) (Room.center r1) (Room.center r2))).
    + intros pre i post m' Hsplit (Hm' & Hrooms & Hdone).
      assert (i ∈ range 0 (Z.of_nat (length (GameMap.rooms m)) - 1)) as Hi%elem_of_range
        by (rewrite Hsplit; apply elem_of_app; right; left).
      unfold GameMap.connect_pair.
      eapply rreturns_bind.
      { apply rreturns_lift, getitem_returns. rewrite Hrooms. lia. }
      intros room1 H1. cbv beta in H1. rewrite Hrooms in H1. eapply rreturns_bind.
      { apply rreturns_lift, getitem_returns. rewrite Hrooms. lia. }
      intros room2 H2. cbv beta in H2. rewrite Hrooms in H2.
      destruct (center_inside w h room1) as (_ & _ & H1x & H1y).
      { by eapply Hfits, list_elem_of_lookup_2. }
      destruct (center_inside w h room2) as (_ & _ & H2x & H2y).
      { by eapply Hfits, list_elem_of_lookup_2. }
      eapply rreturns_mono; [by apply (create_corridor_joined w h fn)|].
      intros m2 (Hm2 & Hr2 & Hc2 & Hj). split; [done|]. split; [congruence|].
      intros j r1 r2 [Hj'| ->%list_elem_of_singleton]%elem_of_app Hr1 Hr2'.
      * destruct (center_inside w h r1) as (_ & _ & ? & ?).
        { by eapply Hfits, list_elem_of_lookup_2. }
        destruct (center_inside w h r2) as (_ & _ & ? & ?).
        { by eapply Hfits, list_elem_of_lookup_2. }
        eapply joined_mono; [|by eapply Hdone].
        intros x y Hx Hy Hxy. eapply carves_floor; [exact Hc2|lia|lia|exact Hxy].
      * by replace r1 with room1 by congruence; replace r2 with room2 by congruence.
    + split; [done|]. split; [done|]. intros i r1 r2 Hi. by apply elem_of_nil in Hi.
  - intros m' (Hm' & Hrooms & Hdone). split; [done|]. split; [done|].
    intros i r1 r2 H1 H2. apply (Hdone (Z.of_nat i)).
    + apply elem_of_range. apply lookup_lt_Some in H2. lia.
    + by rewrite Nat2Z.id.
    + by replace (Z.to_nat (Z.of_nat i + 1)) with (S i) by lia.
Qed.

Lemma place_stairs_keeps_walkable (w h fn : Z) (m : GameMap.t) :
  furnished w h fn m →
  rreturns (GameMap._place_stairs m)
    (λ m', GameMap.width m' = w ∧ GameMap.height m' = h ∧
           GameMap.rooms m' = GameMap.rooms m ∧
           ∀ x y, 0 ≤ x < w → 0 ≤ y < h → floor_at (GameMap.tiles m) x y →
             ∃ t, GameMap.tile_at (GameMap.tiles m') x y = Returns t ∧
                  TileProperties.is_walkable t = true).
Proof.
  intros Hm. pose proof Hm as [Hw Hh Hfn Hg Hk Hfit Hdis Hsp Hspawn Hborder Hint].
  unfold GameMap._place_stairs.
  destruct (Z.ltb_spec (Z.of_nat (length (GameMap.rooms m))) 2) as [Hfew|Hmany].
  { apply rreturns_ret. do 3 (split; [done|]). intros x y _ _ Hxy. by exists FLOOR. }
  eapply rreturns_bind.
  { apply rreturns_choice.
    destruct (GameMap.rooms m) as [|r0 [|r1 rs]]; simpl in *; [lia..|done]. }
  intros stair_room Hroom. cbv beta in Hroom.
  apply list_elem_of_lookup in Hroom as [i0 Hi0]. rewrite lookup_drop in Hi0.
  assert (room_fits w h stair_room) as Hsfit.
  { rewrite Forall_lookup in Hfit. by apply (Hfit _ _ Hi0). }
  cbv zeta.
  destruct (Room.get_inner_area stair_room) as [|p0 ps] eqn:Harea.
  { apply rreturns_ret. do 3 (split; [done|]). intros x y _ _ Hxy. by exists FLOOR. }
  rewrite <- Harea in *.
  eapply rreturns_bind; [apply rreturns_choice; by rewrite Harea|].
  intros [sx sy] Hpos. cbv beta in Hpos. simpl.
  pose proof Hpos as Hin. apply elem_of_inner_area in Hin.
  assert (0 ≤ sx < w ∧ 0 ≤ sy < h) as (Hsx & Hsy)
    by (unfold room_fits in *; lia).
  destruct (tile_assign_returns w h (GameMap.tiles m) sx sy STAIRS_DOWN Hg Hsx Hsy)
    as (row & _ & _ & Heq).
  eapply rreturns_bind.
  { apply rreturns_lift. eexists. split; [exact Heq|]. by instantiate (1 := λ ts, ts = _). }
  intros ts ->. apply rreturns_ret. simpl. do 3 (split; [done|]).
  intros x y Hx Hy Hxy.
  destruct (decide ((x, y) = (sx, sy))) as [[= -> ->]|Hne].
  - exists STAIRS_DOWN. split; [|done].
    exact (tile_assign_read w h _ sx sy STAIRS_DOWN Hg Hsx Hsy _ Heq).
  - exists FLOOR. split; [|done].
    by rewrite (tile_assign_other w h _ sx sy STAIRS_DOWN Hg Hsx Hsy _ x y Heq Hx Hy Hne).
Qed.

Lemma set_spawn_point_keeps (m : GameMap.t) :
  rreturns (GameMap._set_spawn_point m)
    (λ m', GameMap.width m' = GameMap.width m ∧ GameMap.height m' = GameMap.height m ∧
           GameMap.rooms m' = GameMap.rooms m ∧ GameMap.tiles m' = GameMap.tiles m).
Proof.
  unfold GameMap._set_spawn_point.
  destruct (GameMap.rooms m) as [|spawn_room rs] eqn:Hrooms; [by apply rreturns_ret|].
  cbv zeta. destruct (Room.get_inner_area spawn_room) as [|p0 ps] eqn:Harea.
  { apply rreturns_ret. by rewrite Hrooms. }
  eapply rreturns_bind; [by apply rreturns_choice|].
  intros p _. apply rreturns_ret. simpl. by rewrite Hrooms.
Qed.

Lemma generate_map_joined (w h fn : Z) :
  rreturns (GameMap.generate_map (GameMap.init w h fn))
    (λ m, ∀ (i : nat) r1 r2,
       GameMap.rooms m !! i = Some r1 → GameMap.rooms m !! S i = Some r2 →
       joined (λ x y, GameMap.is_walkable m x y = Returns true)
              (Room.center r1) (Room.center r2)).
Proof.
  unfold GameMap.generate_map.
  eapply rreturns_bind; [apply generate_rooms_furnished, furnished_init|].
  intros m1 [Hm1 _].
  eapply rreturns_bind; [by apply (connect_rooms_joined w h fn)|].
  intros m2 (Hm2 & Hrooms2 & Hjoined).
  eapply rreturns_bind; [by apply (place_stairs_keeps_walkable w h fn)|].
  intros m3 (Hw3 & Hh3 & Hrooms3 & Hwalk).
  eapply rreturns_mono; [apply set_spawn_point_keeps|].
  intros m4 (Hw4 & Hh4 & Hrooms4 & Htiles4) i r1 r2 H1 H2.
  rewrite Hrooms4, Hrooms3, Hrooms2 in H1, H2.
  assert (∀ r, r ∈ GameMap.rooms m1 → room_fits w h r) as Hfits.
  { intros r Hr. destruct Hm1 as [_ _ _ _ _ Hfit _ _ _ _ _].
    rewrite Forall_forall in Hfit. by destruct (Hfit r Hr). }
  destruct (center_inside w h r1) as (_ & _ & ? & ?).
  { by eapply Hfits, list_elem_of_lookup_2. }
  destruct (center_inside w h r2) as (_ & _ & ? & ?).
  { by eapply Hfits, list_elem_of_lookup_2. }
  eapply joined_mono; [|by eapply Hjoined].
  intros x y Hx Hy Hxy. cbv beta.
  destruct (Hwalk x y) as (t & Ht & Hwt); [lia|lia|done|].
  rewrite <- Htiles4 in Ht.
  destruct (get_tile_of_tile_at m4 x y t) as [_ ->]; [lia|lia|done|].
  by rewrite Hwt.
Qed.

(** X30. On a generated floor the centres of every two consecutive rooms of
    the room list are joined by an L-shaped line of walkable tiles: along
    the row of the first centre and then the column of the second, or along
    the column of the first and then the row of the second. *)
Theorem generated_rooms_joined (w h fn : Z) (g g' : RNG) (m : GameMap.t) :
  GameMap.generate_map (GameMap.init w h fn) g = Returns (m, g') →
  ∀ (i : nat) r1 r2,
    GameMap.rooms m !! i = Some r1 → GameMap.rooms m !! S i = Some r2 →
    joined (λ x y, GameMap.is_walkable m x y = Returns true)
           (Room.center r1) (Room.center r2).
Proof.
  intros Hgen. exact (rreturns_elim _ _ _ _ _ (generate_map_joined w h fn) Hgen).
Qed.

Lemma generated_rooms_joined_witness :
  ∃ m g',
    GameMap.generate_map (GameMap.init 40 20 1) two_room_draws = Returns (m, g') ∧
    (∃ r1 r2, GameMap.rooms m !! 0%nat = Some r1 ∧ GameMap.rooms m !! 1%nat = Some r2) ∧
    ∀ (i : nat) r1 r2,
      GameMap.rooms m !! i = Some r1 → GameMap.rooms m !! S i = Some r2 →
      joined (λ x y, GameMap.is_walkable m x y = Returns true)
             (Room.center r1) (Room.center r2).
Proof.
  destruct (GameMap.generate_map (GameMap.init 40 20 1) two_room_draws)
    as [[m g']| |] eqn:E; [|vm_compute in E; discriminate..].
  exists m, g'. split; [reflexivity|].
  split; [vm_compute in E; injection E as <- _; by eexists _, _|].
  exact (generated_rooms_joined 40 20 1 two_room_draws g' m E).
Defined.
